(** * Disjunctive itemset mining on an FP-tree: a shallow embedding of main.py

    The Python program keeps its FP-tree as a graph of mutable [FPNode]
    objects that point at each other (parent, children, neighbour).  Here the
    objects live in an explicit heap: a list of node records in which the
    object created i-th sits at position i, and a reference to an object is
    its position.  Exceptions are values of an error monad; every [while]
    loop over pointers takes a fuel argument and raises [OutOfFuel] when the
    fuel is used up, so a statement that a call returns is always a statement
    that enough fuel gives the result.  Calls of [print] and the timer of
    the main block are left out; interpreter resource limits (recursion
    depth, memory) are not modelled. *)

From stdpp Require Import base option list sorting gmap strings.
From Stdlib Require Import ZArith Lia.

Local Open Scope Z_scope.

(** ** Exceptions and the result monad *)

Inductive exn : Type :=
  | KeyError
  | ValueError
  | IndexError
  | AttributeError
  | TypeError
  | BadRef      (* a reference that is not on the heap; Python cannot build one *)
  | OutOfFuel.  (* a loop that did not finish within the given fuel *)

Inductive result (A : Type) : Type :=
  | Ok (a : A)
  | Raise (e : exn).

Arguments Ok {A} a.
Arguments Raise {A} e.

Notation "x <- e ; k" :=
  (match e with Ok x => k | Raise err => Raise err end)
  (at level 20, e at level 100, k at level 200, only parsing).
Notation "' p <- e ; k" :=
  (match e with Ok p => k | Raise err => Raise err end)
  (at level 20, p pattern, e at level 100, k at level 200, only parsing).

(** ** Python lists and insertion-ordered dicts *)

(** [l[i]] with Python's negative indices. *)
Definition getitem {A : Type} (l : list A) (i : Z) : result A :=
  let j := if 0 <=? i then i else Z.of_nat (length l) + i in
  if j <? 0 then Raise IndexError
  else match l !! Z.to_nat j with
       | Some x => Ok x
       | None => Raise IndexError
       end.

(** [l.index(x)]: position of the first occurrence, [ValueError] if none. *)
Fixpoint index_from {A : Type} `{EqDecision A} (x : A) (l : list A) (n : nat)
  : option nat :=
  match l with
  | [] => None
  | y :: l' => if decide (y = x) then Some n else index_from x l' (S n)
  end.

Definition index {A : Type} `{EqDecision A} (l : list A) (x : A) : result nat :=
  match index_from x l 0 with
  | Some n => Ok n
  | None => Raise ValueError
  end.

(** [l.remove(x)]: drops the first occurrence, [ValueError] if none. *)
Fixpoint remove_first {A : Type} `{EqDecision A} (x : A) (l : list A)
  : option (list A) :=
  match l with
  | [] => None
  | y :: l' =>
      if decide (y = x) then Some l'
      else match remove_first x l' with
           | Some r => Some (y :: r)
           | None => None
           end
  end.

(** A dict is the list of its (key, value) pairs in insertion order. *)
Fixpoint dict_get {K V : Type} `{EqDecision K} (d : list (K * V)) (k : K)
  : option V :=
  match d with
  | [] => None
  | (k', v) :: d' => if decide (k' = k) then Some v else dict_get d' k
  end.

(** [d[k] = v]: an existing key keeps its place, a new key goes last. *)
Fixpoint dict_set {K V : Type} `{EqDecision K} (d : list (K * V)) (k : K) (v : V)
  : list (K * V) :=
  match d with
  | [] => [(k, v)]
  | (k', v') :: d' =>
      if decide (k' = k) then (k', v) :: d' else (k', v') :: dict_set d' k v
  end.

Fixpoint sumZ (l : list Z) : Z :=
  match l with
  | [] => 0
  | x :: l' => x + sumZ l'
  end.

Section Mining.

Context {Item : Type} `{Countable Item}.

(** ** class FPNode *)

(** [_item] and [_count] are [None] for the root.  [_children] is the dict
    from item to child, [_parent] and [_neighbour] are references.  The
    attribute [_tree] is left out: there is one tree, so the checks of the
    [parent] and [neighbour] setters, which compare trees, always pass, and
    the setters are plain assignments.  A node object has neither [__bool__]
    nor [__len__], so Python's [if nextNode:] is the test against [None]. *)
Record FPNode : Type := mkFPNode {
  _item : option Item;
  _count : option Z;
  _parent : option nat;
  _children : list (option Item * nat);
  _neighbour : option nat;
  _nodeID : nat
}.

(** [FPNode(tree, item, nodeID, count)] *)
Definition FPNode_init (item : option Item) (nodeID : nat) (count : option Z)
  : FPNode :=
  mkFPNode item count None [] None nodeID.

Definition set_count (n : FPNode) (c : option Z) : FPNode :=
  mkFPNode (_item n) c (_parent n) (_children n) (_neighbour n) (_nodeID n).
Definition set_parent (n : FPNode) (p : option nat) : FPNode :=
  mkFPNode (_item n) (_count n) p (_children n) (_neighbour n) (_nodeID n).
Definition set_children (n : FPNode) (ch : list (option Item * nat)) : FPNode :=
  mkFPNode (_item n) (_count n) (_parent n) ch (_neighbour n) (_nodeID n).
Definition set_neighbour (n : FPNode) (nb : option nat) : FPNode :=
  mkFPNode (_item n) (_count n) (_parent n) (_children n) nb (_nodeID n).

(** property [root] *)
Definition is_root (n : FPNode) : bool :=
  match _item n, _count n with
  | None, None => true
  | _, _ => false
  end.

(** property [children]: the values of the dict, in insertion order *)
Definition children (n : FPNode) : list nat := (_children n).*2.

Definition searchChildren (n : FPNode) (item : Item) : option nat :=
  dict_get (_children n) (Some item).

Definition incrementCount (n : FPNode) : result FPNode :=
  match _count n with
  | None => Raise ValueError
  | Some c => Ok (set_count n (Some (c + 1)))
  end.

(** ** class FPTree *)

(** [_nodes] is the heap of node objects, [_root] the reference to the root
    object, [_header] the header table: item to (head, tail). *)
Record FPTree : Type := mkFPTree {
  _nodes : list FPNode;
  _root : nat;
  _header : gmap (option Item) (nat * nat);
  _nodesCount : nat
}.

(** [FPTree()] *)
Definition FPTree_init : FPTree :=
  mkFPTree [FPNode_init None 0 None] 0 ∅ 0.

Definition deref (T : FPTree) (r : nat) : result FPNode :=
  match _nodes T !! r with
  | Some n => Ok n
  | None => Raise BadRef
  end.

Definition store (T : FPTree) (r : nat) (n : FPNode) : FPTree :=
  mkFPTree (<[r:=n]> (_nodes T)) (_root T) (_header T) (_nodesCount T).

(** A new object gets the next free position of the heap. *)
Definition alloc (T : FPTree) (n : FPNode) : FPTree * nat :=
  (mkFPTree (_nodes T ++ [n]) (_root T) (_header T) (_nodesCount T),
   length (_nodes T)).

Definition set_header (T : FPTree) (k : option Item) (ht : nat * nat) : FPTree :=
  mkFPTree (_nodes T) (_root T) (<[k:=ht]> (_header T)) (_nodesCount T).

Definition updateNodesCount (T : FPTree) : FPTree :=
  mkFPTree (_nodes T) (_root T) (_header T) (S (_nodesCount T)).

(** [self.addChild(childNode)] *)
Definition addChild (T : FPTree) (self childNode : nat) : result FPTree :=
  c <- deref T childNode ;
  s <- deref T self ;
  match dict_get (_children s) (_item c) with
  | Some _ => Ok T
  | None =>
      let T1 := store T self
                  (set_children s (dict_set (_children s) (_item c) childNode)) in
      c1 <- deref T1 childNode ;
      Ok (store T1 childNode (set_parent c1 (Some self)))
  end.

(** [self.updateHeader(node)] *)
Definition updateHeader (T : FPTree) (node : nat) : result FPTree :=
  n <- deref T node ;
  match _header T !! _item n with
  | Some headerOfItem =>
      t <- deref T headerOfItem.2 ;
      let T1 := store T headerOfItem.2 (set_neighbour t (Some node)) in
      Ok (set_header T1 (_item n) (headerOfItem.1, node))
  | None => Ok (set_header T (_item n) (node, node))
  end.

(** The body of the [for item in transaction] loop of [addTransaction];
    the state is the tree and [currNode]. *)
Definition addTransaction_step (T : FPTree) (currNode : nat) (item : Item)
  : result (FPTree * nat) :=
  cn <- deref T currNode ;
  match searchChildren cn item with
  | Some nextNode =>
      nn <- deref T nextNode ;
      nn' <- incrementCount nn ;
      Ok (store T nextNode nn', nextNode)
  | None =>
      let T1 := updateNodesCount T in
      let '(T2, nextNode) :=
        alloc T1 (FPNode_init (Some item) (_nodesCount T1) (Some 1)) in
      T3 <- addChild T2 currNode nextNode ;
      T4 <- updateHeader T3 nextNode ;
      Ok (T4, nextNode)
  end.

Fixpoint addTransaction_loop (T : FPTree) (currNode : nat)
    (transaction : list Item) : result FPTree :=
  match transaction with
  | [] => Ok T
  | item :: rest =>
      '(T', nextNode) <- addTransaction_step T currNode item ;
      addTransaction_loop T' nextNode rest
  end.

Definition addTransaction (T : FPTree) (transaction : list Item)
  : result FPTree :=
  addTransaction_loop T (_root T) transaction.

(** ** buildFPTree *)

Fixpoint buildFPTree_loop (T : FPTree) (transactions : list (list Item))
  : result FPTree :=
  match transactions with
  | [] => Ok T
  | transaction :: rest =>
      T' <- addTransaction T transaction ;
      buildFPTree_loop T' rest
  end.

Definition buildFPTree (transactions : list (list Item)) : result FPTree :=
  buildFPTree_loop FPTree_init transactions.

(** ** checkPath *)

(** The [while Y_node != tree.root] loop for the index [i]; the result is
    the value of [found] when the loop is left. *)
Fixpoint checkPath_while (fuel : nat) (itemList : list Item) (i : Z)
    (Y_node : option nat) (T : FPTree) (itemsOrder : list Item) : result bool :=
  match fuel with
  | O => Raise OutOfFuel
  | S fuel' =>
      if decide (Y_node = Some (_root T)) then Ok false
      else
        match Y_node with
        | None => Raise AttributeError
        | Some y =>
            yn <- deref T y ;
            x <- getitem itemList i ;
            if decide (_item yn = Some x) then Ok true
            else
              match _item yn with
              | None => Raise ValueError
              | Some yi =>
                  a <- index itemsOrder yi ;
                  b <- index itemsOrder x ;
                  if (a <? b)%nat then Ok false
                  else checkPath_while fuel' itemList i (_parent yn) T itemsOrder
              end
        end
  end.

(** [checkPath_rec fuel j ...] is [checkPath(itemList, j - 1, ...)]: the
    test [i >= 0] is the match on [j = i + 1], and the recursive call at
    [i - 1] is the call at the predecessor of [j]. *)
Fixpoint checkPath_rec (fuel : nat) (j : nat) (itemList : list Item)
    (X_node : nat) (T : FPTree) (itemsOrder : list Item) : result bool :=
  match j with
  | O => Ok false
  | S i =>
      xn <- deref T X_node ;
      found <- checkPath_while fuel itemList (Z.of_nat i) (_parent xn) T itemsOrder ;
      if found then Ok true
      else checkPath_rec fuel i itemList X_node T itemsOrder
  end.

Definition checkPath (fuel : nat) (itemList : list Item) (i : Z) (X_node : nat)
    (T : FPTree) (itemsOrder : list Item) : result bool :=
  checkPath_rec fuel (Z.to_nat (i + 1)) itemList X_node T itemsOrder.

(** ** findSupportByPrefixPath *)

(** The [while X_node != None] loop along the neighbour chain.  [n] is the
    fuel of this loop, [fuel] the fuel handed to [checkPath]. *)
Fixpoint findSupport_while (n fuel : nat) (newList : list Item) (k : nat)
    (X_node : option nat) (T : FPTree) (itemsOrder : list Item) (support : Z)
  : result Z :=
  match n with
  | O => Raise OutOfFuel
  | S n' =>
      match X_node with
      | None => Ok support
      | Some x =>
          found <- checkPath fuel newList (Z.of_nat k - 1) x T itemsOrder ;
          xn <- deref T x ;
          support' <- (if found then Ok support
                       else match _count xn with
                            | Some c => Ok (support + c)
                            | None => Raise TypeError
                            end) ;
          findSupport_while n' fuel newList k (_neighbour xn) T itemsOrder support'
      end
  end.

(** The [for k in range(len(newList))] loop. *)
Fixpoint findSupport_for (fuel : nat) (newList : list Item) (ks : list nat)
    (T : FPTree) (itemsOrder : list Item) (support : Z) : result Z :=
  match ks with
  | [] => Ok support
  | k :: ks' =>
      x <- getitem newList (Z.of_nat k) ;
      match _header T !! Some x with
      | None => Raise KeyError
      | Some h =>
          support' <- findSupport_while fuel fuel newList k (Some h.1) T
                        itemsOrder support ;
          findSupport_for fuel newList ks' T itemsOrder support'
      end
  end.

Definition findSupportByPrefixPath (fuel : nat) (newList : list Item)
    (T : FPTree) (itemsOrder : list Item) : result Z :=
  findSupport_for fuel newList (seq 0 (length newList)) T itemsOrder 0.

(** ** findSupportByBFS *)

(** The [for item in newList] loop on one child: the new support and
    [foundFlag]. *)
Fixpoint BFS_match (newList : list Item) (node : FPNode) (support : Z)
  : result (Z * bool) :=
  match newList with
  | [] => Ok (support, false)
  | item :: rest =>
      if decide (Some item = _item node) then
        match _count node with
        | Some c => Ok (support + c, true)
        | None => Raise TypeError
        end
      else BFS_match rest node support
  end.

(** The [for node in childrenNodes] loop; the state is the queue, the
    visited list and the support.  The two calls of [sorted] before it throw
    their results away and are dropped. *)
Fixpoint BFS_for (newList : list Item) (T : FPTree) (childrenNodes : list nat)
    (q : list nat) (visited : list bool) (support : Z)
  : result (list nat * list bool * Z) :=
  match childrenNodes with
  | [] => Ok (q, visited, support)
  | node :: rest =>
      nn <- deref T node ;
      match visited !! _nodeID nn with
      | None => Raise IndexError
      | Some true => BFS_for newList T rest q visited support
      | Some false =>
          '(support', foundFlag) <- BFS_match newList nn support ;
          if foundFlag then BFS_for newList T rest q visited support'
          else BFS_for newList T rest (q ++ [node])
                 (<[_nodeID nn:=true]> visited) support'
      end
  end.

(** The [while not q.empty()] loop. *)
Fixpoint BFS_while (fuel : nat) (newList : list Item) (T : FPTree)
    (q : list nat) (visited : list bool) (support : Z) : result Z :=
  match fuel with
  | O => Raise OutOfFuel
  | S fuel' =>
      match q with
      | [] => Ok support
      | srcNode :: q' =>
          sn <- deref T srcNode ;
          '(q'', visited', support') <-
            BFS_for newList T (children sn) q' visited support ;
          BFS_while fuel' newList T q'' visited' support'
      end
  end.

Definition findSupportByBFS (fuel : nat) (newList : list Item) (T : FPTree)
  : result Z :=
  let visited := <[0%nat:=true]> (replicate (_nodesCount T + 1) false) in
  BFS_while fuel newList T [_root T] visited 0.

(** ** generateItemsets and findFrequentItemsets *)

(** A recorded entry [{str(newList): val}] is kept as the pair of the
    itemset and its support. *)
Definition entry : Type := (list Item * Z)%type.

(** The [while i >= end] loop with [n = i - end + 1] iterations left, so
    that [i = end + n - 1].  The recursive call of [generateItemsets] at
    [start = i - 1] is this loop again with one iteration less. *)
Fixpoint generateItemsets_while (fuel : nat) (n : nat) (itemsList : list Item)
    (end_ depth minSupp : Z) (fpt : FPTree) (itemsOrder : list Item)
    (freqItemsets : list entry) : result (list entry) :=
  match n with
  | O => Ok freqItemsets
  | S n' =>
      let i := end_ + Z.of_nat n' in
      if depth =? end_ + 1 then Ok freqItemsets
      else
        x <- getitem itemsList i ;
        match remove_first x itemsList with
        | None => Raise ValueError
        | Some newList =>
            val <- findSupportByPrefixPath fuel newList fpt itemsOrder ;
            if minSupp <=? val then
              freqItemsets' <-
                generateItemsets_while fuel n' newList end_ (depth - 1) minSupp
                  fpt itemsOrder (freqItemsets ++ [(newList, val)]) ;
              generateItemsets_while fuel n' itemsList end_ depth minSupp fpt
                itemsOrder freqItemsets'
            else
              generateItemsets_while fuel n' itemsList end_ depth minSupp fpt
                itemsOrder freqItemsets
        end
  end.

Definition generateItemsets (fuel : nat) (itemsList : list Item)
    (start end_ depth minSupp : Z) (fpt : FPTree) (itemsOrder : list Item)
    (freqItemsets : list entry) : result (list entry) :=
  generateItemsets_while fuel (Z.to_nat (start - end_ + 1)) itemsList end_ depth
    minSupp fpt itemsOrder freqItemsets.

Definition findFrequentItemsets (fuel : nat) (fpt : FPTree)
    (itemsOrder : list Item) (minSupp : Z) : result (list entry) :=
  generateItemsets fuel itemsOrder (Z.of_nat (length itemsOrder) - 1) 0
    (Z.of_nat (length itemsOrder)) minSupp fpt itemsOrder [].

(** ** filterTransactions *)

(** [sorted] and [list.sort] on a list decorated with its keys.  Python's
    sort is stable, also with [reverse=True]; it compares keys with [<]
    only. *)
Section Sorting.
Context {K A : Type} (lt : K → K → bool).

Fixpoint sort_insert (reverse : bool) (x : K * A) (l : list (K * A))
  : list (K * A) :=
  match l with
  | [] => [x]
  | y :: l' =>
      if (if reverse then lt x.1 y.1 else lt y.1 x.1)
      then y :: sort_insert reverse x l'
      else x :: l
  end.

Fixpoint py_sorted (reverse : bool) (l : list (K * A)) : list (K * A) :=
  match l with
  | [] => []
  | x :: l' => sort_insert reverse x (py_sorted reverse l')
  end.
End Sorting.

Section FilterTransactions.

(** The order of the items themselves: [<] on strings or integers. *)
Context (item_lt : Item → Item → bool).

(** [<] on the tuples [(count, item)] that [itemgetter(1, 0)] builds. *)
Definition key_lt (a b : Z * Item) : bool :=
  if decide (a.1 = b.1) then
    if decide (a.2 = b.2) then false else item_lt a.2 b.2
  else a.1 <? b.1.

(** [itemsDict[item] += 1] on the [defaultdict] with default 0 *)
Definition count_item (itemsDict : list (Item * Z)) (item : Item)
  : list (Item * Z) :=
  dict_set itemsDict item (default 0 (dict_get itemsDict item) + 1).

Definition count_items (transactions : list (list Item)) : list (Item * Z) :=
  foldl (foldl count_item) [] transactions.

Fixpoint index_keys (itemsOrder : list Item) (l : list Item)
  : result (list (nat * Item)) :=
  match l with
  | [] => Ok []
  | v :: l' =>
      k <- index itemsOrder v ;
      r <- index_keys itemsOrder l' ;
      Ok ((k, v) :: r)
  end.

Definition cleanTransactions (itemsDictOrdered : list (Item * Z))
    (itemsOrder : list Item) (transaction : list Item) : result (list Item) :=
  let transaction :=
    filter (λ v, is_Some (dict_get itemsDictOrdered v)) transaction in
  keyed <- index_keys itemsOrder transaction ;
  Ok (py_sorted Nat.ltb false keyed).*2.

Fixpoint map_clean (itemsDictOrdered : list (Item * Z)) (itemsOrder : list Item)
    (transactions : list (list Item)) : result (list (list Item)) :=
  match transactions with
  | [] => Ok []
  | t :: rest =>
      t' <- cleanTransactions itemsDictOrdered itemsOrder t ;
      rest' <- map_clean itemsDictOrdered itemsOrder rest ;
      Ok (t' :: rest')
  end.

Definition filterTransactions (transactions : list (list Item)) (minSupp : Z)
  : result (list (list Item) * list Item) :=
  let itemsDict := count_items transactions in
  let itemsDictOrdered :=
    (py_sorted key_lt true (map (λ kv, ((kv.2, kv.1), kv)) itemsDict)).*2 in
  let itemsOrder := itemsDictOrdered.*1 in
  transactionsNew <- map_clean itemsDictOrdered itemsOrder transactions ;
  Ok (transactionsNew, itemsOrder).

(** ** The main block, from the parsed transactions on *)

Definition main (fuel : nat) (transactions : list (list Item)) (minSupp : Z)
  : result (list Item * FPTree * list entry) :=
  '(transactions', itemsOrder) <- filterTransactions transactions minSupp ;
  tree <- buildFPTree transactions' ;
  freqItemsets <- findFrequentItemsets fuel tree itemsOrder minSupp ;
  Ok (itemsOrder, tree, freqItemsets).

End FilterTransactions.

(** ** Vocabulary of the specification *)

(** Position of an item in the canonical order. *)
Definition rank (itemsOrder : list Item) (x : Item) : option nat :=
  index_from x itemsOrder 0.

Definition precedes (itemsOrder : list Item) (a b : Item) : Prop :=
  ∃ i j, rank itemsOrder a = Some i ∧ rank itemsOrder b = Some j ∧ (i < j)%nat.

(** A sequence of items of the canonical order, listed by strictly
    increasing position: sorted canonically and free of duplicates. *)
Definition canonical (itemsOrder l : list Item) : Prop :=
  StronglySorted (precedes itemsOrder) l ∧ Forall (λ a, a ∈ itemsOrder) l.

(** The transaction [t] contains at least one item of [S]. *)
Definition contains_any (S t : list Item) : Prop := Exists (λ x, x ∈ t) S.

#[global] Instance contains_any_dec S t : Decision (contains_any S t) :=
  Exists_dec (λ x, x ∈ t) S.

(** Disjunctive support: the number of transactions with an item of [S]. *)
Definition or_support (S : list Item) (txs : list (list Item)) : Z :=
  Z.of_nat (length (filter (contains_any S) txs)).

(** Number of sequences of [txs] that start with [p]. *)
Definition cnt_prefix (p : list Item) (txs : list (list Item)) : nat :=
  length (filter (λ t, p `prefix_of` t) txs).

(** Number of appearances of [x] in the dataset, every appearance counted. *)
Definition occurrences (x : Item) (txs : list (list Item)) : Z :=
  Z.of_nat (length (filter (λ y, y = x) (mjoin txs))).

(** The sum of the counts of the nodes [refs]; for the children of the root
    this is the sum of the root-level counts. *)
Fixpoint sum_counts (T : FPTree) (refs : list nat) : result Z :=
  match refs with
  | [] => Ok 0
  | c :: rest =>
      n <- deref T c ;
      match _count n with
      | None => Raise TypeError
      | Some k => s <- sum_counts T rest ; Ok (k + s)
      end
  end.

Definition root_children_count_sum (T : FPTree) : result Z :=
  r <- deref T (_root T) ;
  sum_counts T (children r).

(** ** The representation invariant of a tree under construction

    [paths] gives, for every heap position, the item sequence from the root
    to that node; [txs] are the sequences inserted so far. *)

Definition nb (T : FPTree) (i : nat) : option (option nat) :=
  _neighbour <$> _nodes T !! i.

(** Following neighbour links from [a] visits exactly [a :: L]. *)
Fixpoint linked (T : FPTree) (a : nat) (L : list nat) : Prop :=
  match L with
  | [] => nb T a = Some None
  | b :: L' => nb T a = Some (Some b) ∧ linked T b L'
  end.

(** The nodes that carry item [x], in creation order. *)
Definition occ (paths : list (list Item)) (x : Item) : list nat :=
  filter (λ i, last <$> paths !! i = Some (Some x)) (seq 0 (length paths)).

Definition chain_ok (T : FPTree) (L : list nat) (h : option (nat * nat)) : Prop :=
  match L with
  | [] => h = None
  | a :: L' => ∃ b, last L = Some b ∧ h = Some (a, b) ∧ linked T a L'
  end.

Definition node_ok (txs paths : list (list Item)) (i : nat) (n : FPNode)
    (p : list Item) : Prop :=
  ∃ x j q, p = q ++ [x] ∧ _item n = Some x ∧
    _count n = Some (Z.of_nat (cnt_prefix p txs)) ∧
    _parent n = Some j ∧ (j < i)%nat ∧ paths !! j = Some q ∧ _nodeID n = i.

Definition children_ok (paths : list (list Item)) (n : FPNode) (p : list Item)
  : Prop :=
  NoDup (_children n).*1 ∧
  ∀ k j, (k, j) ∈ _children n ↔ ∃ x, k = Some x ∧ paths !! j = Some (p ++ [x]).

Record tree_inv (txs paths : list (list Item)) (T : FPTree) : Prop := {
  inv_root : _root T = 0%nat;
  inv_len : length (_nodes T) = S (_nodesCount T);
  inv_plen : length paths = S (_nodesCount T);
  inv_p0 : paths !! 0%nat = Some [];
  inv_n0 : ∃ ch, _nodes T !! 0%nat = Some (mkFPNode None None None ch None 0);
  inv_node : ∀ i n p, (0 < i)%nat → _nodes T !! i = Some n →
               paths !! i = Some p → node_ok txs paths i n p;
  inv_nodup : NoDup paths;
  inv_children : ∀ i n p, _nodes T !! i = Some n → paths !! i = Some p →
                   children_ok paths n p;
  inv_closed : ∀ t q, t ∈ txs → q `prefix_of` t → q ∈ paths;
  inv_used : ∀ p, p ∈ paths → p ≠ [] → ∃ t, t ∈ txs ∧ p `prefix_of` t;
  inv_header : ∀ x, chain_ok T (occ paths x) (_header T !! Some x);
  inv_header_None : _header T !! None = None
}.

(** The heap after a new node was created under [c] for the item [x]. *)
Definition grown (T T' : FPTree) (c : nat) (x : Item) : Prop :=
  let N := _nodesCount T in
  let h := _header T !! Some x in
  _root T' = _root T ∧ _nodesCount T' = S N ∧
  length (_nodes T') = S (length (_nodes T)) ∧
  _header T' = <[Some x := (match h with Some ht => ht.1 | None => S N end, S N)]>
                 (_header T) ∧
  _nodes T' !! S N = Some (mkFPNode (Some x) (Some 1) (Some c) [] None (S N)) ∧
  ∀ i n, _nodes T !! i = Some n →
    _nodes T' !! i = Some
      (mkFPNode (_item n) (_count n) (_parent n)
         (if decide (i = c) then _children n ++ [(Some x, S N)] else _children n)
         (match h with
          | Some ht => if decide (i = ht.2) then Some (S N) else _neighbour n
          | None => _neighbour n
          end)
         (_nodeID n)).

(** What the node [i] adds to the support when [S'] are the itemset items
    before its own: its count, unless its path holds an item of [S']. *)
Definition weight (paths ts : list (list Item)) (S' : list Item) (i : nat)
  : Z :=
  match paths !! i with
  | Some p =>
      if decide (contains_any S' p) then 0 else Z.of_nat (cnt_prefix p ts)
  | None => 0
  end.

(** Number of sequences of [ts] that pass through the node [c] and
    satisfy [Q]. *)
Definition under (paths : list (list Item)) (Q : list Item → Prop)
    `{!∀ t, Decision (Q t)} (ts : list (list Item)) (c : nat) : Z :=
  match paths !! c with
  | Some pc => Z.of_nat (length (filter (λ t, pc `prefix_of` t ∧ Q t) ts))
  | None => 0
  end.

(** The path of the node [c] holds an item of the itemset. *)
Definition hit_at (paths : list (list Item)) (Is : list Item) (c : nat) : bool :=
  match paths !! c with
  | Some pc => bool_decide (contains_any Is pc)
  | None => false
  end.

(** Number of entries of the visited list that are still [False]. *)
Definition unvisited (vis : list bool) : nat :=
  length (filter (λ b, b = false) vis).

Record bfs_inv (paths : list (list Item)) (T : FPTree) (Is : list Item)
    (q : list nat) (vis : list bool) : Prop := {
  bfs_len : length vis = S (_nodesCount T);
  bfs_queue : ∀ j, j ∈ q →
    vis !! j = Some true ∧ ∃ pj, paths !! j = Some pj ∧ ¬ contains_any Is pj;
  bfs_nodup : NoDup q;
  bfs_parent : ∀ c p x, paths !! c = Some (p ++ [x]) → vis !! c = Some true →
    ∃ j, paths !! j = Some p ∧ vis !! j = Some true ∧ j ∉ q
}.

(** ** The remaining members of FPNode and FPTree *)

(** property [leaf] *)
Definition leaf (n : FPNode) : bool :=
  bool_decide (length (_children n) = 0%nat).

(** [FPTree.nodes(item)]: the nodes the generator yields, in the order of
    the yields.  The [while currNode] loop follows the neighbour links from
    the head of the header entry; an item without a header entry yields
    nothing, the [KeyError] being caught. *)
Fixpoint nodes_while (fuel : nat) (T : FPTree) (currNode : option nat)
  : result (list nat) :=
  match fuel with
  | O => Raise OutOfFuel
  | S fuel' =>
      match currNode with
      | None => Ok []
      | Some c =>
          cn <- deref T c ;
          rest <- nodes_while fuel' T (_neighbour cn) ;
          Ok (c :: rest)
      end
  end.

Definition nodes (fuel : nat) (T : FPTree) (item : Item) : result (list nat) :=
  match _header T !! Some item with
  | None => Ok []
  | Some h => nodes_while fuel T (Some h.1)
  end.

(** [collectPath(currNode)] of [prefixPaths]: the [while] loop appends the
    nodes from [currNode] up to the root, the root left out, and the list is
    reversed at the end. *)
Fixpoint collectPath_while (fuel : nat) (T : FPTree) (currNode : option nat)
    (path : list nat) : result (list nat) :=
  match fuel with
  | O => Raise OutOfFuel
  | S fuel' =>
      match currNode with
      | None => Ok path
      | Some c =>
          cn <- deref T c ;
          if is_root cn then Ok path
          else collectPath_while fuel' T (_parent cn) (path ++ [c])
      end
  end.

Definition collectPath (fuel : nat) (T : FPTree) (currNode : nat)
  : result (list nat) :=
  path <- collectPath_while fuel T (Some currNode) [] ;
  Ok (reverse path).

(** [FPTree.prefixPaths(item)]: the paths the generator expression yields,
    one for every node of [nodes(item)]. *)
Fixpoint prefixPaths_for (fuel : nat) (T : FPTree) (ns : list nat)
  : result (list (list nat)) :=
  match ns with
  | [] => Ok []
  | node :: rest =>
      path <- collectPath fuel T node ;
      paths <- prefixPaths_for fuel T rest ;
      Ok (path :: paths)
  end.

Definition prefixPaths (fuel : nat) (T : FPTree) (item : Item)
  : result (list (list nat)) :=
  ns <- nodes fuel T item ;
  prefixPaths_for fuel T ns.

(** The items of the nodes of a path, in the order of the path. *)
Definition path_items (T : FPTree) (path : list nat) : option (list Item) :=
  mapM (λ c, n ← _nodes T !! c; _item n) path.

(** The node reached from [c] by going down along the items of [p], with
    [searchChildren] at every step. *)
Fixpoint descend (T : FPTree) (c : nat) (p : list Item) : option nat :=
  match p with
  | [] => Some c
  | x :: p' =>
      cn ← _nodes T !! c; j ← searchChildren cn x; descend T j p'
  end.

(** The sum of the counts of all nodes; the root has none. *)
Definition total_count (T : FPTree) : Z :=
  sumZ ((λ n, default 0 (_count n)) <$> _nodes T).

(** The non-empty prefixes of a transaction, and those of a dataset without
    repetition. *)
Definition nonempty_prefixes (t : list Item) : list (list Item) :=
  (λ k, take k t) <$> seq 1 (length t).

Definition distinct_prefixes (txs : list (list Item)) : list (list Item) :=
  remove_dups (txs ≫= nonempty_prefixes).

(** ** processDataset, from the lines of the file on *)

(** The separators of [str.split()], for a [str] of code points below 256:
    the characters for which [str.isspace] holds. *)
Definition py_isspace (c : Ascii.ascii) : bool :=
  let n := Ascii.nat_of_ascii c in
  ((9 <=? n) && (n <=? 13) || (28 <=? n) && (n <=? 32)
   || (n =? 133) || (n =? 160))%nat.

(** [line.split()]: [tok] holds the characters of the item that is being
    read; runs of separators delimit the items and none is empty. *)
Fixpoint split_from (tok line : string) : list string :=
  match line with
  | EmptyString => if decide (tok = "") then [] else [tok]
  | String c rest =>
      if py_isspace c then
        if decide (tok = "") then split_from "" rest
        else tok :: split_from "" rest
      else split_from (tok +:+ String c "") rest
  end.

Definition py_split (line : string) : list string := split_from "" line.

(** The loop over the lines that [readlines] returned, for
    [numeric = False]: every line is split into its items.  Opening the
    file and the branch that converts every item with [int] are left
    out. *)
Definition processDataset_lines (dataset : list string) : list (list string) :=
  foldl (λ transactions line, transactions ++ [py_split line]) [] dataset.

Fixpoint all_chars (P : Ascii.ascii → bool) (s : string) : bool :=
  match s with
  | EmptyString => true
  | String c rest => P c && all_chars P rest
  end.

Fixpoint filter_chars (P : Ascii.ascii → bool) (s : string) : string :=
  match s with
  | EmptyString => EmptyString
  | String c rest =>
      if P c then String c (filter_chars P rest) else filter_chars P rest
  end.

Definition not_space (c : Ascii.ascii) : bool := negb (py_isspace c).

(** A string that [split] can return as an item. *)
Definition is_item (s : string) : Prop :=
  s ≠ "" ∧ all_chars not_space s = true.

(** A transaction as a line of the dataset: the items with one blank
    between them, and the end of the line. *)
Definition line_of (transaction : list string) : string :=
  String.concat " " transaction +:+ String (Ascii.ascii_of_nat 10) "".

(** ** What checkPath finds, read off the path of a node

    [seen_above itemsOrder x rq] follows the [while] loop of [checkPath] for
    the item [x] along [rq], the items of the ancestors of the node, the
    nearest first: it stops with [true] at [x], and with [false] at an item
    that precedes [x] in [itemsOrder], or at the root. *)
Fixpoint seen_above (itemsOrder : list Item) (x : Item) (rq : list Item)
  : bool :=
  match rq with
  | [] => false
  | z :: rest =>
      if decide (z = x) then true
      else if (default 0%nat (rank itemsOrder z)
                 <? default 0%nat (rank itemsOrder x))%nat then false
      else seen_above itemsOrder x rest
  end.

(** The recursion of [checkPath] over the first [m] items of [itemList], for
    a node whose ancestors carry the items [q], the root side first. *)
Fixpoint found_above (itemsOrder itemList : list Item) (m : nat)
    (q : list Item) : bool :=
  match m with
  | O => false
  | S i =>
      match itemList !! i with
      | Some x =>
          seen_above itemsOrder x (reverse q)
          || found_above itemsOrder itemList i q
      | None => false
      end
  end.

(** What the node with the path [p] adds to the support in the round [k] of
    [findSupportByPrefixPath]: its count, unless [checkPath] finds an
    earlier item of the itemset above it. *)
Definition share (itemsOrder : list Item) (txs : list (list Item))
    (itemList : list Item) (k : nat) (p : list Item) : Z :=
  if found_above itemsOrder itemList k (removelast p) then 0
  else Z.of_nat (cnt_prefix p txs).

(** ** Lists, dicts and indices *)

Lemma getitem_nat {A : Type} (l : list A) (k : nat) :
  getitem l (Z.of_nat k) =
    match l !! k with Some x => Ok x | None => Raise IndexError end.
Proof.
  unfold getitem.
  destruct (Z.leb_spec 0 (Z.of_nat k)) as [_|?]; [|lia].
  destruct (Z.ltb_spec (Z.of_nat k) 0) as [?|_]; [lia|].
  by rewrite Nat2Z.id.
Qed.

Lemma dict_get_None {K V : Type} `{EqDecision K} (d : list (K * V)) k :
  dict_get d k = None ↔ k ∉ d.*1.
Proof.
  induction d as [|[k' v] d IH]; simpl.
  - split; [intros _; apply not_elem_of_nil|done].
  - rewrite not_elem_of_cons. case_decide; subst.
    + split; [done|]. intros [? _]. done.
    + rewrite IH. naive_solver.
Qed.

Lemma dict_get_Some {K V : Type} `{EqDecision K} (d : list (K * V)) k v :
  NoDup d.*1 → dict_get d k = Some v ↔ (k, v) ∈ d.
Proof.
  induction d as [|[k' v'] d IH]; simpl; intros Hnd.
  - split; [done|]. intros ?%elem_of_nil. done.
  - apply NoDup_cons in Hnd as [Hk Hnd]. rewrite elem_of_cons.
    case_decide; subst.
    + split; [naive_solver|]. intros [?|Hin]; [naive_solver|].
      destruct Hk. apply list_elem_of_fmap. by exists (k, v).
    + rewrite IH by done. naive_solver.
Qed.

Lemma dict_set_fresh {K V : Type} `{EqDecision K} (d : list (K * V)) k v :
  dict_get d k = None → dict_set d k v = d ++ [(k, v)].
Proof.
  induction d as [|[k' v'] d IH]; simpl; [done|].
  case_decide; [done|]. intros ?. by rewrite IH.
Qed.

Lemma index_from_ge {A : Type} `{EqDecision A} (x : A) l n m :
  index_from x l n = Some m → (n ≤ m)%nat.
Proof.
  revert n. induction l as [|y l IH]; simpl; intros n; [done|].
  case_decide; [intros [= <-]; lia|]. intros ?%IH. lia.
Qed.

Lemma index_from_is_Some {A : Type} `{EqDecision A} (x : A) l n :
  x ∈ l → is_Some (index_from x l n).
Proof.
  revert n. induction l as [|y l IH]; simpl; intros n.
  - intros ?%elem_of_nil. done.
  - intros [->|?]%elem_of_cons; case_decide; eauto. done.
Qed.

Lemma index_from_elem {A : Type} `{EqDecision A} (x : A) l n m :
  index_from x l n = Some m → x ∈ l.
Proof.
  revert n. induction l as [|y l IH]; simpl; intros n; [done|].
  case_decide; subst; [intros _; left|]. intros ?%IH. by right.
Qed.

(** ** Counting prefixes *)

Lemma prefix_snoc_iff (p q : list Item) x :
  p `prefix_of` q ++ [x] ↔ p `prefix_of` q ∨ p = q ++ [x].
Proof.
  split.
  - intros [k Hk]. destruct k as [|y k _] using rev_ind.
    + right. by rewrite app_nil_r in Hk.
    + left. rewrite app_assoc in Hk. apply app_inj_tail in Hk as [-> _].
      by apply prefix_app_r.
  - intros [?| ->]; [by apply prefix_app_r|done].
Qed.

Lemma cnt_prefix_snoc p ps t :
  cnt_prefix p (ps ++ [t]) =
    (cnt_prefix p ps + if decide (p `prefix_of` t) then 1 else 0)%nat.
Proof.
  unfold cnt_prefix. rewrite filter_app, length_app. f_equal.
  rewrite filter_cons, filter_nil. by case_decide.
Qed.

Lemma cnt_prefix_extend p ps q x :
  cnt_prefix p (ps ++ [q ++ [x]]) =
    (cnt_prefix p (ps ++ [q]) + if decide (p = q ++ [x]) then 1 else 0)%nat.
Proof.
  rewrite !cnt_prefix_snoc.
  destruct (decide (p = q ++ [x])) as [->|Hne].
  - rewrite decide_True by done.
    rewrite (decide_False (P := _ `prefix_of` q)) by apply prefix_snoc_not. lia.
  - destruct (decide (p `prefix_of` q)) as [Hp|Hp].
    + rewrite decide_True by by apply prefix_app_r. lia.
    + rewrite decide_False; [lia|]. rewrite prefix_snoc_iff. tauto.
Qed.

Lemma cnt_prefix_0 p txs :
  (∀ t, t ∈ txs → ¬ p `prefix_of` t) → cnt_prefix p txs = 0%nat.
Proof.
  intros Hno. unfold cnt_prefix.
  induction txs as [|t txs IH]; [done|].
  rewrite filter_cons, decide_False by (apply Hno; left).
  apply IH. intros t' ?. apply Hno. by right.
Qed.

(** ** The invariant is kept by the construction *)

Lemma tree_inv_init : tree_inv [] [[]] FPTree_init.
Proof.
  split; simpl; try done.
  - by eexists.
  - intros [|i] n p ?; [lia|]. by destruct i.
  - apply NoDup_singleton.
  - intros [|[|i]] n p; [|done..]. intros [= <-] [= <-]. split; [constructor|].
    intros k j. split; [intros ?%elem_of_nil; done|].
    intros (x & -> & Hj). destruct j as [|[|j]]; done.
  - intros t q ?%elem_of_nil. done.
  - intros p ->%list_elem_of_singleton. done.
Qed.

Lemma lookup_paths_inj txs paths T i j p :
  tree_inv txs paths T → paths !! i = Some p → paths !! j = Some p → i = j.
Proof. intros Hinv ??. by eapply NoDup_lookup; [apply Hinv|..]. Qed.

Lemma tree_inv_lookup txs paths T i :
  tree_inv txs paths T → is_Some (paths !! i) ↔ is_Some (_nodes T !! i).
Proof.
  intros Hinv. rewrite !lookup_lt_is_Some.
  by rewrite (inv_len _ _ _ Hinv), (inv_plen _ _ _ Hinv).
Qed.

(** Opening a new transaction: the empty sequence is inserted. *)
Lemma tree_inv_open txs paths T :
  tree_inv txs paths T → tree_inv (txs ++ [[]]) paths T.
Proof.
  intros Hinv. destruct Hinv. split; try done.
  - intros i n p Hi Hn Hp.
    destruct (inv_node0 i n p Hi Hn Hp) as (x & j & q & -> & ? & Hc & ?).
    exists x, j, q. split_and!; try tauto.
    rewrite cnt_prefix_snoc, decide_False, Nat.add_0_r; [done|].
    intros Hpre%prefix_nil_inv. by destruct q.
  - intros t q [Ht| ->%list_elem_of_singleton]%elem_of_app Hq; [eauto|].
    apply prefix_nil_inv in Hq as ->. by eapply list_elem_of_lookup_2.
  - intros p Hp Hne. destruct (inv_used0 p Hp Hne) as (t & ? & ?).
    exists t. split; [|done]. apply elem_of_app. by left.
Qed.

Lemma linked_ext T T' a L :
  (∀ i, i ∈ a :: L → nb T' i = nb T i) → linked T a L → linked T' a L.
Proof.
  revert a. induction L as [|b L IH]; simpl; intros a Hext.
  - intros <-. apply Hext. left.
  - intros [Ha HL]. split; [rewrite <-Ha; apply Hext; left|].
    apply IH; [|done]. intros i ?. apply Hext. by right.
Qed.

Lemma chain_ok_ext T T' L h :
  (∀ i, i ∈ L → nb T' i = nb T i) → chain_ok T L h → chain_ok T' L h.
Proof.
  destruct L as [|a L]; simpl; [done|].
  intros Hext (b & ? & ? & ?). exists b. split_and!; [done..|].
  by apply (linked_ext T).
Qed.

(** The child for the item exists: its count goes up by one. *)
Lemma step_existing ps q x paths T c cn j :
  tree_inv (ps ++ [q]) paths T →
  paths !! c = Some q → _nodes T !! c = Some cn →
  searchChildren cn x = Some j →
  ∃ T', addTransaction_step T c x = Ok (T', j) ∧
        tree_inv (ps ++ [q ++ [x]]) paths T' ∧ paths !! j = Some (q ++ [x]).
Proof.
  intros Hinv Hc Hcn Hs.
  destruct (inv_children _ _ _ Hinv c cn q Hcn Hc) as [Hnd Hch].
  assert (paths !! j = Some (q ++ [x])) as Hj.
  { apply dict_get_Some in Hs; [|done]. by apply Hch in Hs as (x' & [= <-] & Hj). }
  destruct (proj1 (tree_inv_lookup _ _ _ j Hinv)) as [nn Hnn]; [by eexists|].
  assert (0 < j)%nat as Hj0.
  { destruct j; [|lia]. rewrite (inv_p0 _ _ _ Hinv) in Hj. by destruct q. }
  destruct (inv_node _ _ _ Hinv j nn _ Hj0 Hnn Hj)
    as (y & pj & q' & Heq & Hitem & Hcount & Hpar & Hlt & Hq' & Hid).
  apply app_inj_tail in Heq as [<- <-].
  unfold addTransaction_step, deref, incrementCount.
  rewrite Hcn, Hs, Hnn, Hcount. eexists. split; [done|]. split; [|done].
  assert (j < length (_nodes T))%nat as Hjlt by by eapply lookup_lt_Some.
  assert (∀ i, nb (store T j (set_count nn (Some (Z.of_nat
            (cnt_prefix (q ++ [x]) (ps ++ [q])) + 1)))) i = nb T i) as Hnb.
  { intros i. unfold nb, store; simpl. rewrite list_lookup_insert.
    case_decide as Hd; [|done]. destruct Hd as [<- _]. by rewrite Hnn. }
  destruct Hinv. split; simpl; try done.
  - by rewrite length_insert.
  - rewrite list_lookup_insert_ne by lia. done.
  - intros i n p Hi. rewrite list_lookup_insert. case_decide as Hd.
    + destruct Hd as [<- _]. intros [= <-] Hp. rewrite Hj in Hp.
      injection Hp as <-. exists x, pj, q. split_and!; try done. simpl.
      rewrite cnt_prefix_extend, decide_True by done. do 2 f_equal. lia.
    + intros Hn Hp.
      destruct (inv_node0 i n p Hi Hn Hp) as (z & k & r & -> & ? & Hcz & ?).
      exists z, k, r. split_and!; try tauto.
      rewrite cnt_prefix_extend, decide_False, Nat.add_0_r; [done|].
      intros Heq. rewrite Heq in Hp.
      assert (i = j) by by apply (NoDup_lookup paths i j (q ++ [x])). subst i.
      destruct Hd. split; [done|lia].
  - intros i n p. rewrite list_lookup_insert. case_decide as Hd.
    + destruct Hd as [<- _]. intros [= <-] Hp. by apply (inv_children0 j nn p).
    + apply inv_children0.
  - intros t r [Ht| ->%list_elem_of_singleton]%elem_of_app Hr.
    + apply (inv_closed0 t r); [|done]. apply elem_of_app. by left.
    + apply prefix_snoc_iff in Hr as [Hr| ->].
      * apply (inv_closed0 q r); [|done]. apply elem_of_app. right. by left.
      * by eapply list_elem_of_lookup_2.
  - intros p Hp Hne. destruct (inv_used0 p Hp Hne) as (t & Ht & Hpt).
    apply elem_of_app in Ht as [Ht| ->%list_elem_of_singleton].
    + exists t. split; [|done]. apply elem_of_app. by left.
    + exists (q ++ [x]). split; [|by apply prefix_app_r].
      apply elem_of_app. right. by left.
  - intros z. eapply chain_ok_ext; [|apply inv_header0]. intros i _. apply Hnb.
Qed.

Lemma step_new_shape T c cn x :
  length (_nodes T) = S (_nodesCount T) →
  _nodes T !! c = Some cn →
  searchChildren cn x = None →
  (∀ ht, _header T !! Some x = Some ht → (ht.2 < length (_nodes T))%nat) →
  ∃ T', addTransaction_step T c x = Ok (T', S (_nodesCount T)) ∧ grown T T' c x.
Proof.
  intros Hlen Hcn Hs Hh.
  assert (c < length (_nodes T))%nat as Hc by by eapply lookup_lt_Some.
  unfold addTransaction_step, deref. rewrite Hcn, Hs. simpl.
  unfold addChild, deref, store; simpl.
  rewrite Hlen. rewrite (lookup_app_r (_nodes T)) by lia.
  rewrite Hlen, Nat.sub_diag. simpl.
  rewrite lookup_app_l, Hcn by done. unfold searchChildren in Hs. rewrite Hs.
  rewrite list_lookup_insert_ne by lia.
  rewrite (lookup_app_r (_nodes T)) by lia. rewrite Hlen, Nat.sub_diag. simpl.
  unfold updateHeader, deref; simpl.
  rewrite list_lookup_insert_eq
    by (rewrite length_insert, length_app; simpl; lia).
  simpl. rewrite (dict_set_fresh _ _ _ Hs).
  destruct (_header T !! Some x) as [[hd tl]|] eqn:Hhx; simpl.
  - specialize (Hh _ eq_refl). simpl in Hh.
    destruct (proj2 (lookup_lt_is_Some (_nodes T) tl) Hh) as [tn Htn].
    rewrite list_lookup_insert_ne by lia.
    rewrite list_lookup_insert, lookup_app_l by lia.
    rewrite length_app. simpl.
    assert (∀ i n, _nodes T !! i = Some n → (i < length (_nodes T))%nat)
      as Hlt by (intros; by eapply lookup_lt_Some).
    case_decide as Hd; [destruct Hd as [<- _]|rewrite Htn];
      (eexists; split; [reflexivity|]);
      unfold grown, set_header, store; simpl; rewrite Hhx; simpl;
      rewrite !length_insert, length_app; simpl;
      (split_and!; try done; try lia;
       [ rewrite list_lookup_insert_ne by lia;
         rewrite list_lookup_insert_eq
           by (rewrite length_insert, length_app; simpl; lia); done
       | intros i n Hn; pose proof (Hlt i n Hn);
         rewrite list_lookup_insert, !length_insert, length_app; simpl;
         rewrite list_lookup_insert_ne by lia;
         rewrite list_lookup_insert, length_app, lookup_app_l by lia; simpl;
         rewrite Hn;
         repeat case_decide; simplify_eq;
         first [done | lia | by destruct n | exfalso; naive_solver lia] ]).
  - eexists. split; [reflexivity|].
    unfold grown, set_header, store; simpl. rewrite Hhx. simpl.
    rewrite !length_insert, length_app. simpl.
    split_and!; try done; try lia.
    + rewrite list_lookup_insert_eq
        by (rewrite length_insert, length_app; simpl; lia). done.
    + intros i n Hn. assert (i < length (_nodes T))%nat
        by by eapply lookup_lt_Some.
      rewrite list_lookup_insert_ne by lia.
      rewrite list_lookup_insert, length_app, lookup_app_l by lia. simpl.
      rewrite Hn.
      repeat case_decide; simplify_eq;
        first [done | lia | by destruct n | exfalso; naive_solver lia].
Qed.

Lemma filter_ext_in {A : Type} (P1 P2 : A → Prop)
    `{!∀ x, Decision (P1 x), !∀ x, Decision (P2 x)} (l : list A) :
  (∀ x, x ∈ l → P1 x ↔ P2 x) → filter P1 l = filter P2 l.
Proof.
  induction l as [|a l IH]; intros Hiff; [done|].
  rewrite !filter_cons, IH by (intros; apply Hiff; by right).
  apply decide_ext, Hiff. left.
Qed.

Lemma elem_of_occ paths y i :
  i ∈ occ paths y ↔ ∃ p, paths !! i = Some p ∧ last p = Some y.
Proof.
  unfold occ. rewrite list_elem_of_filter, elem_of_seq. split.
  - intros [Hl _]. destruct (paths !! i) as [p|]; [|done].
    exists p. split; [done|]. by injection Hl.
  - intros (p & Hp & Hl). rewrite Hp. simpl. split; [by rewrite Hl|].
    apply lookup_lt_Some in Hp. lia.
Qed.

Lemma NoDup_occ paths y : NoDup (occ paths y).
Proof. apply NoDup_filter, NoDup_seq. Qed.

Lemma occ_snoc paths p y :
  occ (paths ++ [p]) y =
    occ paths y ++ (if decide (last p = Some y) then [length paths] else []).
Proof.
  unfold occ. rewrite length_app. simpl. rewrite Nat.add_1_r, seq_S, filter_app.
  f_equal.
  - apply filter_ext_in. intros i [_ ?]%elem_of_seq.
    by rewrite lookup_app_l by lia.
  - simpl. rewrite filter_cons, filter_nil.
    rewrite lookup_app_r, Nat.sub_diag by lia. simpl.
    destruct (decide (last p = Some y)) as [->|Hne].
    + by rewrite decide_True.
    + rewrite decide_False; [done|]. by intros [= ?].
Qed.

Lemma linked_snoc T T' a L b new :
  linked T a L → last (a :: L) = Some b → NoDup (a :: L) →
  nb T' b = Some (Some new) → nb T' new = Some None →
  (∀ i, i ∈ a :: L → i ≠ b → nb T' i = nb T i) →
  linked T' a (L ++ [new]).
Proof.
  revert a. induction L as [|b' L IH]; simpl; intros a HL Hlast Hnd Hb Hnew Hext.
  - injection Hlast as ->. done.
  - destruct HL as [Ha HL]. change (last (b' :: L) = Some b) in Hlast.
    apply NoDup_cons in Hnd as [Hna Hnd].
    assert (a ≠ b).
    { intros ->. apply Hna. by apply last_Some_elem_of. }
    split.
    + rewrite Hext; [done|left|done].
    + apply IH; try done. intros i ? ?. apply Hext; [by right|done].
Qed.

(** No child for the item: a node is created, hung under [c] and appended
    to the chain of its item. *)
Lemma step_new ps q x paths T c cn :
  tree_inv (ps ++ [q]) paths T →
  paths !! c = Some q → _nodes T !! c = Some cn →
  searchChildren cn x = None →
  ∃ T', addTransaction_step T c x = Ok (T', S (_nodesCount T)) ∧
        tree_inv (ps ++ [q ++ [x]]) (paths ++ [q ++ [x]]) T' ∧
        (paths ++ [q ++ [x]]) !! S (_nodesCount T) = Some (q ++ [x]).
Proof.
  intros Hinv Hc Hcn Hs.
  pose proof (inv_len _ _ _ Hinv) as Hlen.
  pose proof (inv_plen _ _ _ Hinv) as Hplen.
  destruct (inv_children _ _ _ Hinv c cn q Hcn Hc) as [Hnd Hch].
  assert (q ++ [x] ∉ paths) as F1.
  { intros [j Hj]%list_elem_of_lookup.
    assert ((Some x, j) ∈ _children cn) as Hin by (apply Hch; eauto).
    apply dict_get_None in Hs. apply Hs. apply list_elem_of_fmap.
    by exists (Some x, j). }
  assert (∀ t, t ∈ ps ++ [q] → ¬ (q ++ [x]) `prefix_of` t) as F2.
  { intros t Ht Hpre. apply F1. by eapply inv_closed. }
  assert (∀ p, p ∈ paths → ¬ (q ++ [x]) `prefix_of` p) as F3.
  { intros p Hp Hpre. destruct (inv_used _ _ _ Hinv p Hp) as (t & Ht & Hpt).
    - intros ->. apply prefix_nil_inv in Hpre. by destruct q.
    - apply (F2 t Ht). by etrans. }
  assert (∀ ht, _header T !! Some x = Some ht → ht.2 ∈ occ paths x) as Htail.
  { intros [hd tl] Hh. pose proof (inv_header _ _ _ Hinv x) as Hco.
    rewrite Hh in Hco.
    destruct (occ paths x) as [|a L] eqn:Hocc; simpl in Hco; [done|].
    destruct Hco as (b & Hlast & [= -> ->] & _). simpl.
    by apply last_Some_elem_of. }
  destruct (step_new_shape T c cn x Hlen Hcn Hs) as (T' & Hstep & Hg).
  { intros ht Hh. apply Htail, elem_of_occ in Hh as (p & Hp & _).
    rewrite Hlen, <-Hplen. by eapply lookup_lt_Some. }
  exists T'. split; [done|].
  destruct Hg as (Hroot & Hcount' & Hlen' & Hhdr & Hnew & Hold).
  assert ((paths ++ [q ++ [x]]) !! S (_nodesCount T) = Some (q ++ [x])) as Hplast.
  { rewrite lookup_app_r by lia. by rewrite Hplen, Nat.sub_diag. }
  split; [|done].
  assert (∀ j p, (paths ++ [q ++ [x]]) !! j = Some p → j ≠ S (_nodesCount T) →
            paths !! j = Some p) as Hpold.
  { intros j p Hj Hne. pose proof (lookup_lt_Some _ _ _ Hj) as Hlt.
    rewrite length_app in Hlt. simpl in Hlt.
    rewrite lookup_app_l in Hj by lia. done. }
  assert (∀ j n, _nodes T' !! j = Some n → j ≠ S (_nodesCount T) →
            ∃ n0, _nodes T !! j = Some n0) as Hnold.
  { intros j n Hj Hne. pose proof (lookup_lt_Some _ _ _ Hj) as Hlt.
    apply lookup_lt_is_Some. lia. }
  assert (nb T' (S (_nodesCount T)) = Some None) as Hnb_new
    by (unfold nb; by rewrite Hnew).
  assert (∀ i, (i < length paths)%nat →
            (∀ ht, _header T !! Some x = Some ht → i ≠ ht.2) →
            nb T' i = nb T i) as Hnb_old.
  { intros i Hi Hne. unfold nb. destruct (_nodes T !! i) as [n|] eqn:Hn.
    - rewrite (Hold i n Hn). simpl.
      destruct (_header T !! Some x) as [ht|]; [|done].
      rewrite decide_False; [done|]. by apply Hne.
    - apply lookup_ge_None in Hn. lia. }
  split.
  - rewrite Hroot. apply Hinv.
  - lia.
  - rewrite length_app. simpl. lia.
  - rewrite lookup_app_l by lia. apply Hinv.
  - destruct (inv_n0 _ _ _ Hinv) as [ch Hn0]. rewrite (Hold _ _ Hn0). simpl.
    destruct (_header T !! Some x) as [ht|] eqn:Hh; [|by eexists].
    rewrite (decide_False (P := 0%nat = ht.2)); [by eexists|]. intros Heq.
    pose proof (Htail ht eq_refl) as Hin.
    apply elem_of_occ in Hin as (p & Hp & Hl). rewrite <-Heq in Hp.
    rewrite (inv_p0 _ _ _ Hinv) in Hp. by injection Hp as <-.
  - intros i n p Hi Hn Hp. destruct (decide (i = S (_nodesCount T))) as [->|Hne].
    + rewrite Hnew in Hn. injection Hn as <-. rewrite Hplast in Hp.
      injection Hp as <-. exists x, c, q. simpl.
      apply lookup_lt_Some in Hc as Hclt.
      split_and!; try done; try lia.
      * rewrite cnt_prefix_extend, decide_True, (cnt_prefix_0 _ _ F2) by done.
        done.
      * by rewrite lookup_app_l by lia.
    + destruct (Hnold _ _ Hn Hne) as [n0 Hn0]. rewrite (Hold _ _ Hn0) in Hn.
      injection Hn as <-. apply Hpold in Hp; [|done].
      destruct (inv_node _ _ _ Hinv i n0 p Hi Hn0 Hp)
        as (z & k & r & -> & ? & Hcz & ? & ? & Hk & ?).
      exists z, k, r. simpl. split_and!; try done.
      * rewrite cnt_prefix_extend, decide_False, Nat.add_0_r; [done|].
        intros Heq. apply F1. rewrite <-Heq. by eapply list_elem_of_lookup_2.
      * rewrite lookup_app_l; [done|]. by eapply lookup_lt_Some.
  - apply NoDup_app. split_and!; [apply Hinv| |apply NoDup_singleton].
    intros p Hp ->%list_elem_of_singleton. by apply F1.
  - intros i n p Hn Hp. destruct (decide (i = S (_nodesCount T))) as [->|Hne].
    + rewrite Hnew in Hn. injection Hn as <-. rewrite Hplast in Hp.
      injection Hp as <-. split; [constructor|]. simpl. intros k j.
      split; [intros ?%elem_of_nil; done|]. intros (x' & -> & Hj). exfalso.
      destruct (decide (j = S (_nodesCount T))) as [->|Hnej].
      * rewrite Hplast in Hj. injection Hj as Heq.
        apply (f_equal length) in Heq. rewrite !length_app in Heq.
        simpl in Heq. lia.
      * apply Hpold in Hj; [|done]. apply (F3 ((q ++ [x]) ++ [x'])).
        -- by eapply list_elem_of_lookup_2.
        -- by apply prefix_app_r.
    + destruct (Hnold _ _ Hn Hne) as [n0 Hn0]. rewrite (Hold _ _ Hn0) in Hn.
      injection Hn as <-. apply Hpold in Hp; [|done].
      destruct (inv_children _ _ _ Hinv i n0 p Hn0 Hp) as [Hnd0 Hch0].
      unfold children_ok. simpl. destruct (decide (i = c)) as [->|Hic].
      * rewrite Hcn in Hn0. injection Hn0 as <-. rewrite Hc in Hp.
        injection Hp as <-. split.
        -- rewrite fmap_app. apply NoDup_app.
           split_and!; [done| |apply NoDup_singleton].
           intros k Hk ->%list_elem_of_singleton. by apply dict_get_None in Hs.
        -- intros k j. rewrite elem_of_app, list_elem_of_singleton, Hch. split.
           ++ intros [(x' & -> & Hj) | [= -> ->]].
              ** exists x'. split; [done|]. rewrite lookup_app_l; [done|].
                 by eapply lookup_lt_Some.
              ** by exists x.
           ++ intros (x' & -> & Hj).
              destruct (decide (j = S (_nodesCount T))) as [->|Hnej].
              ** right. rewrite Hplast in Hj. injection Hj as Heq.
                 by apply app_inj_tail in Heq as [_ ->].
              ** left. exists x'. split; [done|]. by apply Hpold.
      * split; [done|]. intros k j. rewrite Hch0.
        split; intros (x' & -> & Hj); exists x'; (split; [done|]).
        -- rewrite lookup_app_l; [done|]. by eapply lookup_lt_Some.
        -- destruct (decide (j = S (_nodesCount T))) as [->|Hnej];
             [|by apply Hpold].
           rewrite Hplast in Hj. injection Hj as Heq.
           apply app_inj_tail in Heq as [-> _]. destruct Hic.
           by eapply (lookup_paths_inj _ _ _ i c).
  - intros t r [Ht| ->%list_elem_of_singleton]%elem_of_app Hr.
    + apply elem_of_app. left. apply (inv_closed _ _ _ Hinv t r); [|done].
      apply elem_of_app. by left.
    + apply elem_of_app. apply prefix_snoc_iff in Hr as [Hr| ->].
      * left. apply (inv_closed _ _ _ Hinv q r); [|done].
        apply elem_of_app. right. by left.
      * right. by left.
  - intros p [Hp| ->%list_elem_of_singleton]%elem_of_app Hne.
    + destruct (inv_used _ _ _ Hinv p Hp Hne) as (t & Ht & Hpt).
      apply elem_of_app in Ht as [Ht| ->%list_elem_of_singleton].
      * exists t. split; [|done]. apply elem_of_app. by left.
      * exists (q ++ [x]). split; [|by apply prefix_app_r].
        apply elem_of_app. right. by left.
    + exists (q ++ [x]). split; [|done]. apply elem_of_app. right. by left.
  - intros y. rewrite occ_snoc, last_snoc, Hhdr.
    pose proof (inv_header _ _ _ Hinv y) as Hco.
    destruct (decide (Some x = Some y)) as [[= <-]|Hxy].
    + rewrite lookup_insert_eq.
      destruct (occ paths x) as [|a L] eqn:Hocc; simpl in Hco.
      * rewrite Hco. simpl. exists (S (_nodesCount T)).
        rewrite Hplen. by split_and!.
      * destruct Hco as (b & Hlast & Hh & HL). rewrite Hh. simpl.
        exists (S (_nodesCount T)). split_and!.
        -- rewrite Hplen. apply (last_snoc _ (a :: L)).
        -- done.
        -- rewrite Hplen. apply (linked_snoc T T' a L b); try done.
           ++ rewrite <-Hocc. apply NoDup_occ.
           ++ assert (b ∈ occ paths x) as Hb
                by (rewrite Hocc; by apply last_Some_elem_of).
              apply elem_of_occ in Hb as (p & Hp & _).
              destruct (proj1 (tree_inv_lookup _ _ _ b Hinv)) as [bn Hbn];
                [by eexists|].
              unfold nb. rewrite (Hold _ _ Hbn), Hh. simpl.
              by rewrite decide_True.
           ++ intros i Hi Hib. apply Hnb_old.
              ** rewrite <-Hocc in Hi. apply elem_of_occ in Hi as (p & Hp & _).
                 by eapply lookup_lt_Some.
              ** intros ht. rewrite Hh. by intros [= <-].
    + rewrite lookup_insert_ne, app_nil_r by done.
      eapply chain_ok_ext; [|done]. intros i Hi. apply Hnb_old.
      * apply elem_of_occ in Hi as (p & Hp & _). by eapply lookup_lt_Some.
      * intros ht Hh Heq. apply Htail in Hh. rewrite <-Heq in Hh.
        apply elem_of_occ in Hi as (p & Hp & Hl).
        apply elem_of_occ in Hh as (p' & Hp' & Hl'). congruence.
  - rewrite Hhdr, lookup_insert_ne by done. apply Hinv.
Qed.

Lemma addTransaction_loop_inv ps rest : ∀ q paths T c,
  tree_inv (ps ++ [q]) paths T → paths !! c = Some q →
  ∃ T' paths', addTransaction_loop T c rest = Ok T' ∧
               tree_inv (ps ++ [q ++ rest]) paths' T'.
Proof.
  induction rest as [|x rest IH]; intros q paths T c Hinv Hc; simpl.
  - exists T, paths. by rewrite app_nil_r.
  - destruct (proj1 (tree_inv_lookup _ _ _ c Hinv)) as [cn Hcn]; [by eexists|].
    destruct (searchChildren cn x) as [j|] eqn:Hs.
    + destruct (step_existing _ _ _ _ _ _ _ _ Hinv Hc Hcn Hs)
        as (T1 & -> & Hinv1 & Hj).
      destruct (IH _ _ _ _ Hinv1 Hj) as (T' & paths' & -> & Hinv').
      exists T', paths'. by rewrite <-app_assoc in Hinv'.
    + destruct (step_new _ _ _ _ _ _ _ Hinv Hc Hcn Hs)
        as (T1 & -> & Hinv1 & Hj).
      destruct (IH _ _ _ _ Hinv1 Hj) as (T' & paths' & -> & Hinv').
      exists T', paths'. by rewrite <-app_assoc in Hinv'.
Qed.

Lemma addTransaction_inv ps paths T t :
  tree_inv ps paths T →
  ∃ T' paths', addTransaction T t = Ok T' ∧ tree_inv (ps ++ [t]) paths' T'.
Proof.
  intros Hinv. unfold addTransaction. rewrite (inv_root _ _ _ Hinv).
  apply (addTransaction_loop_inv ps t [] paths T 0%nat).
  - by apply tree_inv_open.
  - apply Hinv.
Qed.

Lemma buildFPTree_loop_inv txs : ∀ ps paths T,
  tree_inv ps paths T →
  ∃ T' paths', buildFPTree_loop T txs = Ok T' ∧ tree_inv (ps ++ txs) paths' T'.
Proof.
  induction txs as [|t txs IH]; intros ps paths T Hinv; simpl.
  - exists T, paths. by rewrite app_nil_r.
  - destruct (addTransaction_inv _ _ _ t Hinv) as (T1 & paths1 & -> & Hinv1).
    destruct (IH _ _ _ Hinv1) as (T' & paths' & -> & Hinv').
    exists T', paths'. by rewrite <-app_assoc in Hinv'.
Qed.

(** [buildFPTree] never fails, and its tree represents the transactions. *)
Lemma buildFPTree_inv txs :
  ∃ T paths, buildFPTree txs = Ok T ∧ tree_inv txs paths T.
Proof. apply (buildFPTree_loop_inv txs [] [[]]), tree_inv_init. Qed.

(** ** Canonical sequences *)

Lemma index_rank (itemsOrder : list Item) x :
  index itemsOrder x =
    match rank itemsOrder x with Some i => Ok i | None => Raise ValueError end.
Proof. done. Qed.

Lemma rank_is_Some (itemsOrder : list Item) x :
  x ∈ itemsOrder → is_Some (rank itemsOrder x).
Proof. apply index_from_is_Some. Qed.

Lemma precedes_ne itemsOrder a b : precedes itemsOrder a b → a ≠ b.
Proof. intros (i & j & Hi & Hj & Hlt) ->. rewrite Hi in Hj. injection Hj. lia. Qed.

Lemma precedes_asym itemsOrder a b :
  precedes itemsOrder a b → ¬ precedes itemsOrder b a.
Proof.
  intros (i & j & Hi & Hj & Hlt) (j' & i' & Hj' & Hi' & Hlt').
  rewrite Hi in Hi'. rewrite Hj in Hj'. simplify_eq. lia.
Qed.

Lemma canonical_app itemsOrder l1 l2 :
  canonical itemsOrder (l1 ++ l2) →
  canonical itemsOrder l1 ∧ canonical itemsOrder l2 ∧
  ∀ a b, a ∈ l1 → b ∈ l2 → precedes itemsOrder a b.
Proof.
  intros [Hs Hf]. apply StronglySorted_app in Hs as (H12 & H1 & H2).
  apply Forall_app in Hf as [Hf1 Hf2]. by repeat split.
Qed.

Lemma canonical_prefix itemsOrder p t :
  canonical itemsOrder t → p `prefix_of` t → canonical itemsOrder p.
Proof. intros Hc [k ->]. by apply canonical_app in Hc as [? _]. Qed.

Lemma canonical_NoDup itemsOrder l : canonical itemsOrder l → NoDup l.
Proof.
  intros [Hs _]. induction Hs as [|a l Hs IH Hall]; constructor; [|done].
  intros Hin. rewrite Forall_forall in Hall. by apply Hall, precedes_ne in Hin.
Qed.

Lemma canonical_elem itemsOrder l x :
  canonical itemsOrder l → x ∈ l → x ∈ itemsOrder.
Proof. intros [_ Hf]. rewrite Forall_forall in Hf. apply Hf. Qed.

Lemma paths_canonical txs paths T itemsOrder p :
  tree_inv txs paths T → Forall (canonical itemsOrder) txs →
  p ∈ paths → canonical itemsOrder p.
Proof.
  intros Hinv Htx Hp. destruct (decide (p = [])) as [->|Hne].
  - split; constructor.
  - destruct (inv_used _ _ _ Hinv p Hp Hne) as (t & Ht & Hpt).
    rewrite Forall_forall in Htx. eapply canonical_prefix; eauto.
Qed.

(** ** checkPath on a represented tree *)

Section Support.

Context (txs paths : list (list Item)) (T : FPTree) (itemsOrder : list Item).
Context (Hinv : tree_inv txs paths T).
Context (Htxs : Forall (canonical itemsOrder) txs).

(** The ancestor walk from [y] finds [x] exactly when [x] is on the path
    of [y]. *)
Lemma checkPath_while_spec itemList i x :
  itemList !! i = Some x → x ∈ itemsOrder →
  ∀ fuel y q, paths !! y = Some q → (y < fuel)%nat →
  checkPath_while fuel itemList (Z.of_nat i) (Some y) T itemsOrder
    = Ok (bool_decide (x ∈ q)).
Proof.
  intros Hx Hxo. induction fuel as [|fuel IH]; intros y q Hq Hy; [lia|].
  simpl. rewrite (inv_root _ _ _ Hinv).
  destruct (decide (Some y = Some 0%nat)) as [[= ->]|Hy0].
  - rewrite (inv_p0 _ _ _ Hinv) in Hq. injection Hq as <-.
    rewrite bool_decide_eq_false_2; [done|]. apply not_elem_of_nil.
  - assert (0 < y)%nat as Hpos by (destruct y; [done|lia]).
    destruct (proj1 (tree_inv_lookup _ _ _ y Hinv)) as [n Hn]; [by eexists|].
    destruct (inv_node _ _ _ Hinv y n q Hpos Hn Hq)
      as (z & j & q0 & -> & Hitem & _ & Hpar & Hlt & Hj & _).
    unfold deref. rewrite Hn, getitem_nat, Hx, Hitem.
    destruct (decide (Some z = Some x)) as [[= ->]|Hzx].
    + rewrite bool_decide_eq_true_2; [done|]. apply elem_of_app. right. left.
    + assert (canonical itemsOrder (q0 ++ [z])) as Hcan.
      { eapply paths_canonical; eauto. by eapply list_elem_of_lookup_2. }
      destruct (canonical_app _ _ _ Hcan) as (_ & Hcz & Hprec).
      assert (z ∈ itemsOrder) as Hzo
        by (eapply canonical_elem; [exact Hcz|left]).
      rewrite !index_rank.
      destruct (rank_is_Some _ _ Hzo) as [a Ha].
      destruct (rank_is_Some _ _ Hxo) as [b Hb]. rewrite Ha, Hb.
      destruct (Nat.ltb_spec a b) as [Hab|Hab].
      * rewrite bool_decide_eq_false_2; [done|].
        intros [Hin|Hin%list_elem_of_singleton]%elem_of_app; [|congruence].
        destruct (Hprec x z Hin) as (b' & a' & Hb' & Ha' & ?); [left|].
        rewrite Hb in Hb'. rewrite Ha in Ha'. simplify_eq. lia.
      * rewrite Hpar, (IH j q0 Hj) by lia. f_equal. apply bool_decide_ext.
        rewrite elem_of_app, list_elem_of_singleton. naive_solver.
Qed.

(** [checkPath] at index [m - 1] tells whether the path to the parent of
    [X] holds one of the first [m] items of the itemset. *)
Lemma checkPath_rec_spec itemList X xn j q fuel :
  _nodes T !! X = Some xn → _parent xn = Some j → paths !! j = Some q →
  (_nodesCount T < fuel)%nat →
  ∀ m, (m ≤ length itemList)%nat →
       Forall (λ x, x ∈ itemsOrder) (take m itemList) →
       checkPath_rec fuel m itemList X T itemsOrder
         = Ok (bool_decide (contains_any (take m itemList) q)).
Proof.
  intros HX Hpar Hq Hfuel. induction m as [|m IH]; intros Hm Hall.
  - reflexivity.
  - cbn [checkPath_rec].
    destruct (lookup_lt_is_Some_2 itemList m) as [x Hx]; [lia|].
    rewrite (take_S_r _ _ _ Hx) in Hall |- *.
    apply Forall_app in Hall as [Hall Hxo].
    apply (proj1 (Forall_singleton _ _)) in Hxo.
    unfold deref. rewrite HX, Hpar.
    rewrite (checkPath_while_spec itemList m x Hx Hxo fuel j q Hq).
    2:{ apply lookup_lt_Some in Hq. rewrite (inv_plen _ _ _ Hinv) in Hq. lia. }
    unfold contains_any. destruct (decide (x ∈ q)) as [Hin|Hin].
    + rewrite bool_decide_eq_true_2 by done.
      rewrite bool_decide_eq_true_2; [done|].
      apply Exists_app. right. by constructor.
    + rewrite bool_decide_eq_false_2 by done.
      rewrite IH by (done || lia). f_equal. apply bool_decide_ext.
      rewrite Exists_app, Exists_cons, Exists_nil. unfold contains_any.
      naive_solver.
Qed.

Lemma sumZ_app l1 l2 : sumZ (l1 ++ l2) = sumZ l1 + sumZ l2.
Proof. induction l1 as [|a l1 IH]; simpl; lia. Qed.

Lemma sumZ_zero {A : Type} (f : A → Z) L :
  (∀ i, i ∈ L → f i = 0) → sumZ (f <$> L) = 0.
Proof.
  induction L as [|a L IH]; intros Hf; [done|].
  rewrite fmap_cons. cbn [sumZ].
  rewrite Hf by left. rewrite IH; [done|]. intros. apply Hf. by right.
Qed.

Lemma sumZ_single {A : Type} (f : A → Z) L i0 :
  NoDup L → i0 ∈ L → (∀ i, i ∈ L → i ≠ i0 → f i = 0) →
  sumZ (f <$> L) = f i0.
Proof.
  induction L as [|a L IH]; intros Hnd Hin Hf; [by apply elem_of_nil in Hin|].
  apply NoDup_cons in Hnd as [Ha Hnd]. rewrite fmap_cons. cbn [sumZ].
  apply elem_of_cons in Hin as [->|Hin].
  - rewrite sumZ_zero; [lia|]. intros i Hi. apply Hf; [by right|].
    intros ->. done.
  - rewrite Hf, IH; [done..| |left|].
    + intros. apply Hf; [by right|done].
    + intros ->. done.
Qed.

Lemma sumZ_add {A : Type} (f g : A → Z) L :
  sumZ ((λ i, f i + g i) <$> L) = sumZ (f <$> L) + sumZ (g <$> L).
Proof.
  induction L as [|a L IH]; [done|]. rewrite !fmap_cons. cbn [sumZ]. lia.
Qed.

Lemma contains_any_snoc S' x (t : list Item) :
  contains_any (S' ++ [x]) t ↔ contains_any S' t ∨ x ∈ t.
Proof.
  unfold contains_any. rewrite Exists_app, Exists_cons, Exists_nil. tauto.
Qed.

Lemma contains_any_mono S' (p t : list Item) :
  p `prefix_of` t → contains_any S' p → contains_any S' t.
Proof.
  intros [k ->]. unfold contains_any. rewrite !Exists_exists.
  intros (s & ? & ?). exists s. split; [done|]. apply elem_of_app. by left.
Qed.

(** Every transaction with [x] and no item of [S'] is counted at exactly one
    node of the chain of [x]: the node of its prefix that ends in [x]. *)
Lemma chain_sum S' x :
  (∀ s, s ∈ S' → precedes itemsOrder s x) →
  ∀ ts, (∀ t, t ∈ ts → t ∈ txs) →
  sumZ (weight paths ts S' <$> occ paths x)
    = Z.of_nat (length (filter (λ t, x ∈ t ∧ ¬ contains_any S' t) ts)).
Proof.
  intros Hprec. induction ts as [|t ts IH]; intros Hsub.
  - simpl. apply sumZ_zero. intros i _. unfold weight.
    destruct (paths !! i); [|done]. by case_decide.
  - set (ind := λ i, match paths !! i with
                     | Some p => if decide (contains_any S' p) then 0
                                 else if decide (p `prefix_of` t) then 1 else 0
                     | None => 0
                     end).
    assert (∀ i, weight paths (t :: ts) S' i = ind i + weight paths ts S' i) as Hw.
    { intros i. unfold weight, ind. destruct (paths !! i) as [p|]; [|done].
      case_decide; [done|]. unfold cnt_prefix. rewrite filter_cons.
      case_decide; simpl; lia. }
    rewrite (list_fmap_ext _ (λ i, ind i + weight paths ts S' i) _ (λ _ i _, Hw i)).
    rewrite sumZ_add.
    rewrite IH by (intros; apply Hsub; by right).
    rewrite filter_cons.
    assert (t ∈ txs) as Ht by (apply Hsub; left).
    assert (canonical itemsOrder t) as Hct
      by (rewrite Forall_forall in Htxs; by apply Htxs).
    destruct (decide (x ∈ t)) as [Hxt|Hxt].
    + apply list_elem_of_split in Hxt as (t1 & t2 & ->).
      assert (t1 ++ [x] ∈ paths) as [i0 Hi0]%list_elem_of_lookup.
      { apply (inv_closed _ _ _ Hinv (t1 ++ x :: t2)); [done|].
        exists t2. by rewrite <-app_assoc. }
      assert (i0 ∈ occ paths x) as Hocc0.
      { apply elem_of_occ. exists (t1 ++ [x]). by rewrite last_snoc. }
      rewrite (sumZ_single ind _ i0 (NoDup_occ _ _) Hocc0).
      * unfold ind. rewrite Hi0.
        rewrite (decide_True (P := _ `prefix_of` _))
          by (exists t2; by rewrite <-app_assoc).
        assert (contains_any S' (t1 ++ [x]) ↔ contains_any S' (t1 ++ x :: t2))
          as Hiff.
        { split.
          - apply contains_any_mono. exists t2. by rewrite <-app_assoc.
          - unfold contains_any. rewrite !Exists_exists.
            intros (s & Hs & Hin). exists s. split; [done|].
            apply elem_of_app in Hin as [Hin|Hin]; [apply elem_of_app; by left|].
            apply elem_of_cons in Hin as [->|Hin];
              [apply elem_of_app; right; left|].
            exfalso. apply (precedes_asym itemsOrder s x (Hprec s Hs)).
            apply canonical_app in Hct as (_ & Hct & _).
            destruct Hct as [Hst _].
            apply StronglySorted_cons in Hst as [Hall _].
            rewrite Forall_forall in Hall. by apply Hall. }
        destruct (decide (contains_any S' (t1 ++ [x]))) as [Hc|Hc].
        -- rewrite decide_False by tauto. simpl. lia.
        -- rewrite decide_True; [simpl; lia|]. split; [|tauto].
           apply elem_of_app. right. left.
      * intros i Hi Hne. unfold ind.
        apply elem_of_occ in Hi as (p & Hp & Hl). rewrite Hp.
        case_decide; [done|]. rewrite decide_False; [done|].
        intros Hpre. apply Hne.
        apply last_Some in Hl as [r ->].
        assert (r = t1) as ->; [|by eapply (lookup_paths_inj _ _ _ i i0)].
        destruct Hpre as [k Hk]. rewrite <-app_assoc in Hk. simpl in Hk.
        apply canonical_NoDup in Hct.
        assert ((x ∉ t1) ∧ (x ∉ t2)) as [Hx1 Hx2].
        { apply NoDup_app in Hct as (_ & Hd & Hn2).
          apply NoDup_cons in Hn2 as [? _]. split; [|done].
          intros ?. by apply (Hd x); [|left]. }
        assert (x ∉ r) as Hxr.
        { rewrite Hk in Hct. apply NoDup_app in Hct as (_ & Hd & _).
          intros ?. by apply (Hd x); [|left]. }
        by destruct (not_elem_of_app_cons_inv_l x x t1 t2 r k Hxr Hx1 Hk)
          as (-> & _).
    + rewrite decide_False by tauto.
      rewrite sumZ_zero; [lia|]. intros i Hi. unfold ind.
      apply elem_of_occ in Hi as (p & Hp & Hl). rewrite Hp.
      case_decide; [done|]. rewrite decide_False; [done|].
      intros [k ->]. apply Hxt. apply elem_of_app. left.
      by apply last_Some_elem_of.
Qed.

Lemma or_support_nil ts : or_support [] ts = 0.
Proof.
  unfold or_support. induction ts as [|t ts IH]; [done|].
  rewrite filter_cons, decide_False; [done|].
  unfold contains_any. intros Hex. by apply Exists_nil in Hex.
Qed.

Lemma or_support_snoc S' x ts :
  or_support (S' ++ [x]) ts
    = or_support S' ts
      + Z.of_nat (length (filter (λ t, x ∈ t ∧ ¬ contains_any S' t) ts)).
Proof.
  unfold or_support. induction ts as [|t ts IH]; [done|].
  rewrite !filter_cons.
  destruct (decide (contains_any S' t)) as [Hc|Hc].
  - rewrite decide_True by (apply contains_any_snoc; by left).
    rewrite decide_False by tauto. simpl length. lia.
  - destruct (decide (x ∈ t)) as [Hx|Hx].
    + rewrite decide_True by (apply contains_any_snoc; by right).
      rewrite decide_True by done. simpl length. lia.
    + rewrite decide_False by (rewrite contains_any_snoc; tauto).
      rewrite decide_False by tauto. lia.
Qed.

(** ** The header table of a represented tree *)

Lemma header_chain x ht :
  _header T !! Some x = Some ht →
  ∃ L, occ paths x = ht.1 :: L ∧ linked T ht.1 L.
Proof.
  intros Hh. pose proof (inv_header _ _ _ Hinv x) as Hco. rewrite Hh in Hco.
  destruct (occ paths x) as [|a L]; simpl in Hco; [done|].
  destruct Hco as (b & _ & [= ->] & HL). by exists L.
Qed.

Lemma header_is_Some x :
  is_Some (_header T !! Some x) ↔ ∃ t, t ∈ txs ∧ x ∈ t.
Proof.
  split.
  - intros [ht Hh]. destruct (header_chain x ht Hh) as (L & Hocc & _).
    assert (ht.1 ∈ occ paths x) as Hin by (rewrite Hocc; left).
    apply elem_of_occ in Hin as (p & Hp & Hl).
    apply last_Some_elem_of in Hl as Hxp.
    destruct (inv_used _ _ _ Hinv p) as (t & Ht & [k ->]).
    + by eapply list_elem_of_lookup_2.
    + intros ->. by apply elem_of_nil in Hxp.
    + exists (p ++ k). split; [done|]. apply elem_of_app. by left.
  - intros (t & Ht & Hx). apply list_elem_of_split in Hx as (t1 & t2 & ->).
    assert (t1 ++ [x] ∈ paths) as [i Hi]%list_elem_of_lookup.
    { apply (inv_closed _ _ _ Hinv _ _ Ht). exists t2. by rewrite <-app_assoc. }
    assert (i ∈ occ paths x) as Hin.
    { apply elem_of_occ. exists (t1 ++ [x]). by rewrite last_snoc. }
    pose proof (inv_header _ _ _ Hinv x) as Hco.
    destruct (occ paths x) as [|a L]; [by apply elem_of_nil in Hin|].
    destruct Hco as (b & _ & -> & _). by eexists.
Qed.

Lemma occ_length x : (length (occ paths x) ≤ _nodesCount T)%nat.
Proof.
  unfold occ. rewrite (inv_plen _ _ _ Hinv). cbn [seq].
  rewrite filter_cons, decide_False.
  - etrans; [apply length_filter|]. by rewrite length_seq.
  - by rewrite (inv_p0 _ _ _ Hinv).
Qed.

(** ** findSupportByPrefixPath on a represented tree *)

Lemma findSupport_while_spec S k x fuel :
  S !! k = Some x → canonical itemsOrder S → (_nodesCount T < fuel)%nat →
  ∀ L a n support,
    linked T a L → (∀ i, i ∈ a :: L → i ∈ occ paths x) →
    (length L + 1 < n)%nat →
    findSupport_while n fuel S k (Some a) T itemsOrder support
      = Ok (support + sumZ (weight paths txs (take k S) <$> (a :: L))).
Proof.
  intros Hx HS Hfuel.
  assert (x ∉ take k S) as Hxk.
  { intros (i & Hi & Hlt)%elem_of_take.
    pose proof (NoDup_lookup _ _ _ _ (canonical_NoDup _ _ HS) Hi Hx). lia. }
  assert (Forall (λ y, y ∈ itemsOrder) (take k S)) as Hall.
  { apply Forall_forall. intros y (i & Hi & _)%elem_of_take.
    eapply canonical_elem; [done|]. by eapply list_elem_of_lookup_2. }
  assert (k ≤ length S)%nat as Hk by (apply lookup_lt_Some in Hx; lia).
  induction L as [|b L IH]; intros a n support HL Hocc Hn;
    (destruct n as [|n]; [lia|]); cbn [findSupport_while];
    (assert (a ∈ occ paths x) as (p & Hp & Hl)%elem_of_occ by (apply Hocc; left));
    (assert (0 < a)%nat as Hpos
       by (destruct a; [rewrite (inv_p0 _ _ _ Hinv) in Hp; by injection Hp as <-|lia]));
    (destruct (proj1 (tree_inv_lookup _ _ _ a Hinv)) as [xn Hxn]; [by eexists|]);
    destruct (inv_node _ _ _ Hinv a xn p Hpos Hxn Hp)
      as (x' & j & q & -> & _ & Hcnt & Hpar & _ & Hj & _);
    rewrite last_snoc in Hl; injection Hl as ->;
    unfold checkPath;
    replace (Z.to_nat (Z.of_nat k - 1 + 1)) with k by lia;
    rewrite (checkPath_rec_spec S a xn j q fuel Hxn Hpar Hj Hfuel k Hk Hall);
    unfold deref; rewrite Hxn, Hcnt;
    rewrite fmap_cons; cbn [sumZ]; unfold weight at 1; rewrite Hp;
    (assert (contains_any (take k S) (q ++ [x]) ↔ contains_any (take k S) q)
       as Hiff
       by (unfold contains_any; rewrite !Exists_exists;
           split; intros (s & Hs & Hin); exists s; (split; [done|]);
           [apply elem_of_app in Hin as [?| ->%list_elem_of_singleton]; done
           |apply elem_of_app; by left])).
  - simpl in HL. unfold nb in HL. rewrite Hxn in HL. injection HL as ->.
    destruct n as [|n]; [lia|]. cbn [findSupport_while sumZ fmap list_fmap].
    destruct (decide (contains_any (take k S) q)) as [Hc|Hc].
    + rewrite bool_decide_eq_true_2, decide_True by tauto. f_equal; lia.
    + rewrite bool_decide_eq_false_2, decide_False by tauto. f_equal; lia.
  - destruct HL as [Hnb HL]. unfold nb in Hnb. rewrite Hxn in Hnb.
    injection Hnb as ->.
    assert (∀ i, i ∈ b :: L → i ∈ occ paths x) as Hocc'
      by (intros; apply Hocc; by right).
    simpl in Hn.
    destruct (decide (contains_any (take k S) q)) as [Hc|Hc].
    + rewrite bool_decide_eq_true_2, decide_True by tauto.
      rewrite (IH b n _ HL Hocc') by lia. f_equal; lia.
    + rewrite bool_decide_eq_false_2, decide_False by tauto.
      rewrite (IH b n _ HL Hocc') by lia. f_equal; lia.
Qed.

Lemma findSupport_for_spec Is fuel :
  canonical itemsOrder Is → (_nodesCount T < fuel)%nat →
  ∀ m k support, (k + m ≤ length Is)%nat →
  findSupport_for fuel Is (seq k m) T itemsOrder support =
    if decide (Forall (λ x, is_Some (_header T !! Some x)) (take m (drop k Is)))
    then Ok (support + or_support (take (k + m) Is) txs
             - or_support (take k Is) txs)
    else Raise KeyError.
Proof.
  intros HS Hfuel. induction m as [|m IH]; intros k support Hkm.
  - simpl. rewrite Nat.add_0_r. f_equal. lia.
  - cbn [seq findSupport_for].
    destruct (lookup_lt_is_Some_2 Is k) as [x Hx]; [lia|].
    rewrite getitem_nat, Hx. rewrite (drop_S _ _ _ Hx). cbn [take].
    destruct (_header T !! Some x) as [ht|] eqn:Hh.
    + destruct (header_chain x ht Hh) as (L & Hocc & HL).
      rewrite (findSupport_while_spec Is k x fuel Hx HS Hfuel L).
      * rewrite IH by lia. rewrite <-Hocc.
        rewrite chain_sum; [|..|done].
        2:{ intros s Hs. rewrite <-(take_drop_middle _ _ _ Hx) in HS.
            apply canonical_app in HS as (_ & _ & Hprec).
            apply Hprec; [done|left]. }
        pose proof (or_support_snoc (take k Is) x txs) as Hstep.
        rewrite <-(take_S_r _ _ _ Hx) in Hstep.
        replace (S k + m)%nat with (k + S m)%nat by lia.
        destruct (decide (Forall _ (take m (drop (S k) Is)))) as [Hf|Hf].
        -- rewrite decide_True by (constructor; [by rewrite Hh|done]).
           f_equal. lia.
        -- rewrite decide_False; [done|]. by intros [_ ?]%Forall_cons.
      * done.
      * intros i Hi. by rewrite Hocc.
      * pose proof (occ_length x) as Hlen. rewrite Hocc in Hlen.
        simpl in Hlen. lia.
    + rewrite decide_False; [done|]. intros [Hs _]%Forall_cons.
      rewrite Hh in Hs. by destruct Hs.
Qed.

(** The prefix-path calculator on the tree of canonical transactions: the
    disjunctive support when every item of the itemset has a header entry,
    [KeyError] otherwise. *)
Lemma findSupportByPrefixPath_spec Is fuel :
  canonical itemsOrder Is → (_nodesCount T < fuel)%nat →
  findSupportByPrefixPath fuel Is T itemsOrder =
    if decide (Forall (λ x, is_Some (_header T !! Some x)) Is)
    then Ok (or_support Is txs)
    else Raise KeyError.
Proof.
  intros HS Hfuel. unfold findSupportByPrefixPath.
  rewrite (findSupport_for_spec Is fuel HS Hfuel) by (simpl; lia).
  rewrite drop_0, firstn_all. simpl. rewrite firstn_all.
  case_decide; [|done]. rewrite or_support_nil. f_equal. lia.
Qed.

End Support.

(** ** The children of a node split the transactions below it *)

Section Partition.

Context (txs paths : list (list Item)) (T : FPTree).
Context (Hinv : tree_inv txs paths T).
Context (Q : list Item → Prop) `{!∀ t, Decision (Q t)}.

Lemma NoDup_dict_values {K V : Type} (d : list (K * V)) :
  NoDup d.*1 → (∀ k1 k2 v, (k1, v) ∈ d → (k2, v) ∈ d → k1 = k2) → NoDup d.*2.
Proof.
  induction d as [|[k v] d IH]; simpl; intros Hnd Hinj; [constructor|].
  apply NoDup_cons in Hnd as [Hk Hnd]. constructor.
  - intros [[k' v'] [Heq Hin]]%list_elem_of_fmap. simpl in Heq. subst v'.
    apply Hk. assert (k = k') as -> by (apply (Hinj k k' v); [left|by right]).
    apply list_elem_of_fmap. by exists (k', v).
  - apply IH; [done|]. intros k1 k2 v' ??. apply (Hinj k1 k2 v'); by right.
Qed.

Lemma children_paths src sn p c :
  _nodes T !! src = Some sn → paths !! src = Some p →
  c ∈ children sn ↔ ∃ z, paths !! c = Some (p ++ [z]).
Proof.
  intros Hsn Hp. destruct (inv_children _ _ _ Hinv src sn p Hsn Hp) as [_ Hch].
  unfold children. rewrite list_elem_of_fmap. split.
  - intros ([k c'] & -> & Hin). apply Hch in Hin as (z & _ & ?). by exists z.
  - intros (z & Hz). exists (Some z, c). split; [done|]. apply Hch. by exists z.
Qed.

Lemma NoDup_children src sn p :
  _nodes T !! src = Some sn → paths !! src = Some p → NoDup (children sn).
Proof.
  intros Hsn Hp. destruct (inv_children _ _ _ Hinv src sn p Hsn Hp) as [Hnd Hch].
  apply NoDup_dict_values; [done|]. intros k1 k2 c H1 H2.
  apply Hch in H1 as (z1 & -> & Hz1). apply Hch in H2 as (z2 & -> & Hz2).
  rewrite Hz1 in Hz2. injection Hz2 as Heq.
  by apply app_inj_tail in Heq as [_ ->].
Qed.

Lemma children_partition src sn p :
  _nodes T !! src = Some sn → paths !! src = Some p →
  ∀ ts, (∀ t, t ∈ ts → t ∈ txs) →
  sumZ (under paths Q ts <$> children sn)
    = Z.of_nat (length (filter (λ t, p `prefix_of` t ∧ t ≠ p ∧ Q t) ts)).
Proof.
  intros Hsn Hp. induction ts as [|t ts IH]; intros Hsub.
  - simpl. apply sumZ_zero. intros c _. unfold under. by destruct (paths !! c).
  - set (ind := λ c, match paths !! c with
                     | Some pc => if decide (pc `prefix_of` t ∧ Q t) then 1 else 0
                     | None => 0
                     end).
    assert (∀ c, under paths Q (t :: ts) c = ind c + under paths Q ts c) as Hu.
    { intros c. unfold under, ind. destruct (paths !! c) as [pc|]; [|done].
      rewrite filter_cons. case_decide; simpl; lia. }
    rewrite (list_fmap_ext _ (λ c, ind c + under paths Q ts c) _ (λ _ c _, Hu c)).
    rewrite sumZ_add, IH by (intros; apply Hsub; by right).
    rewrite filter_cons.
    assert (t ∈ txs) as Ht by (apply Hsub; left).
    destruct (decide (p `prefix_of` t ∧ t ≠ p)) as [[[k ->] Hne]|Hno].
    + destruct k as [|z k]; [by rewrite app_nil_r in Hne|].
      assert (p ++ [z] ∈ paths) as [c0 Hc0]%list_elem_of_lookup.
      { apply (inv_closed _ _ _ Hinv _ _ Ht). exists k. by rewrite <-app_assoc. }
      assert (c0 ∈ children sn) as Hin
        by (apply (children_paths src sn p); eauto).
      rewrite (sumZ_single ind _ c0 (NoDup_children _ _ _ Hsn Hp) Hin).
      * unfold ind. rewrite Hc0.
        assert (p ++ [z] `prefix_of` p ++ z :: k) as Hpre
          by (exists k; by rewrite <-app_assoc).
        destruct (decide (Q (p ++ z :: k))) as [HQ|HQ].
        -- rewrite !decide_True by (split_and!; done || by apply prefix_app_r).
           simpl length. lia.
        -- rewrite !decide_False by tauto. lia.
      * intros c Hc Hcne. unfold ind.
        apply (children_paths src sn p) in Hc as [z' Hz']; [|done..].
        rewrite Hz'. rewrite decide_False; [done|].
        intros [[k' Hk'] _]. rewrite <-app_assoc in Hk'.
        apply app_inv_head in Hk'. injection Hk' as -> _.
        apply Hcne. by eapply (lookup_paths_inj _ _ _ c c0).
    + rewrite decide_False by tauto.
      rewrite sumZ_zero; [lia|]. intros c Hc. unfold ind.
      apply (children_paths src sn p) in Hc as [z' Hz']; [|done..].
      rewrite Hz'. rewrite decide_False; [done|].
      intros [[k' ->] _]. apply Hno. split.
      * exists ([z'] ++ k'). by rewrite app_assoc.
      * rewrite <-app_assoc. intros Heq.
        rewrite <-(app_nil_r p) in Heq at 2. by apply app_inv_head in Heq.
Qed.

End Partition.

(** ** findSupportByBFS on a represented tree *)

Section BFS.

Context (txs paths : list (list Item)) (T : FPTree) (Is : list Item).
Context (Hinv : tree_inv txs paths T).

Lemma BFS_match_spec nn z cnt support :
  _item nn = Some z → _count nn = Some cnt →
  ∀ l, BFS_match l nn support =
         Ok (if decide (z ∈ l) then (support + cnt, true) else (support, false)).
Proof.
  intros Hz Hc. induction l as [|a l IH]; cbn [BFS_match].
  - rewrite decide_False; [done|]. apply not_elem_of_nil.
  - rewrite Hz, Hc. destruct (decide (Some a = Some z)) as [[= ->]|Hne].
    + rewrite decide_True; [done|left].
    + rewrite IH. destruct (decide (z ∈ l)) as [Hin|Hin].
      * rewrite decide_True; [done|by right].
      * rewrite decide_False; [done|].
        intros [->|?]%elem_of_cons; [by destruct Hne|done].
Qed.

Lemma unvisited_insert vis c :
  vis !! c = Some false →
  (unvisited (<[c:=true]> vis) + 1 = unvisited vis)%nat.
Proof.
  unfold unvisited. revert c. induction vis as [|b vis IH]; intros c; [done|].
  destruct c as [|c]; simpl.
  - intros [= ->]. rewrite !filter_cons. simpl. lia.
  - intros Hc. rewrite !filter_cons. specialize (IH c Hc).
    case_decide; simpl; lia.
Qed.

Lemma sumZ_filter_split {A : Type} (f : A → Z) (b : A → bool) l :
  sumZ (f <$> l) = sumZ (f <$> filter (λ c, b c = true) l)
                   + sumZ (f <$> filter (λ c, b c = false) l).
Proof.
  induction l as [|a l IH]; [done|].
  rewrite !filter_cons, fmap_cons. cbn [sumZ]. rewrite IH.
  destruct (b a) eqn:Hb.
  - rewrite decide_True, decide_False by done. rewrite fmap_cons. cbn [sumZ]. lia.
  - rewrite decide_False, decide_True by done. rewrite fmap_cons. cbn [sumZ]. lia.
Qed.

(** One pass over the children of a node whose path holds no item of the
    itemset: matching children are counted, the others are queued. *)
Lemma BFS_for_spec src sn p :
  _nodes T !! src = Some sn → paths !! src = Some p → ¬ contains_any Is p →
  ∀ cs q vis sup,
    NoDup cs → (∀ c, c ∈ cs → c ∈ children sn) →
    (∀ c, c ∈ cs → vis !! c = Some false) →
    ∃ vis',
      BFS_for Is T cs q vis sup
        = Ok (q ++ filter (λ c, hit_at paths Is c = false) cs, vis',
              sup + sumZ (under paths (contains_any Is) txs
                            <$> filter (λ c, hit_at paths Is c = true) cs)) ∧
      length vis' = length vis ∧
      (unvisited vis' + length (filter (λ c, hit_at paths Is c = false) cs)
         = unvisited vis)%nat ∧
      ∀ i, vis' !! i =
             if decide (i ∈ filter (λ c, hit_at paths Is c = false) cs)
             then Some true else vis !! i.
Proof.
  intros Hsn Hp Hnohit.
  induction cs as [|c cs IH]; intros q vis sup Hnd Hch Hvis.
  - exists vis. simpl. rewrite app_nil_r, Z.add_0_r, Nat.add_0_r.
    split_and!; done.
  - apply NoDup_cons in Hnd as [Hc Hnd].
    assert (c ∈ children sn) as Hcin by (apply Hch; left).
    apply (children_paths _ _ _ Hinv src sn p) in Hcin as [z Hz]; [|done..].
    destruct (proj1 (tree_inv_lookup _ _ _ c Hinv)) as [nn Hnn]; [by eexists|].
    assert (0 < c)%nat as Hpos.
    { destruct c; [|lia]. rewrite (inv_p0 _ _ _ Hinv) in Hz. by destruct p. }
    destruct (inv_node _ _ _ Hinv c nn _ Hpos Hnn Hz)
      as (z' & j & p' & Heq & Hitem & Hcnt & _ & _ & _ & Hid).
    apply app_inj_tail in Heq as [<- <-].
    assert (contains_any Is (p ++ [z]) ↔ z ∈ Is) as Hhit.
    { unfold contains_any in *. rewrite Exists_exists in *. split.
      - intros (s & Hs & [Hin| ->%list_elem_of_singleton]%elem_of_app); [|done].
        destruct Hnohit. eauto.
      - intros Hin. exists z. split; [done|]. apply elem_of_app. right. left. }
    cbn [BFS_for]. unfold deref. rewrite Hnn, Hid, (Hvis c) by left.
    rewrite (BFS_match_spec nn z _ sup Hitem Hcnt).
    assert (hit_at paths Is c = bool_decide (z ∈ Is)) as Hh
      by (unfold hit_at; rewrite Hz; by apply bool_decide_ext).
    rewrite !filter_cons, Hh.
    destruct (decide (z ∈ Is)) as [Hin|Hin].
    + rewrite bool_decide_eq_true_2 by tauto.
      rewrite decide_False, decide_True by done.
      destruct (IH q vis (sup + Z.of_nat (cnt_prefix (p ++ [z]) txs)) Hnd)
        as (vis' & -> & Hlen & Hunv & Hlook).
      { intros; apply Hch; by right. }
      { intros; apply Hvis; by right. }
      exists vis'. split_and!; try done.
      f_equal. f_equal. rewrite fmap_cons. cbn [sumZ]. unfold under at 2.
      rewrite Hz. unfold cnt_prefix.
      rewrite (filter_ext_in (λ t, p ++ [z] `prefix_of` t ∧ contains_any Is t)
                 (λ t, p ++ [z] `prefix_of` t)); [lia|].
      intros t _. split; [tauto|]. intros Hpre. split; [done|].
      eapply contains_any_mono; [done|]. tauto.
    + rewrite bool_decide_eq_false_2 by tauto.
      rewrite decide_True, decide_False by done.
      destruct (IH (q ++ [c]) (<[c:=true]> vis) sup Hnd)
        as (vis' & -> & Hlen & Hunv & Hlook).
      { intros; apply Hch; by right. }
      { intros c' Hc'. rewrite list_lookup_insert_ne by (intros ->; done).
        apply Hvis. by right. }
      exists vis'. rewrite <-app_assoc. split_and!; try done.
      * by rewrite Hlen, length_insert.
      * pose proof (unvisited_insert vis c (Hvis c ltac:(left))). simpl. lia.
      * intros i. rewrite Hlook.
        destruct (decide (i = c)) as [->|Hic].
        -- rewrite (decide_False (P := c ∈ filter _ cs))
             by (intros [_ ?]%list_elem_of_filter; done).
           rewrite decide_True by left.
           apply list_lookup_insert_eq. eapply lookup_lt_Some, Hvis. left.
        -- rewrite list_lookup_insert_ne by done. apply decide_ext.
           rewrite elem_of_cons. naive_solver.
Qed.

Lemma under_children src sn p :
  _nodes T !! src = Some sn → paths !! src = Some p → ¬ contains_any Is p →
  under paths (contains_any Is) txs src
    = sumZ (under paths (contains_any Is) txs <$> children sn).
Proof.
  intros Hsn Hp Hnohit.
  rewrite (children_partition _ _ _ Hinv _ src sn p Hsn Hp txs) by done.
  unfold under at 1. rewrite Hp. do 2 f_equal. apply filter_ext_in.
  intros t _. split; [|tauto]. intros [? ?]. split_and!; try done.
  by intros ->.
Qed.

Lemma BFS_while_spec : ∀ fuel q vis sup,
  bfs_inv paths T Is q vis → (length q + unvisited vis < fuel)%nat →
  BFS_while fuel Is T q vis sup
    = Ok (sup + sumZ (under paths (contains_any Is) txs <$> q)).
Proof.
  induction fuel as [|fuel IH]; intros q vis sup Hb Hfuel; [lia|].
  destruct q as [|src q]; [simpl; f_equal; lia|].
  cbn [BFS_while].
  destruct (bfs_queue _ _ _ _ _ Hb src) as (Hvsrc & p & Hp & Hnohit); [left|].
  destruct (proj1 (tree_inv_lookup _ _ _ src Hinv)) as [sn Hsn]; [by eexists|].
  pose proof (bfs_nodup _ _ _ _ _ Hb) as Hnd. apply NoDup_cons in Hnd as [Hsrc Hnd].
  assert (∀ c, c ∈ children sn → vis !! c = Some false) as Hfalse.
  { intros c [z Hz]%(children_paths _ _ _ Hinv src sn p); [|done..].
    destruct (lookup_lt_is_Some_2 vis c) as [[] Hb']; [| |done].
    - rewrite (bfs_len _ _ _ _ _ Hb), <-(inv_plen _ _ _ Hinv).
      by eapply lookup_lt_Some.
    - destruct (bfs_parent _ _ _ _ _ Hb c p z Hz Hb') as (j & Hj & _ & Hnotin).
      destruct Hnotin. rewrite (lookup_paths_inj _ _ _ j src p Hinv Hj Hp).
      left. }
  destruct (BFS_for_spec src sn p Hsn Hp Hnohit (children sn) q vis sup)
    as (vis' & Hfor & Hlen & Hunv & Hlook);
    [by eapply NoDup_children|done|done|].
  unfold deref. rewrite Hsn, Hfor.
  set (enq := filter (λ c, hit_at paths Is c = false) (children sn)) in *.
  assert (∀ c, c ∈ enq → vis !! c = Some false) as Henq.
  { intros c [_ ?]%list_elem_of_filter. by apply Hfalse. }
  assert (∀ j, vis !! j = Some true → vis' !! j = Some true) as Hkeep.
  { intros j Hj. rewrite Hlook. by case_decide. }
  assert (∀ j, vis !! j = Some true → j ∉ enq) as Hnotenq.
  { intros j Hj Hin. apply Henq in Hin. congruence. }
  rewrite IH.
  - f_equal. rewrite fmap_cons, fmap_app, sumZ_app. cbn [sumZ].
    rewrite (under_children src sn p Hsn Hp Hnohit).
    rewrite (sumZ_filter_split _ (hit_at paths Is) (children sn)). fold enq. lia.
  - split.
    + by rewrite Hlen, (bfs_len _ _ _ _ _ Hb).
    + intros j [Hj|Hj]%elem_of_app.
      * destruct (bfs_queue _ _ _ _ _ Hb j) as [Hvj Hpj]; [by right|]. split; auto.
      * split; [rewrite Hlook; by rewrite decide_True|].
        apply list_elem_of_filter in Hj as [Hhit Hj].
        apply (children_paths _ _ _ Hinv src sn p) in Hj as [z Hz]; [|done..].
        exists (p ++ [z]). split; [done|]. unfold hit_at in Hhit.
        rewrite Hz in Hhit. by apply bool_decide_eq_false in Hhit.
    + apply NoDup_app. split_and!; [done| |by apply NoDup_filter, (NoDup_children _ _ _ Hinv src sn p)].
      intros j Hj. apply Hnotenq.
      by destruct (bfs_queue _ _ _ _ _ Hb j) as [? _]; [right|].
    + intros c p0 x Hc Hvc. rewrite Hlook in Hvc.
      destruct (decide (c ∈ enq)) as [Hin|Hin].
      * apply list_elem_of_filter in Hin as [_ Hin].
        apply (children_paths _ _ _ Hinv src sn p) in Hin as [z Hz]; [|done..].
        rewrite Hz in Hc. injection Hc as Heq.
        apply app_inj_tail in Heq as [-> ->].
        exists src. split_and!; [done|by apply Hkeep|].
        intros [?|?]%elem_of_app; [done|]. by eapply Hnotenq.
      * destruct (bfs_parent _ _ _ _ _ Hb c p0 x Hc Hvc) as (j & Hj & Hvj & Hnotin).
        exists j. split_and!; [done|by apply Hkeep|].
        intros [?|?]%elem_of_app; [|by eapply Hnotenq].
        apply Hnotin. by right.
  - rewrite length_app. simpl in Hfuel. fold enq in Hunv. lia.
Qed.

(** The breadth-first calculator returns the disjunctive support, on the
    tree of any list of transactions. *)
Lemma findSupportByBFS_spec fuel :
  (_nodesCount T + 1 < fuel)%nat →
  findSupportByBFS fuel Is T = Ok (or_support Is txs).
Proof.
  intros Hfuel. unfold findSupportByBFS. rewrite (inv_root _ _ _ Hinv).
  rewrite BFS_while_spec.
  - f_equal. simpl. unfold under. rewrite (inv_p0 _ _ _ Hinv).
    unfold or_support.
    rewrite (filter_ext_in (λ t, [] `prefix_of` t ∧ contains_any Is t)
               (contains_any Is)); [lia|].
    intros t _. split; [tauto|]. intros ?. split; [|done]. apply prefix_nil.
  - split.
    + by rewrite length_insert, length_replicate, Nat.add_1_r.
    + intros j ->%list_elem_of_singleton. split.
      * rewrite Nat.add_1_r. done.
      * exists []. split; [apply Hinv|]. unfold contains_any.
        rewrite Exists_exists. intros (s & _ & ?%elem_of_nil). done.
    + apply NoDup_singleton.
    + intros c p x Hc Hvc. destruct c as [|c].
      * rewrite (inv_p0 _ _ _ Hinv) in Hc. by destruct p.
      * rewrite Nat.add_1_r in Hvc. simpl in Hvc.
        apply lookup_replicate in Hvc as [? _]. done.
  - rewrite Nat.add_1_r. simpl. unfold unvisited. simpl.
    rewrite filter_cons, decide_False by done.
    pose proof (length_filter (λ b, b = false) (replicate (_nodesCount T) false)).
    rewrite length_replicate in *. lia.
Qed.

End BFS.

(** ** The enumeration of generateItemsets *)

Lemma remove_first_length (x : Item) L r :
  remove_first x L = Some r → length L = S (length r).
Proof.
  revert r. induction L as [|y L IH]; simpl; intros r; [done|].
  case_decide; [by intros [= ->]|].
  destruct (remove_first x L) as [r'|]; [|done]. intros [= <-].
  simpl. f_equal. by apply IH.
Qed.

Lemma remove_first_lookup (x : Item) L i :
  NoDup L → L !! i = Some x →
  remove_first x L = Some (take i L ++ drop (S i) L).
Proof.
  revert i. induction L as [|y L IH]; intros i Hnd Hi; [done|].
  apply NoDup_cons in Hnd as [Hy Hnd]. destruct i as [|i]; simpl in *.
  - injection Hi as ->. by rewrite decide_True.
  - rewrite decide_False.
    + by rewrite (IH i Hnd Hi).
    + intros ->. apply Hy. by eapply list_elem_of_lookup_2.
Qed.

Lemma remove_first_subseteq (x : Item) L r :
  remove_first x L = Some r → r ⊆ L.
Proof.
  revert r. induction L as [|y L IH]; simpl; intros r; [done|].
  case_decide; [intros [= ->]; set_solver|].
  destruct (remove_first x L) as [r'|]; [|done]. intros [= <-].
  specialize (IH r' eq_refl). set_solver.
Qed.

Section Enumeration.

Context (fuel : nat) (minSupp : Z) (fpt : FPTree) (itemsOrder : list Item).

(** Every entry recorded while the candidate [L] is being reduced is a
    proper, non-empty part of [L], as long as [depth] is the size of [L]. *)
Lemma generateItemsets_lengths : ∀ n L depth freq r,
  depth = Z.of_nat (length L) →
  generateItemsets_while fuel n L 0 depth minSupp fpt itemsOrder freq = Ok r →
  ∃ new, r = freq ++ new ∧
         Forall (λ e : entry, (1 ≤ length e.1 < length L)%nat) new.
Proof.
  induction n as [|n IH]; intros L depth freq r Hd; cbn [generateItemsets_while].
  - intros [= <-]. exists []. by rewrite app_nil_r.
  - destruct (Z.eqb_spec depth (0 + 1)) as [_|Hne].
    { intros [= <-]. exists []. by rewrite app_nil_r. }
    destruct (getitem L (0 + Z.of_nat n)) as [x|] eqn:Hx; [|done].
    destruct (remove_first x L) as [newList|] eqn:Hrm; [|done].
    apply remove_first_length in Hrm as Hlen.
    destruct (findSupportByPrefixPath fuel newList fpt itemsOrder)
      as [val|]; [|done].
    assert (∀ new : list entry,
              Forall (λ e : entry, (1 ≤ length e.1 < length newList)%nat) new →
              Forall (λ e : entry, (1 ≤ length e.1 < length L)%nat) new) as Hweak.
    { intros new Hf. eapply Forall_impl; [exact Hf|]. intros e. simpl. lia. }
    destruct (Z.leb_spec minSupp val) as [_|_].
    + destruct (generateItemsets_while fuel n newList 0 (depth - 1) minSupp fpt
                  itemsOrder (freq ++ [(newList, val)])) as [freq'|] eqn:Hrec;
        [|done].
      intros Hrest.
      apply IH in Hrec as (new1 & -> & H1); [|lia].
      apply IH in Hrest as (new2 & -> & H2); [|done].
      exists ((newList, val) :: new1 ++ new2). split.
      * by rewrite <-!app_assoc.
      * constructor; [simpl; lia|]. apply Forall_app. split; [by apply Hweak|done].
    + intros Hrest. by apply IH in Hrest.
Qed.

(** With a duplicate-free candidate, the entries recorded by the loop at
    [n] are pairwise different: each keeps the items of [L] from position
    [n] on, and drops at least one item before it. *)
Lemma generateItemsets_distinct : ∀ n L depth freq r,
  NoDup L → (n ≤ length L)%nat →
  generateItemsets_while fuel n L 0 depth minSupp fpt itemsOrder freq = Ok r →
  ∃ new, r = freq ++ new ∧ NoDup new.*1 ∧
         Forall (λ e : entry, (length e.1 < length L)%nat ∧ e.1 ⊆ L ∧
                              drop n L ⊆ e.1) new.
Proof.
  induction n as [|n IH]; intros L depth freq r Hnd Hn;
    cbn [generateItemsets_while].
  - intros [= <-]. exists []. rewrite app_nil_r. split_and!; by constructor.
  - destruct (Z.eqb_spec depth (0 + 1)) as [_|Hne].
    { intros [= <-]. exists []. rewrite app_nil_r. split_and!; by constructor. }
    destruct (lookup_lt_is_Some_2 L n) as [x Hx]; [lia|].
    change (0 + Z.of_nat n) with (Z.of_nat n). rewrite getitem_nat, Hx.
    rewrite (remove_first_lookup x L n Hnd Hx).
    set (newList := take n L ++ drop (S n) L).
    assert (L = take n L ++ x :: drop (S n) L) as HL
      by (symmetry; by apply take_drop_middle).
    assert (length (take n L) = n) as Htake by (apply length_take_le; lia).
    assert (NoDup newList ∧ (x ∉ newList) ∧ (newList ⊆ L))
      as (Hnd' & Hx' & Hsub).
    { rewrite HL in Hnd. apply NoDup_app in Hnd as (Hn1 & Hd & Hn2).
      apply NoDup_cons in Hn2 as [Hx2 Hn2]. split_and!.
      - apply NoDup_app. split_and!; [done| |done].
        intros y Hy Hy'. apply (Hd y Hy). by right.
      - intros [Hin|Hin]%elem_of_app; [|done]. apply (Hd x Hin). left.
      - intros y Hy. rewrite HL.
        apply elem_of_app in Hy as [?|?]; set_solver. }
    assert (length newList = n + length (drop (S n) L))%nat as Hlen'
      by (unfold newList; rewrite length_app; lia).
    assert (length L = S (length newList)) as HlenL.
    { rewrite HL at 1. rewrite length_app. simpl. lia. }
    assert (drop n newList = drop (S n) L) as Hdrop.
    { unfold newList. by rewrite drop_app_length'. }
    assert (drop n L = x :: drop (S n) L) as HdropL by by apply drop_S.
    destruct (findSupportByPrefixPath fuel newList fpt itemsOrder)
      as [val|]; [|done].
    destruct (Z.leb_spec minSupp val) as [_|_].
    + destruct (generateItemsets_while fuel n newList 0 (depth - 1) minSupp fpt
                  itemsOrder (freq ++ [(newList, val)])) as [freq'|] eqn:Hrec;
        [|done].
      intros Hrest.
      apply IH in Hrec as (new1 & -> & Hnd1 & H1); [|done|lia].
      apply IH in Hrest as (new2 & -> & Hnd2 & H2); [|done|lia].
      rewrite Forall_forall in H1, H2.
      exists ((newList, val) :: new1 ++ new2). split; [by rewrite <-!app_assoc|].
      split.
      * rewrite fmap_cons, fmap_app. simpl. apply NoDup_cons. split.
        -- intros [Hin|Hin]%elem_of_app;
             apply list_elem_of_fmap in Hin as (e & Heq & He).
           ++ destruct (H1 e He) as (Hl & _). rewrite <-Heq in Hl. lia.
           ++ destruct (H2 e He) as (_ & _ & Hd). apply Hx'. rewrite Heq.
              apply Hd. rewrite HdropL. left.
        -- apply NoDup_app. split_and!; [done| |done].
           intros l Hl1 Hl2.
           apply list_elem_of_fmap in Hl1 as (e1 & -> & He1).
           apply list_elem_of_fmap in Hl2 as (e2 & Heq & He2).
           destruct (H1 e1 He1) as (_ & Hs1 & _).
           destruct (H2 e2 He2) as (_ & _ & Hd2).
           apply Hx'. apply Hs1. rewrite Heq. apply Hd2. rewrite HdropL. left.
      * apply Forall_forall. intros e [->|[He|He]%elem_of_app]%elem_of_cons.
        -- simpl. split_and!; [lia|done|]. unfold newList. set_solver.
        -- destruct (H1 e He) as (Hl & Hs & Hd). rewrite Hdrop in Hd.
           split_and!; [lia|set_solver|done].
        -- destruct (H2 e He) as (Hl & Hs & Hd). rewrite HdropL in Hd.
           split_and!; [done|done|set_solver].
    + intros Hrest.
      apply IH in Hrest as (new2 & -> & Hnd2 & H2); [|done|lia].
      exists new2. split_and!; [done..|].
      eapply Forall_impl; [exact H2|]. intros e (Hl & Hs & Hd).
      rewrite HdropL in Hd. split_and!; [done|done|set_solver].
Qed.

End Enumeration.

(** ** The item frequency orderer *)

Lemma dict_get_set {K V : Type} `{EqDecision K} (d : list (K * V)) k v k' :
  dict_get (dict_set d k v) k' = if decide (k = k') then Some v else dict_get d k'.
Proof.
  induction d as [|[k0 v0] d IH]; simpl.
  - by destruct (decide (k = k')).
  - destruct (decide (k0 = k)) as [->|Hne]; simpl.
    + by destruct (decide (k = k')).
    + rewrite IH. destruct (decide (k0 = k')) as [->|?]; [|done].
      by rewrite decide_False.
Qed.

Lemma dict_set_keys {K V : Type} `{EqDecision K} (d : list (K * V)) k v :
  (dict_set d k v).*1 = if decide (k ∈ d.*1) then d.*1 else d.*1 ++ [k].
Proof.
  induction d as [|[k0 v0] d IH]; cbn [dict_set].
  - rewrite decide_False; [done|]. apply not_elem_of_nil.
  - destruct (decide (k0 = k)) as [->|Hne]; rewrite !fmap_cons; cbn [fst].
    + rewrite decide_True; [done|left].
    + rewrite IH. destruct (decide (k ∈ d.*1)) as [Hin|Hin].
      * rewrite decide_True; [done|by right].
      * rewrite decide_False; [done|].
        intros [->|?]%elem_of_cons; [by destruct Hne|done].
Qed.

Lemma count_fold (l : list Item) : ∀ d,
  NoDup d.*1 →
  NoDup (foldl count_item d l).*1 ∧
  (∀ x, x ∈ (foldl count_item d l).*1 ↔ x ∈ d.*1 ∨ x ∈ l) ∧
  (∀ x, default 0 (dict_get (foldl count_item d l) x)
        = default 0 (dict_get d x) + Z.of_nat (length (filter (λ y, y = x) l))).
Proof.
  induction l as [|a l IH]; intros d Hnd; simpl.
  - split_and!; [done| |intros; lia]. intros x. rewrite elem_of_nil. tauto.
  - assert (NoDup (count_item d a).*1) as Hnd'.
    { unfold count_item. rewrite dict_set_keys. case_decide; [done|].
      apply NoDup_app. split_and!; [done| |apply NoDup_singleton].
      intros x ? ->%list_elem_of_singleton. done. }
    destruct (IH _ Hnd') as (H1 & H2 & H3). split_and!; [done|..].
    + intros x. rewrite H2. unfold count_item. rewrite dict_set_keys.
      rewrite elem_of_cons. case_decide; [naive_solver|].
      rewrite elem_of_app, list_elem_of_singleton. naive_solver.
    + intros x. rewrite H3. unfold count_item. rewrite dict_get_set.
      rewrite filter_cons. destruct (decide (a = x)) as [->|?]; simpl; lia.
Qed.

Lemma count_items_flat (txs : list (list Item)) : ∀ d,
  foldl (foldl count_item) d txs = foldl count_item d (mjoin txs).
Proof.
  induction txs as [|t txs IH]; intros d; [done|].
  simpl. by rewrite foldl_app, IH.
Qed.

Lemma count_items_spec txs :
  NoDup (count_items txs).*1 ∧
  (∀ x, x ∈ (count_items txs).*1 ↔ ∃ t, t ∈ txs ∧ x ∈ t) ∧
  (∀ x c, (x, c) ∈ count_items txs → c = occurrences x txs).
Proof.
  unfold count_items. rewrite count_items_flat.
  destruct (count_fold (mjoin txs) []) as (H1 & H2 & H3); [constructor|].
  split_and!; [done|..].
  - intros x. rewrite H2, list_elem_of_join. simpl. rewrite elem_of_nil.
    naive_solver.
  - intros x c Hin. apply dict_get_Some in Hin; [|done].
    specialize (H3 x). rewrite Hin in H3. simpl in H3. unfold occurrences. lia.
Qed.

(** *** Python's stable sort *)

Lemma sort_insert_perm {K A : Type} (lt : K → K → bool) r (x : K * A) l :
  sort_insert lt r x l ≡ₚ x :: l.
Proof.
  induction l as [|y l IH]; simpl; [done|].
  destruct (if r then lt x.1 y.1 else lt y.1 x.1); [|done].
  rewrite IH. apply Permutation_swap.
Qed.

Lemma py_sorted_perm {K A : Type} (lt : K → K → bool) r (l : list (K * A)) :
  py_sorted lt r l ≡ₚ l.
Proof.
  induction l as [|x l IH]; simpl; [done|]. by rewrite sort_insert_perm, IH.
Qed.

(** With [reverse=True] no element is followed by one with a larger key. *)
Lemma py_sorted_reverse_sorted {K A : Type} (lt : K → K → bool)
    (l : list (K * A)) :
  (∀ a b, lt a b = true → lt b a = false) →
  (∀ a b c, lt a b = false → lt b c = false → lt a c = false) →
  StronglySorted (λ a b, lt a.1 b.1 = false) (py_sorted lt true l).
Proof.
  intros Hasym Hneg. induction l as [|x l IH]; simpl; [constructor|].
  induction IH as [|y l' Hs IHs Hall]; simpl; [repeat constructor|].
  destruct (lt x.1 y.1) eqn:Hxy.
  - constructor; [done|]. rewrite sort_insert_perm. constructor; [|done].
    by apply Hasym.
  - constructor; [by constructor|]. constructor; [done|].
    eapply Forall_impl; [exact Hall|]. intros z Hyz. by eapply Hneg.
Qed.

Lemma StronglySorted_strengthen {A : Type} (R : relation A) (P : A → Prop) l :
  StronglySorted R l → Forall P l → NoDup l →
  StronglySorted (λ a b, R a b ∧ P a ∧ P b ∧ a ≠ b) l.
Proof.
  induction 1 as [|a l Hs IH Hall]; intros HP Hnd; [constructor|].
  apply Forall_cons in HP as [Pa HP]. apply NoDup_cons in Hnd as [Ha Hnd].
  constructor; [by apply IH|]. rewrite Forall_forall in Hall, HP |- *.
  intros b Hb. split_and!; auto. by intros ->.
Qed.

Lemma index_keys_total (itemsOrder l : list Item) :
  Forall (λ v, v ∈ itemsOrder) l → ∃ r, index_keys itemsOrder l = Ok r.
Proof.
  induction 1 as [|v l Hv _ [r IH]]; simpl; [by eexists|].
  rewrite index_rank. destruct (rank_is_Some _ _ Hv) as [k ->].
  rewrite IH. by eexists.
Qed.

Lemma map_clean_total (d : list (Item * Z)) (txs : list (list Item)) :
  ∃ r, map_clean d d.*1 txs = Ok r.
Proof.
  induction txs as [|t txs [r IH]]; simpl; [by eexists|].
  unfold cleanTransactions.
  destruct (index_keys_total d.*1
              (filter (λ v, is_Some (dict_get d v)) t)) as [k ->].
  - apply Forall_forall. intros v [Hv _]%list_elem_of_filter.
    destruct (decide (v ∈ d.*1)) as [|Hn]; [done|].
    apply dict_get_None in Hn. rewrite Hn in Hv. by destruct Hv.
  - rewrite IH. by eexists.
Qed.

Section Orderer.

Context (item_lt : Item → Item → bool).

Hypothesis item_lt_irrefl : ∀ x, item_lt x x = false.
Hypothesis item_lt_trans :
  ∀ x y z, item_lt x y = true → item_lt y z = true → item_lt x z = true.
Hypothesis item_lt_total :
  ∀ x y, x ≠ y → item_lt x y = true ∨ item_lt y x = true.

Lemma key_lt_spec a b :
  key_lt item_lt a b = true ↔ a.1 < b.1 ∨ (a.1 = b.1 ∧ item_lt a.2 b.2 = true).
Proof.
  unfold key_lt. destruct (decide (a.1 = b.1)) as [Heq|Hne].
  - destruct (decide (a.2 = b.2)) as [Heq2|Hne2].
    + rewrite Heq2, item_lt_irrefl. split; [done|]. intros [?|[_ ?]]; [lia|done].
    + split; [auto|]. intros [?|[_ ?]]; [lia|done].
  - rewrite Z.ltb_lt. split; [auto|]. intros [?|[? _]]; [done|lia].
Qed.

Lemma key_lt_asym a b :
  key_lt item_lt a b = true → key_lt item_lt b a = false.
Proof.
  intros Hab. apply not_true_is_false. intros Hba.
  apply key_lt_spec in Hab as [?|[? Hab]]; apply key_lt_spec in Hba as [?|[? Hba]];
    try lia.
  pose proof (item_lt_trans _ _ _ Hab Hba) as Haa.
  by rewrite item_lt_irrefl in Haa.
Qed.

Lemma item_lt_neg_trans x y z :
  item_lt x y = false → item_lt y z = false → item_lt x z = false.
Proof.
  intros Hxy Hyz. apply not_true_is_false. intros Hxz.
  destruct (decide (x = y)) as [->|Hne1]; [congruence|].
  destruct (decide (y = z)) as [->|Hne2]; [congruence|].
  destruct (item_lt_total x y Hne1) as [?|Hyx]; [congruence|].
  destruct (item_lt_total y z Hne2) as [?|Hzy]; [congruence|].
  pose proof (item_lt_trans _ _ _ Hxz Hzy) as Hxy'. congruence.
Qed.

Lemma key_lt_neg_trans a b c :
  key_lt item_lt a b = false → key_lt item_lt b c = false →
  key_lt item_lt a c = false.
Proof.
  intros Hab Hbc. apply not_true_is_false. intros Hac.
  apply not_true_iff_false in Hab, Hbc.
  rewrite key_lt_spec in Hab, Hbc, Hac.
  destruct (item_lt a.2 b.2) eqn:E1; destruct (item_lt b.2 c.2) eqn:E2;
    destruct (item_lt a.2 c.2) eqn:E3;
    try (pose proof (item_lt_neg_trans _ _ _ E1 E2); congruence);
    destruct (Z.lt_trichotomy a.1 b.1) as [?|[?|?]];
    destruct (Z.lt_trichotomy b.1 c.1) as [?|[?|?]];
    try (destruct Hab; by auto); try (destruct Hbc; by auto);
    destruct Hac as [?|[? ?]]; try lia; try done.
Qed.

(** C2, as the code has it.  When [<] on the items is a strict total order,
    [filterTransactions] returns, for every dataset, a canonical order that
    lists every item of the dataset once, by descending count and, among
    equal counts, by descending item: [sorted] runs on the keys
    [(count, item)] with [reverse=True], which reverses both parts. *)
Theorem C2_canonical_order_descending txs minSupp :
  ∃ txs' itemsOrder,
    filterTransactions item_lt txs minSupp = Ok (txs', itemsOrder) ∧
    NoDup itemsOrder ∧
    (∀ x, x ∈ itemsOrder ↔ ∃ t, t ∈ txs ∧ x ∈ t) ∧
    StronglySorted
      (λ x y, occurrences y txs < occurrences x txs ∨
              (occurrences x txs = occurrences y txs ∧ item_lt y x = true))
      itemsOrder.
Proof.
  unfold filterTransactions.
  set (deco := λ kv : Item * Z, ((kv.2, kv.1), kv)).
  set (D := py_sorted (key_lt item_lt) true (map deco (count_items txs))).
  destruct (count_items_spec txs) as (Hnd & Hin & Hcnt).
  assert (D ≡ₚ deco <$> count_items txs) as HD by apply py_sorted_perm.
  assert (D.*2 ≡ₚ count_items txs) as HD2.
  { rewrite HD, <-list_fmap_compose. by rewrite list_fmap_id. }
  destruct (map_clean_total D.*2 txs) as [txs' ->].
  exists txs', D.*2.*1. split; [done|]. split_and!.
  - by rewrite HD2.
  - intros x. by rewrite HD2.
  - assert (StronglySorted (λ a b, key_lt item_lt a.1 b.1 = false) D) as Hs
      by (apply py_sorted_reverse_sorted;
          [apply key_lt_asym|apply key_lt_neg_trans]).
    apply (StronglySorted_strengthen _
             (λ e, e.1 = (occurrences e.2.1 txs, e.2.1) ∧
                   e.2.2 = occurrences e.2.1 txs)) in Hs.
    + rewrite <-list_fmap_compose.
      eapply StronglySorted_fmap; [|exact Hs]. simpl.
      intros a b (Hlt & [Ha Ha'] & [Hb Hb'] & Hne).
      apply not_true_iff_false in Hlt.
      rewrite key_lt_spec, Ha, Hb in Hlt. simpl in Hlt.
      destruct (Z.lt_trichotomy (occurrences a.2.1 txs) (occurrences b.2.1 txs))
        as [?|[Heq|?]]; [tauto| |auto].
      right. split; [done|].
      destruct (decide (b.2.1 = a.2.1)) as [Heq'|Hne'].
      * destruct Hne. destruct a as [[? ?] [? ?]], b as [[? ?] [? ?]].
        simpl in *. congruence.
      * destruct (item_lt_total _ _ Hne') as [?|?]; [done|tauto].
    + rewrite HD. apply Forall_forall.
      intros e ([x c] & -> & Hxc)%list_elem_of_fmap. simpl.
      by rewrite <-(Hcnt x c Hxc).
    + rewrite HD. apply NoDup_fmap_2; [|by eapply NoDup_fmap_1].
      intros ?? [= ?]. done.
Qed.

End Orderer.

(** ** Properties of the disjunctive support *)

Lemma or_support_mono (A B : list Item) ts :
  A ⊆ B → or_support A ts ≤ or_support B ts.
Proof.
  intros HAB. unfold or_support. apply inj_le.
  induction ts as [|t ts IH]; [done|]. rewrite !filter_cons.
  destruct (decide (contains_any A t)) as [HA|HA].
  - rewrite decide_True; [simpl; lia|].
    unfold contains_any in *. rewrite Exists_exists in *.
    destruct HA as (x & ? & ?). exists x. split; [by apply HAB|done].
  - case_decide; simpl; lia.
Qed.

Lemma or_support_perm (A : list Item) ts1 ts2 :
  ts1 ≡ₚ ts2 → or_support A ts1 = or_support A ts2.
Proof. intros Hp. unfold or_support. by rewrite Hp. Qed.

Lemma buildFPTree_tree_inv txs T :
  buildFPTree txs = Ok T → ∃ paths, tree_inv txs paths T.
Proof.
  intros Hb. destruct (buildFPTree_inv txs) as (T' & paths & Hb' & Hinv).
  rewrite Hb in Hb'. injection Hb' as <-. by exists paths.
Qed.

(** An item without header entry stops the [for] loop with an exception,
    whatever the tree. *)
Lemma findSupport_for_missing fuel newList (T : FPTree) itemsOrder : ∀ ks support,
  (∃ k x, k ∈ ks ∧ newList !! k = Some x ∧ _header T !! Some x = None) →
  ∃ e, findSupport_for fuel newList ks T itemsOrder support = Raise e.
Proof.
  induction ks as [|k0 ks IH]; intros support (k & x & Hk & Hx & Hh).
  - by apply elem_of_nil in Hk.
  - cbn [findSupport_for]. rewrite getitem_nat.
    destruct (newList !! k0) as [x0|] eqn:Hx0; [|by eexists].
    destruct (_header T !! Some x0) as [h|] eqn:Hh0; [|by eexists].
    destruct (findSupport_while _ _ _ _ _ _ _ _) as [support'|e]; [|by eexists].
    apply IH. exists k, x. split_and!; [|done..].
    apply elem_of_cons in Hk as [->|?]; [|done]. congruence.
Qed.

(** ** The recursive functions, as the source writes them *)

(** [checkPath] satisfies the recursive equation of the Python function. *)
Lemma checkPath_unfold fuel itemList (i : Z) X_node (T : FPTree) itemsOrder :
  checkPath fuel itemList i X_node T itemsOrder =
    if 0 <=? i then
      xn <- deref T X_node ;
      found <- checkPath_while fuel itemList i (_parent xn) T itemsOrder ;
      if found then Ok true
      else checkPath fuel itemList (i - 1) X_node T itemsOrder
    else Ok false.
Proof.
  unfold checkPath. destruct (Z.leb_spec 0 i) as [Hi|Hi].
  - replace (Z.to_nat (i + 1)) with (S (Z.to_nat i)) by lia.
    cbn [checkPath_rec]. rewrite Z2Nat.id by done.
    by replace (Z.to_nat (i - 1 + 1)) with (Z.to_nat i) by lia.
  - by replace (Z.to_nat (i + 1)) with 0%nat by lia.
Qed.

(** [generateItemsets] satisfies the recursive equation of the Python
    function: the iterations of the [while] loop after the first one are the
    body of the function again, started at [i - 1]. *)
Lemma generateItemsets_unfold fuel itemsList (start end_ depth minSupp : Z)
    (fpt : FPTree) itemsOrder freqItemsets :
  generateItemsets fuel itemsList start end_ depth minSupp fpt itemsOrder
    freqItemsets =
    if start <? end_ then Ok freqItemsets
    else if depth =? end_ + 1 then Ok freqItemsets
    else
      x <- getitem itemsList start ;
      match remove_first x itemsList with
      | None => Raise ValueError
      | Some newList =>
          val <- findSupportByPrefixPath fuel newList fpt itemsOrder ;
          if minSupp <=? val then
            freqItemsets' <-
              generateItemsets fuel newList (start - 1) end_ (depth - 1)
                minSupp fpt itemsOrder (freqItemsets ++ [(newList, val)]) ;
            generateItemsets fuel itemsList (start - 1) end_ depth minSupp fpt
              itemsOrder freqItemsets'
          else
            generateItemsets fuel itemsList (start - 1) end_ depth minSupp fpt
              itemsOrder freqItemsets
      end.
Proof.
  unfold generateItemsets. destruct (Z.ltb_spec start end_) as [Hlt|Hge].
  - by replace (Z.to_nat (start - end_ + 1)) with 0%nat by lia.
  - replace (Z.to_nat (start - end_ + 1)) with (S (Z.to_nat (start - end_)))
      by lia.
    cbn [generateItemsets_while].
    replace (end_ + Z.of_nat (Z.to_nat (start - end_))) with start by lia.
    by replace (Z.to_nat (start - 1 - end_ + 1)) with (Z.to_nat (start - end_))
      by lia.
Qed.

(** ** The enumeration returns on a represented tree *)

Lemma index_from_lookup (l : list Item) x : ∀ i n,
  NoDup l → l !! i = Some x → index_from x l n = Some (n + i)%nat.
Proof.
  induction l as [|y l IH]; intros i n Hnd Hi; [done|].
  apply NoDup_cons in Hnd as [Hy Hnd]. destruct i as [|i]; simpl in *.
  - injection Hi as ->. rewrite decide_True by done. f_equal. lia.
  - rewrite decide_False.
    + rewrite (IH i (S n) Hnd Hi). f_equal. lia.
    + intros ->. apply Hy. by eapply list_elem_of_lookup_2.
Qed.

Lemma StronglySorted_lookup_2 {A : Type} (R : relation A) (l : list A) :
  (∀ i j a b, (i < j)%nat → l !! i = Some a → l !! j = Some b → R a b) →
  StronglySorted R l.
Proof.
  induction l as [|a l IH]; intros HR; constructor.
  - apply IH. intros i j x y Hij Hx Hy. apply (HR (S i) (S j)); [lia|done..].
  - apply Forall_forall. intros b [j Hj]%list_elem_of_lookup.
    apply (HR 0%nat (S j)); [lia|done..].
Qed.

(** A duplicate-free order is canonical for itself. *)
Lemma canonical_self (l : list Item) : NoDup l → canonical l l.
Proof.
  intros Hnd. split; [|by apply Forall_forall].
  apply StronglySorted_lookup_2. intros i j a b Hij Ha Hb. exists i, j.
  unfold rank. by rewrite (index_from_lookup l a i 0), (index_from_lookup l b j 0).
Qed.

Lemma canonical_remove itemsOrder (l1 l2 : list Item) x :
  canonical itemsOrder (l1 ++ x :: l2) → canonical itemsOrder (l1 ++ l2).
Proof.
  intros [Hs Hf]. apply StronglySorted_app in Hs as (H12 & H1 & H2).
  apply StronglySorted_cons in H2 as [_ H2].
  apply Forall_app in Hf as [Hf1 Hf2]. apply Forall_cons in Hf2 as [_ Hf2].
  split.
  - apply StronglySorted_app. split_and!; [|done..].
    intros a b Ha Hb. apply H12; [done|by right].
  - by apply Forall_app.
Qed.

Section Returns.

Context (txs paths : list (list Item)) (T : FPTree) (itemsOrder : list Item).
Context (Hinv : tree_inv txs paths T).
Context (Htxs : Forall (canonical itemsOrder) txs).
Context (fuel : nat) (Hfuel : (_nodesCount T < fuel)%nat) (minSupp : Z).

Lemma generateItemsets_returns : ∀ n L depth freq,
  canonical itemsOrder L →
  Forall (λ x, is_Some (_header T !! Some x)) L →
  (n ≤ length L)%nat →
  ∃ r, generateItemsets_while fuel n L 0 depth minSupp T itemsOrder freq = Ok r.
Proof.
  induction n as [|n IH]; intros L depth freq HL Hh Hn;
    cbn [generateItemsets_while]; [by eexists|].
  destruct (depth =? 0 + 1); [by eexists|].
  destruct (lookup_lt_is_Some_2 L n) as [x Hx]; [lia|].
  change (0 + Z.of_nat n) with (Z.of_nat n). rewrite getitem_nat, Hx.
  rewrite (remove_first_lookup x L n (canonical_NoDup _ _ HL) Hx).
  pose proof HL as HL'. pose proof Hh as Hh'.
  rewrite <-(take_drop_middle _ _ _ Hx) in HL', Hh'.
  apply canonical_remove in HL'.
  apply Forall_app in Hh' as [Hh1 Hh2]. apply Forall_cons in Hh2 as [_ Hh2].
  assert (Forall (λ x, is_Some (_header T !! Some x))
            (take n L ++ drop (S n) L)) as Hh' by by apply Forall_app.
  rewrite (findSupportByPrefixPath_spec _ _ _ _ Hinv Htxs _ _ HL' Hfuel).
  rewrite decide_True by done.
  assert (n ≤ length (take n L ++ drop (S n) L))%nat as Hn'
    by (rewrite length_app, length_take_le; lia).
  destruct (minSupp <=? _).
  - destruct (IH _ (depth - 1) (freq ++ [(take n L ++ drop (S n) L,
                or_support (take n L ++ drop (S n) L) txs)]) HL' Hh' Hn')
      as [freq' ->].
    apply IH; [done|done|lia].
  - apply IH; [done|done|lia].
Qed.

(** On the tree of canonical transactions, with a duplicate-free order whose
    items all occur in the tree and fuel above the number of nodes,
    [findFrequentItemsets] returns a list. *)
Lemma findFrequentItemsets_returns :
  NoDup itemsOrder →
  Forall (λ x, is_Some (_header T !! Some x)) itemsOrder →
  ∃ r, findFrequentItemsets fuel T itemsOrder minSupp = Ok r.
Proof.
  intros Hnd Hh. unfold findFrequentItemsets, generateItemsets.
  apply generateItemsets_returns; [by apply canonical_self|done|lia].
Qed.

End Returns.

(** ** The whole pipeline returns *)

Lemma index_from_Some (l : list Item) x : ∀ n m,
  index_from x l n = Some m → (n ≤ m)%nat ∧ l !! (m - n)%nat = Some x.
Proof.
  induction l as [|y l IH]; intros n m; simpl; [done|].
  case_decide as Hd.
  - intros [= <-]. rewrite Nat.sub_diag. by subst.
  - intros [Hle Hl]%IH. split; [lia|].
    by replace (m - n)%nat with (S (m - S n)) by lia.
Qed.

Lemma rank_inj itemsOrder (a b : Item) k :
  rank itemsOrder a = Some k → rank itemsOrder b = Some k → a = b.
Proof.
  intros [_ Ha]%index_from_Some [_ Hb]%index_from_Some. congruence.
Qed.

(** Without [reverse] no element is followed by one with a smaller key. *)
Lemma py_sorted_sorted {K A : Type} (lt : K → K → bool) (l : list (K * A)) :
  (∀ a b, lt a b = true → lt b a = false) →
  (∀ a b c, lt a b = false → lt b c = false → lt a c = false) →
  StronglySorted (λ a b, lt b.1 a.1 = false) (py_sorted lt false l).
Proof.
  intros Hasym Hneg. induction l as [|x l IH]; simpl; [constructor|].
  induction IH as [|y l' Hs IHs Hall]; simpl; [repeat constructor|].
  destruct (lt y.1 x.1) eqn:Hyx.
  - constructor; [done|]. rewrite sort_insert_perm. constructor; [|done].
    by apply Hasym.
  - constructor; [by constructor|]. constructor; [done|].
    eapply Forall_impl; [exact Hall|]. intros z Hzy.
    by apply (Hneg z.1 y.1 x.1).
Qed.

Lemma index_keys_spec (itemsOrder l : list Item) r :
  index_keys itemsOrder l = Ok r →
  r.*2 = l ∧ Forall (λ kv, rank itemsOrder kv.2 = Some kv.1) r.
Proof.
  revert r. induction l as [|v l IH]; simpl; intros r.
  - intros [= <-]. by split.
  - rewrite index_rank. destruct (rank itemsOrder v) as [k|] eqn:Hk; [|done].
    destruct (index_keys itemsOrder l) as [r'|]; [|done]. intros [= <-].
    destruct (IH r' eq_refl) as [<- Hall]. split; [done|]. by constructor.
Qed.

Lemma filter_all {A : Type} (P : A → Prop) `{!∀ x, Decision (P x)} (l : list A) :
  Forall P l → filter P l = l.
Proof.
  induction 1 as [|x l Hx _ IH]; [done|].
  by rewrite filter_cons, decide_True, IH.
Qed.

(** [cleanTransactions] returns the items of the transaction in canonical
    order; a transaction without repeated items becomes canonical. *)
Lemma cleanTransactions_spec (d : list (Item * Z)) (t : list Item) :
  Forall (λ v, v ∈ d.*1) t →
  ∃ t', cleanTransactions d d.*1 t = Ok t' ∧ t' ≡ₚ t ∧
        (NoDup t → canonical d.*1 t').
Proof.
  intros Hall. unfold cleanTransactions. rewrite filter_all.
  2:{ eapply Forall_impl; [exact Hall|]. intros v Hv.
      destruct (dict_get d v) eqn:Hg; [by eexists|].
      by apply dict_get_None in Hg. }
  destruct (index_keys_total d.*1 t Hall) as [keyed Hk]. rewrite Hk.
  apply index_keys_spec in Hk as [Hk2 Hranks].
  eexists. split; [done|].
  pose proof (py_sorted_perm Nat.ltb false keyed) as Hperm.
  assert ((py_sorted Nat.ltb false keyed).*2 ≡ₚ t) as Hperm2
    by by rewrite Hperm, Hk2.
  split; [done|]. intros Hnd. split.
  - assert (StronglySorted (λ a b : nat * Item, (b.1 <? a.1)%nat = false)
              (py_sorted Nat.ltb false keyed)) as Hs.
    { apply py_sorted_sorted.
      - intros a b. rewrite Nat.ltb_lt, Nat.ltb_ge. lia.
      - intros a b c. rewrite !Nat.ltb_ge. lia. }
    apply (StronglySorted_strengthen _
             (λ kv, rank d.*1 kv.2 = Some kv.1)) in Hs.
    + eapply StronglySorted_fmap; [|exact Hs]. simpl.
      intros a b (Hlt & Ha & Hb & Hne). exists a.1, b.1.
      split_and!; [done..|]. apply Nat.ltb_ge in Hlt.
      destruct (decide (a.1 = b.1)) as [Heq|]; [|lia].
      rewrite Heq in Ha. pose proof (rank_inj _ _ _ _ Ha Hb) as Hv.
      destruct Hne. destruct a, b. simpl in *. congruence.
    + by rewrite Hperm.
    + rewrite Hperm. apply (NoDup_fmap_1 snd). by rewrite Hk2.
  - by rewrite Hperm2.
Qed.

Lemma map_clean_spec (d : list (Item * Z)) (txs : list (list Item)) :
  Forall (Forall (λ v, v ∈ d.*1)) txs →
  ∃ txs', map_clean d d.*1 txs = Ok txs' ∧
          Forall2 (λ t t', t' ≡ₚ t ∧ (NoDup t → canonical d.*1 t')) txs txs'.
Proof.
  induction 1 as [|t txs Ht _ (txs' & IH & HF)]; simpl.
  - exists []. by split.
  - destruct (cleanTransactions_spec d t Ht) as (t' & -> & Hp & Hc).
    rewrite IH. exists (t' :: txs'). split; [done|]. by constructor.
Qed.

(** For a dataset whose transactions repeat no item, the main block runs to
    the end with any fuel above the number of nodes of its tree. *)
Lemma main_returns (item_lt : Item → Item → bool)
    (transactions : list (list Item)) (minSupp : Z) :
  Forall NoDup transactions →
  ∃ itemsOrder tree,
    ∀ fuel, (_nodesCount tree < fuel)%nat →
      ∃ freqItemsets,
        main item_lt fuel transactions minSupp
          = Ok (itemsOrder, tree, freqItemsets).
Proof.
  intros Hnd. unfold main, filterTransactions.
  set (deco := λ kv : Item * Z, ((kv.2, kv.1), kv)).
  set (D := py_sorted (key_lt item_lt) true (map deco (count_items transactions))).
  destruct (count_items_spec transactions) as (Hkeys & Hin & _).
  assert (D.*2 ≡ₚ count_items transactions) as HD2.
  { assert (D ≡ₚ deco <$> count_items transactions) as HD
      by apply py_sorted_perm.
    rewrite HD, <-list_fmap_compose. by rewrite list_fmap_id. }
  destruct (map_clean_spec D.*2 transactions) as (txs' & -> & HF).
  { apply Forall_forall. intros t Ht. apply Forall_forall. intros v Hv.
    rewrite HD2. apply Hin. eauto. }
  destruct (buildFPTree_inv txs') as (tree & paths & -> & Hinv).
  exists D.*2.*1, tree. intros fuel Hfuel.
  assert (Forall (canonical D.*2.*1) txs') as Hcan.
  { clearbody D. clear -HF Hnd.
    induction HF as [|t t' l l' [_ Hc] _ IH]; [constructor|].
    apply Forall_cons in Hnd as [Hn1 Hn2].
    constructor; [by apply Hc|by apply IH]. }
  destruct (findFrequentItemsets_returns _ _ _ _ Hinv Hcan fuel Hfuel minSupp)
    as [r ->]; [by rewrite HD2| |by eexists].
  apply Forall_forall. intros x Hx. rewrite HD2 in Hx.
  apply Hin in Hx as (t & Ht & Hxt).
  apply (header_is_Some _ _ _ Hinv).
  apply list_elem_of_lookup in Ht as [i Hi].
  destruct (Forall2_lookup_l _ _ _ _ _ HF Hi) as (t' & Hi' & Hp & _).
  exists t'. split; [by eapply list_elem_of_lookup_2|]. by rewrite Hp.
Qed.

(** ** The claims *)

(** C1. On the tree built from transactions that are duplicate-free and
    sorted in the canonical order, and for an itemset in canonical order
    whose items all have a header entry, [findSupportByPrefixPath] returns,
    with any fuel above the number of nodes, the number of transactions that
    contain at least one item of the itemset.  (The itemset may also be
    empty: the result is then 0.) *)
Theorem C1_prefix_path_support_is_or_support
    (itemsOrder : list Item) (transactions : list (list Item))
    (itemset : list Item) :
  Forall (canonical itemsOrder) transactions →
  canonical itemsOrder itemset →
  ∃ tree, buildFPTree transactions = Ok tree ∧
    (Forall (λ x, is_Some (_header tree !! Some x)) itemset →
     ∀ fuel, (_nodesCount tree < fuel)%nat →
       findSupportByPrefixPath fuel itemset tree itemsOrder
         = Ok (Z.of_nat (length (filter (contains_any itemset) transactions)))).
Proof.
  intros Htxs Hset.
  destruct (buildFPTree_inv transactions) as (tree & paths & Hb & Hinv).
  exists tree. split; [done|]. intros Hall fuel Hfuel.
  rewrite (findSupportByPrefixPath_spec _ _ _ _ Hinv Htxs _ _ Hset Hfuel).
  by rewrite decide_True.
Qed.

(** C3, as the code has it.  On the tree built from transactions that are
    duplicate-free and sorted in the canonical order, adding items to a
    canonical itemset never lowers the support that
    [findSupportByPrefixPath] returns, as long as the items of the larger
    itemset all have a header entry.  A transaction that repeats an item
    breaks this. *)
Theorem C3_support_monotone
    (itemsOrder : list Item) (transactions : list (list Item))
    (A B : list Item) :
  Forall (canonical itemsOrder) transactions →
  canonical itemsOrder A → canonical itemsOrder B → A ⊆ B →
  ∃ tree, buildFPTree transactions = Ok tree ∧
    (Forall (λ x, is_Some (_header tree !! Some x)) B →
     ∀ fuel, (_nodesCount tree < fuel)%nat →
       ∃ a b, findSupportByPrefixPath fuel A tree itemsOrder = Ok a ∧
              findSupportByPrefixPath fuel B tree itemsOrder = Ok b ∧
              a ≤ b).
Proof.
  intros Htxs HA HB HAB.
  destruct (buildFPTree_inv transactions) as (tree & paths & Hb & Hinv).
  exists tree. split; [done|]. intros Hall fuel Hfuel.
  exists (or_support A transactions), (or_support B transactions).
  rewrite (findSupportByPrefixPath_spec _ _ _ _ Hinv Htxs _ _ HA Hfuel).
  rewrite (findSupportByPrefixPath_spec _ _ _ _ Hinv Htxs _ _ HB Hfuel).
  rewrite !decide_True; [by auto using or_support_mono|done|].
  rewrite Forall_forall in Hall |- *. auto.
Qed.

(** C4, as the code has it.  An itemset with an item that has no header
    entry makes [findSupportByPrefixPath] raise, for every tree and with any
    fuel: no support is returned.  On the tree of canonical transactions and
    for a canonical itemset the exception is [KeyError], from the lookup
    [tree._header[newList[k]]]. *)
Theorem C4_missing_item_raises
    (tree : FPTree) (itemset itemsOrder : list Item) :
  (∃ x, x ∈ itemset ∧ _header tree !! Some x = None) →
  (∀ fuel, ∃ e, findSupportByPrefixPath fuel itemset tree itemsOrder = Raise e) ∧
  (∀ transactions fuel,
     buildFPTree transactions = Ok tree →
     Forall (canonical itemsOrder) transactions →
     canonical itemsOrder itemset → (_nodesCount tree < fuel)%nat →
     findSupportByPrefixPath fuel itemset tree itemsOrder = Raise KeyError).
Proof.
  intros (x & Hx & Hh). split.
  - intros fuel. apply findSupport_for_missing.
    apply list_elem_of_lookup in Hx as [k Hk]. exists k, x.
    split_and!; [|done..]. apply elem_of_seq. apply lookup_lt_Some in Hk. lia.
  - intros transactions fuel Hb Htxs Hset Hfuel.
    destruct (buildFPTree_tree_inv _ _ Hb) as [paths Hinv].
    rewrite (findSupportByPrefixPath_spec _ _ _ _ Hinv Htxs _ _ Hset Hfuel).
    rewrite decide_False; [done|]. rewrite Forall_forall. intros Hall.
    specialize (Hall x Hx). rewrite Hh in Hall. by destruct Hall.
Qed.

(** C7, as the code has it.  After [buildFPTree] the counts of the children
    of the root add up to the number of non-empty transactions: an empty
    transaction leaves the tree as it is. *)
Theorem C7_root_counts_sum_nonempty (transactions : list (list Item)) :
  ∃ tree, buildFPTree transactions = Ok tree ∧
    root_children_count_sum tree
      = Ok (Z.of_nat (length (filter (λ t, t ≠ []) transactions))).
Proof.
  destruct (buildFPTree_inv transactions) as (tree & paths & Hb & Hinv).
  exists tree. split; [done|]. unfold root_children_count_sum, deref.
  rewrite (inv_root _ _ _ Hinv).
  destruct (inv_n0 _ _ _ Hinv) as [ch Hn0]. rewrite Hn0.
  set (rn := mkFPNode None None None ch None 0) in *.
  pose proof (inv_p0 _ _ _ Hinv) as Hp0.
  assert (∀ cs, (∀ c, c ∈ cs → c ∈ children rn) →
            sum_counts tree cs
              = Ok (sumZ (under paths (λ _, True) transactions <$> cs))) as Hsum.
  { induction cs as [|c cs IH]; intros Hcs; [done|].
    cbn [sum_counts]. unfold deref.
    destruct (proj1 (children_paths _ _ _ Hinv 0%nat rn [] c Hn0 Hp0))
      as [z Hz]; [apply Hcs; left|].
    destruct (proj1 (tree_inv_lookup _ _ _ c Hinv)) as [n Hn]; [by eexists|].
    assert (0 < c)%nat as Hpos
      by (destruct c; [by rewrite Hp0 in Hz|lia]).
    destruct (inv_node _ _ _ Hinv c n _ Hpos Hn Hz) as (? & ? & ? & _ & _ & Hc & _).
    rewrite Hn, Hc, IH by (intros; apply Hcs; by right).
    rewrite fmap_cons. cbn [sumZ]. do 2 f_equal. unfold under. rewrite Hz.
    unfold cnt_prefix. do 2 f_equal. apply filter_ext_in. tauto. }
  rewrite Hsum by done.
  rewrite (children_partition _ _ _ Hinv _ 0%nat rn [] Hn0 Hp0) by done.
  do 3 f_equal. apply filter_ext_in. intros t _. split; [tauto|].
  intros ?. split_and!; [apply prefix_nil|done..].
Qed.

(** C8. With a duplicate-free canonical order, no itemset is recorded twice
    in the list that [findFrequentItemsets] returns. *)
Theorem C8_no_itemset_recorded_twice
    (fuel : nat) (fpt : FPTree) (itemsOrder : list Item) (minSupp : Z)
    (freqItemsets : list entry) :
  NoDup itemsOrder →
  findFrequentItemsets fuel fpt itemsOrder minSupp = Ok freqItemsets →
  NoDup freqItemsets.*1.
Proof.
  intros Hnd. unfold findFrequentItemsets, generateItemsets.
  replace (Z.to_nat (Z.of_nat (length itemsOrder) - 1 - 0 + 1))
    with (length itemsOrder) by lia.
  intros Hgen.
  apply generateItemsets_distinct in Hgen as (new & -> & Hnew & _);
    [done|done|lia].
Qed.

(** C9. For the empty dataset nothing raises: the canonical order is empty,
    the tree is the one of [FPTree()], whose only node is the root, and no
    itemset is recorded. *)
Theorem C9_empty_dataset (item_lt : Item → Item → bool) (fuel : nat)
    (minSupp : Z) :
  filterTransactions item_lt [] minSupp = Ok ([], []) ∧
  buildFPTree [] = Ok FPTree_init ∧
  (∃ r, _nodes FPTree_init = [r] ∧ is_root r = true) ∧
  findFrequentItemsets fuel FPTree_init [] minSupp = Ok [] ∧
  main item_lt fuel [] minSupp = Ok ([], FPTree_init, []).
Proof. split_and!; try reflexivity. by eexists. Qed.

(** C10. Every itemset that [findFrequentItemsets] records has at least one
    item and fewer items than the canonical order: neither the full order
    nor the empty itemset is recorded, whatever the tree and threshold. *)
Theorem C10_recorded_itemsets_are_proper
    (fuel : nat) (fpt : FPTree) (itemsOrder : list Item) (minSupp : Z)
    (freqItemsets : list entry) :
  findFrequentItemsets fuel fpt itemsOrder minSupp = Ok freqItemsets →
  Forall (λ e : entry, (1 ≤ length e.1 ≤ length itemsOrder - 1)%nat)
    freqItemsets ∧
  (itemsOrder ∉ freqItemsets.*1) ∧ ([] ∉ freqItemsets.*1).
Proof.
  unfold findFrequentItemsets, generateItemsets. intros Hgen.
  apply generateItemsets_lengths in Hgen as (new & -> & Hnew); [|done].
  rewrite app_nil_l. rewrite Forall_forall in Hnew. split_and!.
  - apply Forall_forall. intros e He. specialize (Hnew e He). simpl in *. lia.
  - intros (e & Heq & He)%list_elem_of_fmap. specialize (Hnew e He).
    rewrite <-Heq in Hnew. lia.
  - intros (e & Heq & He)%list_elem_of_fmap. specialize (Hnew e He).
    rewrite <-Heq in Hnew. simpl in Hnew. lia.
Qed.

(** ** The shape of a represented tree *)

Section Shape.

Context (txs paths : list (list Item)) (T : FPTree).
Context (Hinv : tree_inv txs paths T).

Lemma paths_elem p :
  p ∈ paths ↔ p = [] ∨ ∃ t, t ∈ txs ∧ p `prefix_of` t.
Proof.
  split.
  - intros Hp. destruct (decide (p = [])) as [|Hne]; [by left|right].
    by apply (inv_used _ _ _ Hinv).
  - intros [->|(t & Ht & Hpt)].
    + eapply list_elem_of_lookup_2, (inv_p0 _ _ _ Hinv).
    + by eapply (inv_closed _ _ _ Hinv).
Qed.

Lemma path_pos i p : paths !! i = Some p → (0 < i)%nat ↔ p ≠ [].
Proof.
  intros Hp. pose proof (inv_p0 _ _ _ Hinv) as H0. split.
  - intros Hi ->. pose proof (lookup_paths_inj _ _ _ _ _ _ Hinv Hp H0). lia.
  - intros Hne. destruct i; [|lia]. congruence.
Qed.

Lemma node_path i n :
  _nodes T !! i = Some n → ∃ p, paths !! i = Some p.
Proof.
  intros Hn. apply (tree_inv_lookup _ _ _ i Hinv). by eexists.
Qed.

Lemma path_node i p :
  paths !! i = Some p → ∃ n, _nodes T !! i = Some n.
Proof.
  intros Hp. apply (tree_inv_lookup _ _ _ i Hinv). by eexists.
Qed.

Lemma cnt_prefix_pos p : p ∈ paths → p ≠ [] → (0 < cnt_prefix p txs)%nat.
Proof.
  intros Hp Hne. destruct (inv_used _ _ _ Hinv p Hp Hne) as (t & Ht & Hpt).
  unfold cnt_prefix.
  assert (t ∈ filter (λ t, p `prefix_of` t) txs) as Hin
    by by apply list_elem_of_filter.
  destruct (filter _ txs); [by apply elem_of_nil in Hin|simpl; lia].
Qed.

(** Child dict and parent pointer agree. *)
Lemma child_iff j pn q x i :
  _nodes T !! j = Some pn → paths !! j = Some q →
  searchChildren pn x = Some i ↔ paths !! i = Some (q ++ [x]).
Proof.
  intros Hpn Hq.
  destruct (inv_children _ _ _ Hinv j pn q Hpn Hq) as [Hnd Hch].
  unfold searchChildren. rewrite (dict_get_Some _ _ _ Hnd), Hch. split.
  - by intros (y & [= <-] & ?).
  - intros ?. by exists x.
Qed.

Lemma child_None j pn q x :
  _nodes T !! j = Some pn → paths !! j = Some q →
  searchChildren pn x = None ↔ q ++ [x] ∉ paths.
Proof.
  intros Hpn Hq. split.
  - intros Hs [i Hi]%list_elem_of_lookup.
    apply (child_iff j pn q x i Hpn Hq) in Hi. congruence.
  - intros Hnot. destruct (searchChildren pn x) as [i|] eqn:Hs; [|done].
    apply (child_iff j pn q x i Hpn Hq) in Hs.
    destruct Hnot. by eapply list_elem_of_lookup_2.
Qed.

Lemma descend_spec p : ∀ c q,
  paths !! c = Some q →
  ∀ j, descend T c p = Some j ↔ paths !! j = Some (q ++ p).
Proof.
  induction p as [|x p IH]; intros c q Hq j; simpl.
  - rewrite app_nil_r. split.
    + by intros [= <-].
    + intros Hj. f_equal. by eapply lookup_paths_inj.
  - destruct (path_node c q Hq) as [cn Hcn]. rewrite Hcn. simpl.
    replace (q ++ x :: p) with ((q ++ [x]) ++ p) by by rewrite <-app_assoc.
    destruct (searchChildren cn x) as [i|] eqn:Hs; simpl.
    + apply (child_iff c cn q x i Hcn Hq) in Hs. by apply IH.
    + split; [done|]. intros Hj.
      apply (child_None c cn q x Hcn Hq) in Hs. destruct Hs.
      apply paths_elem. right.
      assert ((q ++ [x]) ++ p ∈ paths) as Hin
        by by eapply list_elem_of_lookup_2.
      apply paths_elem in Hin as [Hnil|(t & Ht & Hpt)].
      { by destruct q. }
      exists t. split; [done|]. etrans; [|exact Hpt]. by apply prefix_app_r.
Qed.

(** The prefix path of a node, as [collectPath] builds it. *)
Lemma collectPath_while_spec p : ∀ i,
  paths !! i = Some p →
  ∃ ns, length ns = length p ∧
        Forall2 (λ c x, ∃ n, _nodes T !! c = Some n ∧ _item n = Some x) ns p ∧
        (p ≠ [] → last ns = Some i) ∧
        ∀ fuel acc, (length p < fuel)%nat →
          collectPath_while fuel T (Some i) acc = Ok (acc ++ reverse ns).
Proof.
  induction p as [|x q IH] using rev_ind; intros i Hp.
  - exists []. split_and!; [done|constructor|done|].
    intros fuel acc Hf. destruct fuel as [|fuel]; [simpl in Hf; lia|].
    simpl. unfold deref.
    assert (i = 0%nat) as -> by
      (eapply lookup_paths_inj; [done..|apply (inv_p0 _ _ _ Hinv)]).
    destruct (inv_n0 _ _ _ Hinv) as [ch ->]. simpl. by rewrite app_nil_r.
  - assert (0 < i)%nat as Hpos by (apply (path_pos i _ Hp); by destruct q).
    destruct (path_node i _ Hp) as [n Hn].
    destruct (inv_node _ _ _ Hinv i n _ Hpos Hn Hp)
      as (x' & j & q' & Heq & Hitem & Hcnt & Hpar & Hji & Hq' & Hid).
    apply app_inj_tail in Heq as [<- <-].
    destruct (IH j Hq') as (ns & Hlen & Hall & Hlast & Hrun).
    exists (ns ++ [i]). split_and!.
    + rewrite !length_app. simpl. lia.
    + apply Forall2_app; [done|]. repeat constructor. by exists n.
    + intros _. by rewrite last_snoc.
    + intros fuel acc Hf. rewrite length_app in Hf. simpl in Hf.
      destruct fuel as [|fuel]; [lia|]. simpl. unfold deref. rewrite Hn.
      unfold is_root. rewrite Hitem, Hpar.
      rewrite Hrun by lia. by rewrite reverse_snoc, <-app_assoc.
Qed.

Lemma path_length_bound i p : paths !! i = Some p → (length p ≤ i)%nat.
Proof.
  revert i. induction p as [|x q IH] using rev_ind; intros i Hp; [simpl; lia|].
  assert (0 < i)%nat as Hpos by (apply (path_pos i _ Hp); by destruct q).
  destruct (path_node i _ Hp) as [n Hn].
  destruct (inv_node _ _ _ Hinv i n _ Hpos Hn Hp)
    as (x' & j & q' & Heq & _ & _ & _ & Hji & Hq' & _).
  apply app_inj_tail in Heq as [<- <-]. apply IH in Hq'.
  rewrite length_app. simpl. lia.
Qed.

Lemma collectPath_spec i p fuel :
  paths !! i = Some p → (_nodesCount T < fuel)%nat →
  ∃ ns, collectPath fuel T i = Ok ns ∧ path_items T ns = Some p ∧
        (p ≠ [] → last ns = Some i).
Proof.
  intros Hp Hf. destruct (collectPath_while_spec p i Hp)
    as (ns & Hlen & Hall & Hlast & Hrun).
  exists ns. unfold collectPath. rewrite Hrun.
  - simpl. rewrite reverse_involutive. split_and!; [done| |done].
    apply mapM_Some. eapply Forall2_impl; [exact Hall|].
    intros c x (n & Hn & Hx). rewrite Hn. simpl. exact Hx.
  - pose proof (path_length_bound i p Hp).
    apply lookup_lt_Some in Hp. rewrite (inv_plen _ _ _ Hinv) in Hp. lia.
Qed.

(** The neighbour chain of an item, as [nodes] walks it. *)
Lemma nodes_while_linked : ∀ L a fuel,
  linked T a L → (length L + 1 < fuel)%nat →
  nodes_while fuel T (Some a) = Ok (a :: L).
Proof.
  induction L as [|b L IH]; intros a fuel Hl Hf; simpl in Hl.
  - destruct fuel as [|[|fuel]]; [simpl in Hf; lia..|].
    unfold nb in Hl. simpl. unfold deref.
    destruct (_nodes T !! a) as [n|]; [|done]. simpl in Hl.
    injection Hl as ->. done.
  - destruct Hl as [Ha Hl]. destruct fuel as [|fuel]; [lia|].
    simpl in Hf. cbn [nodes_while]. unfold deref. unfold nb in Ha.
    destruct (_nodes T !! a) as [n|]; [|done]. simpl in Ha.
    injection Ha as ->. rewrite (IH b fuel Hl) by lia. done.
Qed.

Lemma nodes_spec x fuel :
  (_nodesCount T + 1 < fuel)%nat → nodes fuel T x = Ok (occ paths x).
Proof.
  intros Hf. unfold nodes.
  pose proof (inv_header _ _ _ Hinv x) as Hc.
  pose proof (occ_length _ _ _ Hinv x) as Hlen.
  destruct (occ paths x) as [|a L] eqn:Hocc; simpl in Hc.
  - by rewrite Hc.
  - destruct Hc as (b & _ & -> & Hl). simpl.
    apply nodes_while_linked; [done|]. simpl in Hlen. lia.
Qed.

(** *** Counting: every occurrence of an item is in one count *)

Lemma weight_nil ts i p :
  paths !! i = Some p → weight paths ts [] i = Z.of_nat (cnt_prefix p ts).
Proof.
  intros Hp. unfold weight. rewrite Hp. rewrite decide_False; [done|].
  unfold contains_any. by intros ?%Exists_nil.
Qed.

Lemma sum_counts_weight L :
  (∀ i, i ∈ L → (0 < i)%nat ∧ is_Some (paths !! i)) →
  sum_counts T L = Ok (sumZ (weight paths txs [] <$> L)).
Proof.
  induction L as [|i L IH]; intros HL; [done|].
  destruct (HL i) as [Hpos [p Hp]]; [left|].
  destruct (path_node i p Hp) as [n Hn].
  destruct (inv_node _ _ _ Hinv i n p Hpos Hn Hp)
    as (? & ? & ? & _ & _ & Hc & _).
  cbn [sum_counts]. unfold deref. rewrite Hn, Hc, IH
    by (intros; apply HL; by right).
  rewrite fmap_cons. cbn [sumZ]. by rewrite (weight_nil _ _ _ Hp).
Qed.

Lemma cnt_prefix_cons (p t : list Item) ts :
  cnt_prefix p (t :: ts)
    = ((if decide (p `prefix_of` t) then 1 else 0) + cnt_prefix p ts)%nat.
Proof. unfold cnt_prefix. rewrite filter_cons. by case_decide. Qed.

Lemma sumZ_indicator {A : Type} (Q : A → Prop) `{!∀ x, Decision (Q x)} l :
  sumZ ((λ x, if decide (Q x) then 1 else 0) <$> l)
    = Z.of_nat (length (filter Q l)).
Proof.
  induction l as [|x l IH]; [done|].
  rewrite fmap_cons, filter_cons. cbn [sumZ]. rewrite IH.
  case_decide; simpl; lia.
Qed.

Lemma sum_cnt_prefix (P : list (list Item)) ts :
  sumZ ((λ p, Z.of_nat (cnt_prefix p ts)) <$> P)
    = sumZ ((λ t, Z.of_nat (length (filter (λ p, p `prefix_of` t) P))) <$> ts).
Proof.
  induction ts as [|t ts IH].
  - simpl. by apply sumZ_zero.
  - rewrite fmap_cons. cbn [sumZ]. rewrite <-IH, <-sumZ_indicator, <-sumZ_add.
    f_equal. apply list_fmap_ext. intros _ p _. rewrite cnt_prefix_cons.
    case_decide; lia.
Qed.

Lemma filter_none {A : Type} (Q : A → Prop) `{!∀ x, Decision (Q x)} l :
  (∀ x, x ∈ l → ¬ Q x) → filter Q l = [].
Proof.
  induction l as [|x l IH]; intros Hl; [done|].
  rewrite filter_cons, decide_False by (apply Hl; left).
  apply IH. intros y Hy. apply Hl. by right.
Qed.

Lemma prefix_filter_snoc (P : list (list Item)) t y :
  NoDup P →
  length (filter (λ p, p `prefix_of` t ++ [y]) P)
    = (length (filter (λ p, p `prefix_of` t) P)
       + if decide (t ++ [y] ∈ P) then 1 else 0)%nat.
Proof.
  induction 1 as [|p P Hp Hnd IH]; [done|].
  rewrite !filter_cons.
  destruct (decide (p = t ++ [y])) as [->|Hne].
  - rewrite (decide_True (P := t ++ [y] `prefix_of` t ++ [y])) by done.
    rewrite (decide_False (P := t ++ [y] `prefix_of` t))
      by apply prefix_snoc_not.
    rewrite (decide_True (P := t ++ [y] ∈ (t ++ [y]) :: P)) by left.
    rewrite (decide_False (P := t ++ [y] ∈ P)) in IH by done.
    simpl. lia.
  - assert ((if decide (t ++ [y] ∈ p :: P) then 1 else 0)
            = (if decide (t ++ [y] ∈ P) then 1 else 0))%nat as ->.
    { apply decide_ext. rewrite elem_of_cons. naive_solver. }
    destruct (decide (p `prefix_of` t)) as [Hpt|Hpt].
    + rewrite decide_True by (apply prefix_snoc_iff; by left).
      simpl. rewrite IH. lia.
    + rewrite decide_False by (rewrite prefix_snoc_iff; naive_solver).
      by rewrite IH.
Qed.

(** The nodes on the way of a sequence whose prefixes are all in the tree. *)
Lemma prefix_filter_nonempty t :
  (∃ t0, t0 ∈ txs ∧ t `prefix_of` t0) →
  length (filter (λ p, p `prefix_of` t) (filter (λ p, p ≠ []) paths))
    = length t.
Proof.
  pose proof (NoDup_filter (λ p, p ≠ []) _ (inv_nodup _ _ _ Hinv)) as Hnd.
  induction t as [|y t IH] using rev_ind; intros (t0 & Ht0 & Hpre).
  - rewrite filter_none; [done|].
    intros p [Hne _]%list_elem_of_filter ->%prefix_nil_inv. done.
  - rewrite (prefix_filter_snoc _ _ _ Hnd), IH, length_app.
    2:{ exists t0. split; [done|]. etrans; [|exact Hpre]. by apply prefix_app_r. }
    rewrite decide_True; [done|]. apply list_elem_of_filter. split.
    + by destruct t.
    + apply paths_elem. right. eauto.
Qed.

Lemma prefix_filter_item x t :
  (∃ t0, t0 ∈ txs ∧ t `prefix_of` t0) →
  length (filter (λ p, p `prefix_of` t) (filter (λ p, last p = Some x) paths))
    = length (filter (λ y, y = x) t).
Proof.
  pose proof (NoDup_filter (λ p, last p = Some x) _ (inv_nodup _ _ _ Hinv))
    as Hnd.
  induction t as [|y t IH] using rev_ind; intros (t0 & Ht0 & Hpre).
  - rewrite filter_none; [done|].
    intros p [Hl _]%list_elem_of_filter ->%prefix_nil_inv. done.
  - rewrite (prefix_filter_snoc _ _ _ Hnd), IH, filter_app, length_app.
    2:{ exists t0. split; [done|]. etrans; [|exact Hpre]. by apply prefix_app_r. }
    f_equal. rewrite filter_cons, filter_nil.
    destruct (decide (y = x)) as [->|Hne].
    + rewrite decide_True; [done|]. apply list_elem_of_filter. split.
      * apply last_snoc.
      * apply paths_elem. right. eauto.
    + rewrite decide_False; [done|].
      intros [Hl _]%list_elem_of_filter. rewrite last_snoc in Hl. congruence.
Qed.

Lemma sumZ_filter {A : Type} (Q : A → Prop) `{!∀ x, Decision (Q x)}
    (f : A → Z) l :
  sumZ ((λ x, if decide (Q x) then f x else 0) <$> l) = sumZ (f <$> filter Q l).
Proof.
  induction l as [|x l IH]; [done|].
  rewrite fmap_cons, filter_cons. cbn [sumZ]. rewrite IH.
  case_decide; [by rewrite fmap_cons|lia].
Qed.

Lemma sumZ_ext_in {A : Type} (f g : A → Z) l :
  (∀ x, x ∈ l → f x = g x) → sumZ (f <$> l) = sumZ (g <$> l).
Proof.
  intros Hfg. f_equal. apply list_fmap_ext. intros i x Hx. apply Hfg.
  by eapply list_elem_of_lookup_2.
Qed.

Lemma sum_lengths (ts : list (list Item)) :
  sumZ ((λ t, Z.of_nat (length t)) <$> ts) = Z.of_nat (length (mjoin ts)).
Proof.
  induction ts as [|t ts IH]; [done|].
  rewrite fmap_cons. change (mjoin (t :: ts)) with (t ++ mjoin ts).
  cbn [sumZ]. rewrite length_app, IH. lia.
Qed.

Lemma sum_occurrences x (ts : list (list Item)) :
  sumZ ((λ t, Z.of_nat (length (filter (λ y, y = x) t))) <$> ts)
    = occurrences x ts.
Proof.
  unfold occurrences. induction ts as [|t ts IH]; [done|].
  rewrite fmap_cons. change (mjoin (t :: ts)) with (t ++ mjoin ts).
  cbn [sumZ]. rewrite filter_app, length_app, IH. lia.
Qed.

(** The counts of all nodes add up to the number of items of the dataset. *)
Lemma total_count_spec : total_count T = Z.of_nat (length (mjoin txs)).
Proof.
  unfold total_count.
  assert ((λ n, default 0 (_count n)) <$> _nodes T
          = (λ p, if decide (p ≠ []) then Z.of_nat (cnt_prefix p txs) else 0)
              <$> paths) as ->.
  { apply list_eq. intros i. rewrite !list_lookup_fmap.
    destruct (paths !! i) as [p|] eqn:Hp.
    - destruct (path_node i p Hp) as [n Hn]. rewrite Hn. simpl. f_equal.
      destruct (decide (p ≠ [])) as [Hne|Heq].
      + apply (path_pos i p Hp) in Hne.
        destruct (inv_node _ _ _ Hinv i n p Hne Hn Hp)
          as (? & ? & ? & _ & _ & -> & _). done.
      + assert (i = 0%nat) as ->.
        { destruct i; [done|]. destruct Heq. apply (path_pos _ _ Hp). lia. }
        destruct (inv_n0 _ _ _ Hinv) as [ch Hn0]. rewrite Hn0 in Hn.
        by injection Hn as <-.
    - destruct (_nodes T !! i) as [n|] eqn:Hn; [|done].
      destruct (node_path i n Hn) as [p Hp']. congruence. }
  rewrite (sumZ_filter (λ p, p ≠ [])), sum_cnt_prefix, <-sum_lengths.
  apply sumZ_ext_in. intros t Ht. f_equal.
  apply prefix_filter_nonempty. by exists t.
Qed.

Lemma occ_paths x :
  (λ i, default [] (paths !! i)) <$> occ paths x
    = filter (λ p, last p = Some x) paths.
Proof.
  clear Hinv. induction paths as [|p l IH] using rev_ind; [done|].
  rewrite occ_snoc, fmap_app, filter_app, <-IH. f_equal.
  - apply list_fmap_ext. intros _ i Hi%list_elem_of_lookup_2.
    apply elem_of_occ in Hi as (q & Hq & _).
    by rewrite (lookup_app_l_Some _ _ _ _ Hq), Hq.
  - rewrite filter_cons, filter_nil. case_decide; [|done].
    simpl. by rewrite list_lookup_middle.
Qed.

Lemma occ_pos x i : i ∈ occ paths x → (0 < i)%nat ∧ is_Some (paths !! i).
Proof.
  intros (p & Hp & Hl)%elem_of_occ. split; [|by eexists].
  apply (path_pos i p Hp). by intros ->.
Qed.

(** The counts of the nodes of an item add up to its occurrences. *)
Lemma sum_counts_occ x : sum_counts T (occ paths x) = Ok (occurrences x txs).
Proof.
  rewrite sum_counts_weight by apply occ_pos. f_equal.
  rewrite (sumZ_ext_in _
             (λ i, Z.of_nat (cnt_prefix (default [] (paths !! i)) txs))).
  2:{ intros i (p & Hp & _)%elem_of_occ.
      by rewrite (weight_nil _ _ _ Hp), Hp. }
  trans (sumZ ((λ p, Z.of_nat (cnt_prefix p txs))
                  <$> ((λ i, default [] (paths !! i)) <$> occ paths x))).
  { by rewrite <-list_fmap_compose. }
  rewrite occ_paths.
  rewrite sum_cnt_prefix, <-sum_occurrences.
  apply sumZ_ext_in. intros t Ht. f_equal.
  apply prefix_filter_item. by exists t.
Qed.

(** *** A node and its children *)

Lemma sum_counts_children src sn p :
  _nodes T !! src = Some sn → paths !! src = Some p →
  sum_counts T (children sn)
    = Ok (Z.of_nat (length (filter (λ t, p `prefix_of` t ∧ t ≠ p) txs))).
Proof.
  intros Hn Hp.
  assert (∀ c, c ∈ children sn → (0 < c)%nat ∧ is_Some (paths !! c)) as Hch.
  { intros c [z Hz]%(children_paths _ _ _ Hinv src sn p c Hn Hp).
    split; [|by eexists]. apply (path_pos c _ Hz). by destruct p. }
  rewrite sum_counts_weight by done. f_equal.
  trans (Z.of_nat
           (length (filter (λ t, p `prefix_of` t ∧ t ≠ p ∧ True) txs))).
  2:{ do 2 f_equal. apply filter_ext_in. tauto. }
  rewrite <-(children_partition _ _ _ Hinv (λ _, True) src sn p Hn Hp txs)
    by done.
  apply sumZ_ext_in. intros c [_ [pc Hpc]]%Hch.
  rewrite (weight_nil _ _ _ Hpc). unfold under, cnt_prefix. rewrite Hpc.
  do 2 f_equal. apply filter_ext_in. tauto.
Qed.

Lemma cnt_prefix_split (p : list Item) ts :
  cnt_prefix p ts
    = (length (filter (λ t, t = p) ts)
       + length (filter (λ t, p `prefix_of` t ∧ t ≠ p) ts))%nat.
Proof.
  unfold cnt_prefix. induction ts as [|t ts IH]; [done|].
  rewrite !filter_cons. destruct (decide (t = p)) as [->|Hne].
  - rewrite decide_True by done. rewrite decide_False by tauto.
    simpl. lia.
  - destruct (decide (p `prefix_of` t)).
    + rewrite decide_True by done. simpl. lia.
    + rewrite decide_False by tauto. lia.
Qed.

Lemma leaf_children sn : leaf sn = true ↔ children sn = [].
Proof.
  unfold leaf, children. rewrite bool_decide_eq_true.
  destruct (_children sn); simpl; naive_solver.
Qed.

(** *** The number of nodes *)

Lemma elem_of_nonempty_prefixes (p t : list Item) :
  p ∈ nonempty_prefixes t ↔ p ≠ [] ∧ p `prefix_of` t.
Proof.
  unfold nonempty_prefixes. rewrite list_elem_of_fmap. split.
  - intros (k & -> & Hk%elem_of_seq). split; [|apply prefix_take].
    destruct t, k; simpl in *; try done; lia.
  - intros [Hne [k ->]]. exists (length p). rewrite take_app_length.
    split; [done|]. apply elem_of_seq. rewrite length_app.
    destruct p; [done|simpl; lia].
Qed.

Lemma nodesCount_spec : _nodesCount T = length (distinct_prefixes txs).
Proof.
  pose proof (inv_plen _ _ _ Hinv) as Hlen.
  pose proof (inv_p0 _ _ _ Hinv) as H0.
  pose proof (inv_nodup _ _ _ Hinv) as Hnd.
  assert (∃ ps, paths = [] :: ps) as [ps Hps].
  { clear -H0. destruct paths as [|p0 ps]; [done|].
    simpl in H0. injection H0 as ->. by exists ps. }
  rewrite Hps in Hlen, Hnd.
  simpl in Hlen. injection Hlen as <-. apply NoDup_cons in Hnd as [Hnil Hnd].
  apply Permutation_length, NoDup_Permutation;
    [done|apply NoDup_remove_dups|].
  intros p. unfold distinct_prefixes.
  rewrite elem_of_remove_dups, list_elem_of_bind.
  setoid_rewrite elem_of_nonempty_prefixes. split.
  - intros Hp. assert (p ≠ []) as Hne by by intros ->.
    assert (p ∈ paths) as Hin by (rewrite Hps; by right).
    apply paths_elem in Hin as [?|(t & Ht & Hpt)]; [done|]. eauto.
  - intros (t & [Hne Hpt] & Ht).
    assert (p ∈ paths) as Hin by (apply paths_elem; eauto).
    rewrite Hps in Hin. apply elem_of_cons in Hin as [?|?]; done.
Qed.

(** *** The prefix paths of an item *)

Lemma prefixPaths_for_spec fuel : (_nodesCount T < fuel)%nat →
  ∀ L, Forall (λ i, is_Some (paths !! i)) L →
  ∃ pps, prefixPaths_for fuel T L = Ok pps ∧
         mapM (path_items T) pps = Some ((λ i, default [] (paths !! i)) <$> L) ∧
         Forall2 (λ i ns, paths !! i ≠ Some [] → last ns = Some i) L pps.
Proof.
  intros Hf. induction 1 as [|i L [p Hp] _ (pps & Hrun & Hitems & Hlast)].
  - exists []. by split_and!; [..|constructor].
  - destruct (collectPath_spec i p fuel Hp Hf) as (ns & Hc & Hi & Hl).
    exists (ns :: pps). cbn [prefixPaths_for]. rewrite Hc, Hrun.
    split_and!; [done|..].
    + rewrite fmap_cons, Hp. simpl. by rewrite Hi, Hitems.
    + constructor; [|done]. intros Hne. apply Hl. congruence.
Qed.

(** *** One item: no ancestor is looked at *)

Lemma findSupport_while_first fuel S itemsOrder : ∀ L a n support,
  linked T a L →
  (∀ i, i ∈ a :: L → (0 < i)%nat ∧ is_Some (paths !! i)) →
  (length L + 1 < n)%nat →
  findSupport_while n fuel S 0 (Some a) T itemsOrder support
    = Ok (support + sumZ (weight paths txs [] <$> (a :: L))).
Proof.
  induction L as [|b L IH]; intros a n support Hl Hin Hn.
  - destruct n as [|[|n]]; [simpl in Hn; lia..|].
    destruct (Hin a) as [Hpos [p Hp]]; [left|].
    destruct (path_node a p Hp) as [xn Hxn].
    destruct (inv_node _ _ _ Hinv a xn p Hpos Hxn Hp)
      as (? & ? & ? & _ & _ & Hc & _).
    simpl in Hl. unfold nb in Hl. rewrite Hxn in Hl. injection Hl as Hnb.
    cbn [findSupport_while]. unfold checkPath.
    change (Z.to_nat (Z.of_nat 0 - 1 + 1)) with 0%nat. cbn [checkPath_rec].
    unfold deref. rewrite Hxn, Hc, Hnb. cbn [fmap list_fmap sumZ].
    rewrite (weight_nil _ _ _ Hp). f_equal. lia.
  - destruct n as [|n]; [lia|]. simpl in Hn.
    destruct (Hin a) as [Hpos [p Hp]]; [left|].
    destruct (path_node a p Hp) as [xn Hxn].
    destruct (inv_node _ _ _ Hinv a xn p Hpos Hxn Hp)
      as (? & ? & ? & _ & _ & Hc & _).
    destruct Hl as [Hnb Hl]. unfold nb in Hnb. rewrite Hxn in Hnb.
    injection Hnb as Hnb.
    cbn [findSupport_while]. unfold checkPath.
    change (Z.to_nat (Z.of_nat 0 - 1 + 1)) with 0%nat. cbn [checkPath_rec].
    unfold deref. rewrite Hxn, Hc, Hnb.
    rewrite (IH b n) by (try done; try lia; intros; apply Hin; by right).
    rewrite (fmap_cons _ a). cbn [sumZ]. rewrite (weight_nil _ _ _ Hp).
    f_equal. lia.
Qed.

Lemma findSupport_single fuel x itemsOrder :
  (_nodesCount T < fuel)%nat →
  findSupportByPrefixPath fuel [x] T itemsOrder
    = if decide (x ∈ mjoin txs) then Ok (occurrences x txs)
      else Raise KeyError.
Proof.
  intros Hf. unfold findSupportByPrefixPath. cbn [length seq findSupport_for].
  rewrite (getitem_nat [x] 0). cbn [lookup list_lookup].
  pose proof (header_is_Some _ _ _ Hinv x) as Hh.
  destruct (_header T !! Some x) as [ht|] eqn:Hht.
  - rewrite decide_True.
    2:{ apply list_elem_of_join. destruct (proj1 Hh) as (t & ? & ?); eauto. }
    destruct (header_chain _ _ _ Hinv x ht Hht) as (L & Hocc & Hl).
    pose proof (occ_length _ _ _ Hinv x) as Hlen. rewrite Hocc in Hlen.
    simpl in Hlen.
    rewrite (findSupport_while_first fuel [x] itemsOrder L ht.1 fuel 0 Hl)
      by (try lia; intros i Hi; apply (occ_pos x); by rewrite Hocc).
    pose proof (sum_counts_occ x) as Hs.
    rewrite sum_counts_weight, Hocc in Hs by apply occ_pos.
    injection Hs as Hs. f_equal. etrans; [|exact Hs]. done.
  - rewrite decide_False; [done|].
    intros (t & ? & ?)%list_elem_of_join.
    destruct (proj2 Hh) as [? ?]; [eauto|done].
Qed.

End Shape.

Lemma StronglySorted_sublist {A : Type} (R : relation A) (k l : list A) :
  k `sublist_of` l → StronglySorted R l → StronglySorted R k.
Proof.
  induction 1 as [|x k l Hkl IH|x k l Hkl IH]; intros Hs; [done|..].
  - apply StronglySorted_cons in Hs as [Hall Hs]. constructor; [by apply IH|].
    eapply Forall_forall. intros y Hy. rewrite Forall_forall in Hall.
    apply Hall. by eapply elem_of_sublist.
  - apply StronglySorted_cons in Hs as [_ Hs]. by apply IH.
Qed.

Lemma StronglySorted_seq j n : StronglySorted lt (seq j n).
Proof.
  revert j. induction n as [|n IH]; intros j; simpl; constructor; [done|].
  apply Forall_forall. intros k Hk%elem_of_seq. lia.
Qed.

(** ** The tree that [buildFPTree] returns *)

(** X1. The child dicts and the parent pointers of the tree of [buildFPTree]
    agree: every node but the root is the child that its parent keeps under
    the node's item, and every entry of a child dict leads to a node with
    that item and that parent. *)
Theorem X1_tree_children_and_parents_agree (transactions : list (list Item)) :
  ∃ tree, buildFPTree transactions = Ok tree ∧
    (∀ c cn, _nodes tree !! c = Some cn → c ≠ _root tree →
       ∃ p pn x, _parent cn = Some p ∧ _item cn = Some x ∧
                 _nodes tree !! p = Some pn ∧ searchChildren pn x = Some c) ∧
    (∀ p pn x c, _nodes tree !! p = Some pn → searchChildren pn x = Some c →
       ∃ cn, _nodes tree !! c = Some cn ∧ _parent cn = Some p ∧
             _item cn = Some x ∧ c ≠ _root tree).
Proof.
  destruct (buildFPTree_inv transactions) as (tree & paths & Hb & Hinv).
  exists tree. split; [done|]. rewrite (inv_root _ _ _ Hinv). split.
  - intros c cn Hcn Hc. destruct (node_path _ _ _ Hinv c cn Hcn) as [pc Hpc].
    destruct (inv_node _ _ _ Hinv c cn pc ltac:(lia) Hcn Hpc)
      as (x & j & q & -> & Hitem & _ & Hpar & _ & Hq & _).
    destruct (path_node _ _ _ Hinv j q Hq) as [pn Hpn].
    exists j, pn, x. split_and!; [done..|].
    by apply (child_iff _ _ _ Hinv j pn q x c Hpn Hq).
  - intros p pn x c Hpn Hs.
    destruct (node_path _ _ _ Hinv p pn Hpn) as [q Hq].
    apply (child_iff _ _ _ Hinv p pn q x c Hpn Hq) in Hs.
    destruct (path_node _ _ _ Hinv c _ Hs) as [cn Hcn].
    assert (0 < c)%nat as Hpos
      by (apply (path_pos _ _ _ Hinv c _ Hs); by destruct q).
    destruct (inv_node _ _ _ Hinv c cn _ Hpos Hcn Hs)
      as (x' & j & q' & Heq & Hitem & _ & Hpar & _ & Hq' & _).
    apply app_inj_tail in Heq as [<- <-].
    exists cn. split_and!; [done| |done|lia].
    rewrite Hpar. f_equal. by eapply lookup_paths_inj.
Qed.

(** X2. The root of the tree of [buildFPTree] is the only node for which the
    property [root] holds, and it has no parent. *)
Theorem X2_root_is_the_only_root (transactions : list (list Item)) :
  ∃ tree, buildFPTree transactions = Ok tree ∧
    ∀ i n, _nodes tree !! i = Some n →
      (is_root n = true ↔ i = _root tree) ∧
      (_parent n = None ↔ i = _root tree).
Proof.
  destruct (buildFPTree_inv transactions) as (tree & paths & Hb & Hinv).
  exists tree. split; [done|]. rewrite (inv_root _ _ _ Hinv). intros i n Hn.
  destruct i as [|i].
  - destruct (inv_n0 _ _ _ Hinv) as [ch Hn0]. rewrite Hn0 in Hn.
    by injection Hn as <-.
  - destruct (node_path _ _ _ Hinv _ _ Hn) as [p Hp].
    destruct (inv_node _ _ _ Hinv (S i) n p ltac:(lia) Hn Hp)
      as (x & j & q & -> & Hitem & _ & Hpar & _).
    unfold is_root. rewrite Hitem, Hpar. done.
Qed.

(** X3. The node IDs of the tree of [buildFPTree], in the order in which the
    nodes were created, are 0 for the root and then 1, 2, ... up to
    [nodesCount]: no ID is used twice and none is beyond [nodesCount]. *)
Theorem X3_node_ids_count_up (transactions : list (list Item)) :
  ∃ tree, buildFPTree transactions = Ok tree ∧
    _nodeID <$> _nodes tree = seq 0 (S (_nodesCount tree)).
Proof.
  destruct (buildFPTree_inv transactions) as (tree & paths & Hb & Hinv).
  exists tree. split; [done|]. apply list_eq. intros i.
  rewrite list_lookup_fmap.
  destruct (_nodes tree !! i) as [n|] eqn:Hn.
  - pose proof (lookup_lt_Some _ _ _ Hn) as Hlt.
    rewrite (inv_len _ _ _ Hinv) in Hlt. rewrite lookup_seq_lt by done.
    simpl. f_equal. destruct i as [|i].
    + destruct (inv_n0 _ _ _ Hinv) as [ch Hn0]. rewrite Hn0 in Hn.
      by injection Hn as <-.
    + destruct (node_path _ _ _ Hinv _ _ Hn) as [p Hp].
      by destruct (inv_node _ _ _ Hinv (S i) n p ltac:(lia) Hn Hp)
        as (? & ? & ? & _ & _ & _ & _ & _ & _ & ->).
  - apply lookup_ge_None in Hn. rewrite (inv_len _ _ _ Hinv) in Hn.
    by rewrite lookup_seq_ge.
Qed.

(** X4. The tree of [buildFPTree] has one node, besides the root, for every
    distinct non-empty prefix of a transaction: transactions that start
    alike share their nodes. *)
Theorem X4_node_count_is_number_of_prefixes (transactions : list (list Item)) :
  ∃ tree, buildFPTree transactions = Ok tree ∧
    _nodesCount tree = length (distinct_prefixes transactions).
Proof.
  destruct (buildFPTree_inv transactions) as (tree & paths & Hb & Hinv).
  exists tree. split; [done|]. by eapply nodesCount_spec.
Qed.

(** X5. In the tree of [buildFPTree], [collectPath] returns for every node
    but the root the path from below the root to the node itself, and the
    count of the node is the number of transactions that start with the
    items of that path; there is at least one. *)
Theorem X5_node_count_is_prefix_frequency (transactions : list (list Item)) :
  ∃ tree, buildFPTree transactions = Ok tree ∧
    ∀ fuel i n, (_nodesCount tree < fuel)%nat →
      _nodes tree !! i = Some n → i ≠ _root tree →
      ∃ path p, collectPath fuel tree i = Ok path ∧
                path_items tree path = Some p ∧ last path = Some i ∧
                _count n = Some (Z.of_nat (cnt_prefix p transactions)) ∧
                (0 < cnt_prefix p transactions)%nat.
Proof.
  destruct (buildFPTree_inv transactions) as (tree & paths & Hb & Hinv).
  exists tree. split; [done|]. rewrite (inv_root _ _ _ Hinv).
  intros fuel i n Hf Hn Hi.
  destruct (node_path _ _ _ Hinv i n Hn) as [p Hp].
  destruct (collectPath_spec _ _ _ Hinv i p fuel Hp Hf) as (ns & Hc & Hit & Hl).
  assert (p ≠ []) as Hne by (apply (path_pos _ _ _ Hinv i p Hp); lia).
  destruct (inv_node _ _ _ Hinv i n p ltac:(lia) Hn Hp)
    as (? & ? & ? & _ & _ & Hcnt & _).
  exists ns, p. split_and!; [done|done|by apply Hl|done|].
  eapply cnt_prefix_pos; [done| |done]. by eapply list_elem_of_lookup_2.
Qed.

(** X6. In the tree of [buildFPTree], the count of a node is the sum of the
    counts of its children plus the number of transactions that end at the
    node, that is, that are equal to the items of its path. *)
Theorem X6_node_count_is_children_plus_ending (transactions : list (list Item)) :
  ∃ tree, buildFPTree transactions = Ok tree ∧
    ∀ fuel i n, (_nodesCount tree < fuel)%nat →
      _nodes tree !! i = Some n → i ≠ _root tree →
      ∃ path p s, collectPath fuel tree i = Ok path ∧
                  path_items tree path = Some p ∧
                  sum_counts tree (children n) = Ok s ∧
                  _count n
                    = Some (s + Z.of_nat (length (filter (λ t, t = p)
                                                    transactions))).
Proof.
  destruct (buildFPTree_inv transactions) as (tree & paths & Hb & Hinv).
  exists tree. split; [done|]. rewrite (inv_root _ _ _ Hinv).
  intros fuel i n Hf Hn Hi.
  destruct (node_path _ _ _ Hinv i n Hn) as [p Hp].
  destruct (collectPath_spec _ _ _ Hinv i p fuel Hp Hf) as (ns & Hc & Hit & Hl).
  destruct (inv_node _ _ _ Hinv i n p ltac:(lia) Hn Hp)
    as (? & ? & ? & _ & _ & Hcnt & _).
  eexists ns, p, _. split_and!; [done|done| |].
  - by eapply sum_counts_children.
  - rewrite Hcnt, (cnt_prefix_split p transactions). f_equal. lia.
Qed.

(** X7. A leaf of the tree of [buildFPTree], the root apart, stands for whole
    transactions: the items of its path are a transaction of the dataset, and
    its count is the number of copies of that transaction. *)
Theorem X7_leaf_is_a_transaction (transactions : list (list Item)) :
  ∃ tree, buildFPTree transactions = Ok tree ∧
    ∀ fuel i n, (_nodesCount tree < fuel)%nat →
      _nodes tree !! i = Some n → i ≠ _root tree → leaf n = true →
      ∃ path p, collectPath fuel tree i = Ok path ∧
                path_items tree path = Some p ∧ p ∈ transactions ∧
                _count n
                  = Some (Z.of_nat (length (filter (λ t, t = p) transactions))).
Proof.
  destruct (buildFPTree_inv transactions) as (tree & paths & Hb & Hinv).
  exists tree. split; [done|]. rewrite (inv_root _ _ _ Hinv).
  intros fuel i n Hf Hn Hi Hleaf.
  destruct (node_path _ _ _ Hinv i n Hn) as [p Hp].
  destruct (collectPath_spec _ _ _ Hinv i p fuel Hp Hf) as (ns & Hc & Hit & Hl).
  assert (p ≠ []) as Hne by (apply (path_pos _ _ _ Hinv i p Hp); lia).
  destruct (inv_node _ _ _ Hinv i n p ltac:(lia) Hn Hp)
    as (? & ? & ? & _ & _ & Hcnt & _).
  pose proof (sum_counts_children _ _ _ Hinv i n p Hn Hp) as Hsum.
  apply leaf_children in Hleaf. rewrite Hleaf in Hsum. simpl in Hsum.
  injection Hsum as Hsum.
  assert (cnt_prefix p transactions
          = length (filter (λ t, t = p) transactions)) as Heq
    by (rewrite (cnt_prefix_split p transactions); lia).
  exists ns, p. split_and!; [done|done| |by rewrite Hcnt, Heq].
  assert (0 < cnt_prefix p transactions)%nat as Hpos.
  { eapply cnt_prefix_pos; [done| |done]. by eapply list_elem_of_lookup_2. }
  rewrite Heq in Hpos.
  destruct (filter (λ t, t = p) transactions) as [|t l] eqn:Hfl;
    [simpl in Hpos; lia|].
  assert (t ∈ filter (λ t, t = p) transactions) as Ht by (rewrite Hfl; left).
  by apply list_elem_of_filter in Ht as [-> ?].
Qed.

(** X8. Each item of the dataset is in exactly one count: the counts of all
    nodes of the tree of [buildFPTree] add up to the number of items of all
    transactions together. *)
Theorem X8_counts_add_up_to_dataset_size (transactions : list (list Item)) :
  ∃ tree, buildFPTree transactions = Ok tree ∧
    total_count tree = Z.of_nat (length (mjoin transactions)).
Proof.
  destruct (buildFPTree_inv transactions) as (tree & paths & Hb & Hinv).
  exists tree. split; [done|]. by eapply total_count_spec.
Qed.

(** X9. Going down from the root of the tree of [buildFPTree] along a
    non-empty sequence of items, with [searchChildren] at every step,
    reaches a node exactly when a transaction starts with the sequence, and
    the count of that node is the number of these transactions. *)
Theorem X9_descend_finds_inserted_prefixes (transactions : list (list Item)) :
  ∃ tree, buildFPTree transactions = Ok tree ∧
    ∀ p, p ≠ [] →
      match descend tree (_root tree) p with
      | Some i => ∃ n, _nodes tree !! i = Some n ∧
                       _count n = Some (Z.of_nat (cnt_prefix p transactions)) ∧
                       (0 < cnt_prefix p transactions)%nat
      | None => cnt_prefix p transactions = 0%nat
      end.
Proof.
  destruct (buildFPTree_inv transactions) as (tree & paths & Hb & Hinv).
  exists tree. split; [done|]. rewrite (inv_root _ _ _ Hinv). intros p Hne.
  pose proof (descend_spec _ _ _ Hinv p 0%nat [] (inv_p0 _ _ _ Hinv)) as Hd.
  destruct (descend tree 0 p) as [i|].
  - pose proof (proj1 (Hd i) eq_refl) as Hp. simpl in Hp.
    destruct (path_node _ _ _ Hinv i p Hp) as [n Hn].
    assert (0 < i)%nat as Hpos by by apply (path_pos _ _ _ Hinv i p Hp).
    destruct (inv_node _ _ _ Hinv i n p Hpos Hn Hp)
      as (? & ? & ? & _ & _ & Hcnt & _).
    exists n. split_and!; [done..|].
    eapply cnt_prefix_pos; [done| |done]. by eapply list_elem_of_lookup_2.
  - apply cnt_prefix_0. intros t Ht Hpt.
    assert (p ∈ paths) as [j Hj]%list_elem_of_lookup
      by (apply (paths_elem _ _ _ Hinv); eauto).
    by apply (Hd j) in Hj.
Qed.

(** X10. For every item, [nodes] yields, on the tree of [buildFPTree], each
    node that carries the item once, in the order of their creation; the
    header entry of the item holds the first and the last of them. For an
    item that is in no transaction it yields nothing and raises nothing. *)
Theorem X10_nodes_yields_the_nodes_of_an_item (transactions : list (list Item))
    (x : Item) :
  ∃ tree, buildFPTree transactions = Ok tree ∧
    ∀ fuel, (_nodesCount tree + 1 < fuel)%nat →
      ∃ ns, nodes fuel tree x = Ok ns ∧
            StronglySorted lt ns ∧
            (∀ i, i ∈ ns ↔ ∃ n, _nodes tree !! i = Some n ∧ _item n = Some x) ∧
            _header tree !! Some x
              = (λ h, (h, default h (last ns))) <$> head ns ∧
            (ns = [] ↔ x ∉ mjoin transactions).
Proof.
  destruct (buildFPTree_inv transactions) as (tree & paths & Hb & Hinv).
  exists tree. split; [done|]. intros fuel Hf.
  exists (occ paths x). split_and!.
  - by eapply nodes_spec.
  - eapply StronglySorted_sublist; [apply sublist_filter|].
    apply StronglySorted_seq.
  - intros i. rewrite elem_of_occ. split.
    + intros (p & Hp & Hl). destruct (path_node _ _ _ Hinv i p Hp) as [n Hn].
      assert (0 < i)%nat as Hpos
        by (apply (path_pos _ _ _ Hinv i p Hp); by intros ->).
      destruct (inv_node _ _ _ Hinv i n p Hpos Hn Hp)
        as (y & ? & q & -> & Hitem & _).
      rewrite last_snoc in Hl. injection Hl as ->. eauto.
    + intros (n & Hn & Hitem).
      destruct (node_path _ _ _ Hinv i n Hn) as [p Hp]. exists p.
      split; [done|]. destruct i as [|i].
      * destruct (inv_n0 _ _ _ Hinv) as [ch Hn0]. rewrite Hn0 in Hn.
        injection Hn as <-. done.
      * destruct (inv_node _ _ _ Hinv (S i) n p ltac:(lia) Hn Hp)
          as (y & ? & q & -> & Hitem' & _).
        rewrite last_snoc. congruence.
  - pose proof (inv_header _ _ _ Hinv x) as Hc.
    destruct (occ paths x) as [|a L]; simpl in Hc; [done|].
    destruct Hc as (b & Hlast & -> & _). simpl. by rewrite Hlast.
  - pose proof (header_is_Some _ _ _ Hinv x) as Hh.
    pose proof (inv_header _ _ _ Hinv x) as Hc.
    rewrite list_elem_of_join. destruct (occ paths x) as [|a L]; simpl in Hc.
    + split; [|done]. intros _ (t & ? & ?). rewrite Hc in Hh.
      destruct (proj2 Hh) as [? ?]; [eauto|done].
    + split; [done|]. intros Hno. destruct Hc as (b & _ & Hc & _).
      rewrite Hc in Hh. destruct (proj1 Hh) as (t & ? & ?); [by eexists|].
      destruct Hno. eauto.
Qed.

(** X11. The counts of the nodes that [nodes] yields for an item add up, on
    the tree of [buildFPTree], to the number of times the item appears in
    the dataset, every appearance in a transaction counted. *)
Theorem X11_nodes_counts_add_up_to_occurrences (transactions : list (list Item))
    (x : Item) :
  ∃ tree, buildFPTree transactions = Ok tree ∧
    ∀ fuel, (_nodesCount tree + 1 < fuel)%nat →
      ∃ ns, nodes fuel tree x = Ok ns ∧
            sum_counts tree ns = Ok (occurrences x transactions).
Proof.
  destruct (buildFPTree_inv transactions) as (tree & paths & Hb & Hinv).
  exists tree. split; [done|]. intros fuel Hf.
  exists (occ paths x). split; [by eapply nodes_spec|].
  by eapply sum_counts_occ.
Qed.

(** X12. For every item, [prefixPaths] yields, on the tree of [buildFPTree],
    one path for every distinct prefix of a transaction that ends with the
    item: the item sequences of the paths are these prefixes, each once. *)
Theorem X12_prefixPaths_are_the_prefixes_ending_with_the_item
    (transactions : list (list Item)) (x : Item) :
  ∃ tree, buildFPTree transactions = Ok tree ∧
    ∀ fuel, (_nodesCount tree + 1 < fuel)%nat →
      ∃ pps ps, prefixPaths fuel tree x = Ok pps ∧
                mapM (path_items tree) pps = Some ps ∧
                NoDup ps ∧
                ∀ p, p ∈ ps ↔
                     last p = Some x ∧
                     ∃ t, t ∈ transactions ∧ p `prefix_of` t.
Proof.
  destruct (buildFPTree_inv transactions) as (tree & paths & Hb & Hinv).
  exists tree. split; [done|]. intros fuel Hf. unfold prefixPaths.
  rewrite (nodes_spec _ _ _ Hinv x fuel Hf).
  destruct (prefixPaths_for_spec _ _ _ Hinv fuel ltac:(lia) (occ paths x))
    as (pps & Hrun & Hitems & _).
  { apply Forall_forall. intros i Hi. by apply (occ_pos _ _ _ Hinv x). }
  exists pps, (filter (λ p, last p = Some x) paths).
  split_and!; [done|by rewrite Hitems, occ_paths| |].
  - apply NoDup_filter, (inv_nodup _ _ _ Hinv).
  - intros p. rewrite list_elem_of_filter, (paths_elem _ _ _ Hinv).
    split; [|naive_solver]. intros [Hl [->|?]]; done.
Qed.

(** X13. For an itemset of one item, [findSupportByPrefixPath] returns, on
    the tree of any dataset and whatever the canonical order, the number of
    times the item appears in the dataset: a transaction that repeats the
    item is counted once for every repetition. For an item that is in no
    transaction it raises [KeyError]. *)
Theorem X13_single_item_support_counts_occurrences
    (transactions : list (list Item)) (x : Item) :
  ∃ tree, buildFPTree transactions = Ok tree ∧
    ∀ fuel itemsOrder, (_nodesCount tree < fuel)%nat →
      findSupportByPrefixPath fuel [x] tree itemsOrder
        = if decide (x ∈ mjoin transactions)
          then Ok (occurrences x transactions)
          else Raise KeyError.
Proof.
  destruct (buildFPTree_inv transactions) as (tree & paths & Hb & Hinv).
  exists tree. split; [done|]. intros fuel itemsOrder Hf.
  by eapply findSupport_single.
Qed.

(** X14. On the tree of canonical transactions, [checkPath] called with the
    index [i = k - 1] tells whether one of the first [k] items of [itemList]
    is the item of a proper ancestor of the node: the items of the path that
    [collectPath] returns for the node, the last left out, are searched. *)
Theorem X14_checkPath_finds_ancestor_items
    (itemsOrder : list Item) (transactions : list (list Item))
    (itemList : list Item) (k : nat) :
  Forall (canonical itemsOrder) transactions →
  Forall (λ x, x ∈ itemsOrder) (take k itemList) →
  (k ≤ length itemList)%nat →
  ∃ tree, buildFPTree transactions = Ok tree ∧
    ∀ fuel X xn, (_nodesCount tree < fuel)%nat →
      _nodes tree !! X = Some xn → X ≠ _root tree →
      ∃ path q x, collectPath fuel tree X = Ok path ∧
                  path_items tree path = Some (q ++ [x]) ∧
                  checkPath fuel itemList (Z.of_nat k - 1) X tree itemsOrder
                    = Ok (bool_decide (contains_any (take k itemList) q)).
Proof.
  intros Htxs Hall Hk.
  destruct (buildFPTree_inv transactions) as (tree & paths & Hb & Hinv).
  exists tree. split; [done|]. rewrite (inv_root _ _ _ Hinv).
  intros fuel X xn Hf Hxn HX.
  destruct (node_path _ _ _ Hinv X xn Hxn) as [p Hp].
  destruct (collectPath_spec _ _ _ Hinv X p fuel Hp Hf) as (ns & Hc & Hit & _).
  destruct (inv_node _ _ _ Hinv X xn p ltac:(lia) Hxn Hp)
    as (x & j & q & -> & _ & _ & Hpar & _ & Hq & _).
  exists ns, q, x. split_and!; [done..|]. unfold checkPath.
  replace (Z.to_nat (Z.of_nat k - 1 + 1)) with k by lia.
  by eapply checkPath_rec_spec.
Qed.

(** ** Adding transactions one by one *)

Lemma addTransaction_loop_ext (ps : list (list Item)) rest : ∀ q paths T c,
  tree_inv (ps ++ [q]) paths T → paths !! c = Some q →
  ∃ T' paths', addTransaction_loop T c rest = Ok T' ∧
               tree_inv (ps ++ [q ++ rest]) paths' T' ∧
               paths `prefix_of` paths'.
Proof.
  induction rest as [|x rest IH]; intros q paths T c Hinv Hc; simpl.
  - exists T, paths. by rewrite app_nil_r.
  - destruct (proj1 (tree_inv_lookup _ _ _ c Hinv)) as [cn Hcn]; [by eexists|].
    destruct (searchChildren cn x) as [j|] eqn:Hs.
    + destruct (step_existing _ _ _ _ _ _ _ _ Hinv Hc Hcn Hs)
        as (T1 & -> & Hinv1 & Hj).
      destruct (IH _ _ _ _ Hinv1 Hj) as (T' & paths' & -> & Hinv' & Hpre).
      exists T', paths'. by rewrite <-app_assoc in Hinv'.
    + destruct (step_new _ _ _ _ _ _ _ Hinv Hc Hcn Hs)
        as (T1 & -> & Hinv1 & Hj).
      destruct (IH _ _ _ _ Hinv1 Hj) as (T' & paths' & -> & Hinv' & Hpre).
      exists T', paths'. rewrite <-app_assoc in Hinv'. split_and!; [done..|].
      etrans; [|exact Hpre]. by apply prefix_app_r.
Qed.

Lemma addTransaction_ext (ps : list (list Item)) paths T t :
  tree_inv ps paths T →
  ∃ T' paths', addTransaction T t = Ok T' ∧ tree_inv (ps ++ [t]) paths' T' ∧
               paths `prefix_of` paths'.
Proof.
  intros Hinv. unfold addTransaction. rewrite (inv_root _ _ _ Hinv).
  apply (addTransaction_loop_ext ps t [] paths T 0%nat).
  - by apply tree_inv_open.
  - apply Hinv.
Qed.

(** X16. [addTransaction] only adds: on the tree of [buildFPTree] it returns
    a tree in which every node that was there before is at its place, with
    the item, the parent and the ID it had, and with a count that is the old
    one or the old one plus one. *)
Theorem X16_addTransaction_keeps_the_nodes (transactions : list (list Item))
    (t : list Item) :
  ∃ tree tree',
    buildFPTree transactions = Ok tree ∧ addTransaction tree t = Ok tree' ∧
    (_nodesCount tree ≤ _nodesCount tree')%nat ∧
    ∀ i n, _nodes tree !! i = Some n →
      ∃ n', _nodes tree' !! i = Some n' ∧ _item n' = _item n ∧
            _parent n' = _parent n ∧ _nodeID n' = _nodeID n ∧
            match _count n with
            | Some c => ∃ c', _count n' = Some c' ∧ c ≤ c' ≤ c + 1
            | None => _count n' = None
            end.
Proof.
  destruct (buildFPTree_inv transactions) as (tree & paths & Hb & Hinv).
  destruct (addTransaction_ext _ _ _ t Hinv)
    as (tree' & paths' & Ha & Hinv' & Hpre).
  exists tree, tree'. split_and!; [done..| |].
  - apply prefix_length in Hpre.
    rewrite (inv_plen _ _ _ Hinv), (inv_plen _ _ _ Hinv') in Hpre. lia.
  - intros i n Hn. destruct (node_path _ _ _ Hinv i n Hn) as [p Hp].
    pose proof (prefix_lookup_Some _ _ _ _ Hp Hpre) as Hp'.
    destruct (path_node _ _ _ Hinv' i p Hp') as [n' Hn']. exists n'.
    split; [done|]. destruct i as [|i].
    + destruct (inv_n0 _ _ _ Hinv) as [ch Hn0].
      destruct (inv_n0 _ _ _ Hinv') as [ch' Hn0'].
      rewrite Hn0 in Hn. rewrite Hn0' in Hn'.
      injection Hn as <-. injection Hn' as <-. done.
    + destruct (inv_node _ _ _ Hinv (S i) n p ltac:(lia) Hn Hp)
        as (x & j & q & -> & Hitem & Hcnt & Hpar & _ & Hq & Hid).
      destruct (inv_node _ _ _ Hinv' (S i) n' _ ltac:(lia) Hn' Hp')
        as (x' & j' & q' & Heq & Hitem' & Hcnt' & Hpar' & _ & Hq' & Hid').
      apply app_inj_tail in Heq as [<- <-].
      pose proof (prefix_lookup_Some _ _ _ _ Hq Hpre) as Hq2.
      assert (j' = j) as -> by by eapply lookup_paths_inj.
      rewrite Hitem, Hitem', Hpar, Hpar', Hid, Hid', Hcnt.
      split_and!; [done..|]. eexists. split; [done|].
      rewrite cnt_prefix_snoc. case_decide; lia.
Qed.

(** ** What the enumeration records *)

Lemma remove_first_sublist (x : Item) L r :
  remove_first x L = Some r → r `sublist_of` L.
Proof.
  revert r. induction L as [|y L IH]; simpl; intros r; [done|].
  case_decide; [intros [= ->]; by apply sublist_cons|].
  destruct (remove_first x L) as [r'|]; [|done]. intros [= <-].
  apply sublist_skip. by apply IH.
Qed.

Section Soundness.

Context (fuel : nat) (minSupp : Z) (fpt : FPTree) (itemsOrder : list Item).

(** Every entry recorded while the candidate [L] is being reduced holds a
    part of [L], in the order of [L], with the value that the support
    calculator returns for it, and this value reaches the threshold. *)
Lemma generateItemsets_sound : ∀ n L depth freq r,
  generateItemsets_while fuel n L 0 depth minSupp fpt itemsOrder freq = Ok r →
  ∃ new, r = freq ++ new ∧
         Forall (λ e : entry,
                   e.1 `sublist_of` L ∧
                   findSupportByPrefixPath fuel e.1 fpt itemsOrder = Ok e.2 ∧
                   minSupp ≤ e.2) new.
Proof.
  induction n as [|n IH]; intros L depth freq r; cbn [generateItemsets_while].
  - intros [= <-]. exists []. by rewrite app_nil_r.
  - destruct (Z.eqb_spec depth (0 + 1)) as [_|Hne].
    { intros [= <-]. exists []. by rewrite app_nil_r. }
    destruct (getitem L (0 + Z.of_nat n)) as [x|] eqn:Hx; [|done].
    destruct (remove_first x L) as [newList|] eqn:Hrm; [|done].
    apply remove_first_sublist in Hrm.
    destruct (findSupportByPrefixPath fuel newList fpt itemsOrder)
      as [val|] eqn:Hval; [|done].
    destruct (Z.leb_spec minSupp val) as [Hle|_].
    + destruct (generateItemsets_while fuel n newList 0 (depth - 1) minSupp fpt
                  itemsOrder (freq ++ [(newList, val)])) as [freq'|] eqn:Hrec;
        [|done].
      intros Hrest.
      apply IH in Hrec as (new1 & -> & H1).
      apply IH in Hrest as (new2 & -> & H2).
      exists ((newList, val) :: new1 ++ new2). split.
      * by rewrite <-!app_assoc.
      * constructor; [done|]. apply Forall_app. split; [|done].
        eapply Forall_impl; [exact H1|]. intros e (Hs & ? & ?).
        split_and!; [|done..]. by etrans.
    + intros Hrest. by apply IH in Hrest.
Qed.

End Soundness.

(** X19. Whatever the tree, every entry that [findFrequentItemsets] records
    holds items of the canonical order, in that order, together with the
    value that [findSupportByPrefixPath] returns for them, and this value is
    at least the threshold. *)
Theorem X19_recorded_itemsets_reach_the_threshold
    (fuel : nat) (fpt : FPTree) (itemsOrder : list Item) (minSupp : Z)
    (freqItemsets : list entry) :
  findFrequentItemsets fuel fpt itemsOrder minSupp = Ok freqItemsets →
  Forall (λ e : entry,
            e.1 `sublist_of` itemsOrder ∧
            findSupportByPrefixPath fuel e.1 fpt itemsOrder = Ok e.2 ∧
            minSupp ≤ e.2) freqItemsets.
Proof.
  unfold findFrequentItemsets, generateItemsets. intros Hgen.
  by apply generateItemsets_sound in Hgen as (new & -> & Hnew).
Qed.

Lemma canonical_sublist itemsOrder (k l : list Item) :
  k `sublist_of` l → canonical itemsOrder l → canonical itemsOrder k.
Proof.
  intros Hkl [Hs Hall]. split.
  - by eapply StronglySorted_sublist.
  - rewrite Forall_forall in Hall |- *. intros x Hx. apply Hall.
    by eapply elem_of_sublist.
Qed.

Section Completeness.

Context (txs paths : list (list Item)) (T : FPTree) (itemsOrder : list Item).
Context (Hinv : tree_inv txs paths T).
Context (Htxs : Forall (canonical itemsOrder) txs).
Context (fuel : nat) (Hfuel : (_nodesCount T < fuel)%nat) (minSupp : Z).

(** No itemset that reaches the threshold is passed over: the loop at [n]
    records every part of [L] that keeps the items from position [n] on,
    drops at least one of the others and is not empty. *)
Lemma generateItemsets_complete : ∀ n L depth freq r,
  canonical itemsOrder L →
  Forall (λ x, is_Some (_header T !! Some x)) L →
  (n ≤ length L)%nat → depth = Z.of_nat (length L) →
  generateItemsets_while fuel n L 0 depth minSupp T itemsOrder freq = Ok r →
  (∀ e, e ∈ freq → e ∈ r) ∧
  ∀ S1, S1 `sublist_of` take n L → S1 ≠ take n L → S1 ++ drop n L ≠ [] →
        minSupp ≤ or_support (S1 ++ drop n L) txs →
        (S1 ++ drop n L, or_support (S1 ++ drop n L) txs) ∈ r.
Proof.
  induction n as [|n IH]; intros L depth freq r HL Hh Hn Hd;
    cbn [generateItemsets_while].
  - intros [= <-]. split; [done|]. intros S1 HS1 Hne.
    rewrite take_0 in HS1, Hne. by apply sublist_nil_r in HS1.
  - destruct (Z.eqb_spec depth (0 + 1)) as [Heq|Hne].
    { intros [= <-]. split; [done|]. intros S1 HS1 Hne1 Hne2.
      assert (length L = 1%nat) as Hlen by lia.
      destruct L as [|a [|? ?]]; try done. destruct n; [|simpl in Hn; lia].
      simpl in *. apply sublist_cons_r in HS1 as [HS1|(l' & -> & HS1)].
      - by apply sublist_nil_r in HS1 as ->.
      - by apply sublist_nil_r in HS1 as ->. }
    destruct (lookup_lt_is_Some_2 L n) as [x Hx]; [lia|].
    change (0 + Z.of_nat n) with (Z.of_nat n). rewrite getitem_nat, Hx.
    rewrite (remove_first_lookup x L n (canonical_NoDup _ _ HL) Hx).
    set (newList := take n L ++ drop (S n) L).
    assert (L = take n L ++ x :: drop (S n) L) as HLeq
      by (symmetry; by apply take_drop_middle).
    assert (length (take n L) = n) as Htake by (apply length_take_le; lia).
    assert (canonical itemsOrder newList) as HL'
      by (rewrite HLeq in HL; by apply canonical_remove in HL).
    assert (Forall (λ x, is_Some (_header T !! Some x)) newList) as Hh'.
    { rewrite HLeq in Hh. apply Forall_app in Hh as [Hh1 Hh2].
      apply Forall_cons in Hh2 as [_ Hh2]. by apply Forall_app. }
    assert (length L = S (length newList)) as HlenL.
    { rewrite HLeq at 1. unfold newList. rewrite !length_app. simpl. lia. }
    assert (take n newList = take n L) as Htk
      by (unfold newList; by rewrite take_app_length').
    assert (drop n newList = drop (S n) L) as Hdrop
      by (unfold newList; by rewrite drop_app_length').
    assert (drop n L = x :: drop (S n) L) as HdropL by by apply drop_S.
    assert (take (S n) L = take n L ++ [x]) as HtakeL by by apply take_S_r.
    rewrite (findSupportByPrefixPath_spec _ _ _ _ Hinv Htxs _ _ HL' Hfuel).
    rewrite decide_True by done.
    assert (x ∉ take n L) as Hxnot.
    { pose proof (canonical_NoDup _ _ HL) as Hnd. rewrite HLeq in Hnd.
      apply NoDup_app in Hnd as (_ & Hdis & _). intros Hin.
      apply (Hdis x Hin). left. }
    assert (∀ fr r', generateItemsets_while fuel n L 0 depth minSupp T
                       itemsOrder fr = Ok r' →
              ∀ S1, S1 `sublist_of` take (S n) L → S1 ≠ take (S n) L →
                    minSupp ≤ or_support (S1 ++ drop (S n) L) txs →
                    x ∈ S1 →
                    (S1 ++ drop (S n) L,
                     or_support (S1 ++ drop (S n) L) txs) ∈ r') as Hkeep.
    { intros fr r' Hrun S1 HS1 Hne1 Hsup Hxin.
      destruct (IH L depth fr r' HL Hh ltac:(lia) Hd Hrun) as [_ Hall].
      rewrite HtakeL in HS1, Hne1.
      apply sublist_app_r in HS1 as (l1 & l2 & -> & Hl1 & Hl2).
      apply sublist_cons_r in Hl2 as [Hl2|(l' & -> & Hl2)].
      - apply sublist_nil_r in Hl2 as ->. rewrite app_nil_r in Hxin.
        destruct Hxnot. by eapply elem_of_sublist.
      - apply sublist_nil_r in Hl2 as ->.
        rewrite <-app_assoc in Hsup |- *. simpl in Hsup |- *.
        rewrite <-HdropL in Hsup |- *. apply Hall;
          [done| |rewrite HdropL; by destruct l1|done].
        intros ->. done. }
    intros Hgen.
    assert (∀ S1, S1 `sublist_of` take (S n) L →
              x ∈ S1 ∨ S1 `sublist_of` take n L) as Hcase.
    { intros S1 HS1. rewrite HtakeL in HS1.
      apply sublist_app_r in HS1 as (l1 & l2 & -> & Hl1 & Hl2).
      apply sublist_cons_r in Hl2 as [Hl2|(l' & -> & Hl2)].
      - apply sublist_nil_r in Hl2 as ->. rewrite app_nil_r. by right.
      - left. set_solver. }
    destruct (Z.leb_spec minSupp (or_support newList txs)) as [Hle|Hlt].
    + destruct (generateItemsets_while fuel n newList 0 (depth - 1) minSupp T
                  itemsOrder (freq ++ [(newList, or_support newList txs)]))
        as [freq'|] eqn:Hrec; [|done].
      destruct (IH newList (depth - 1) _ freq' HL' Hh' ltac:(lia) ltac:(lia)
                  Hrec) as [Hin1 Hall1].
      destruct (IH L depth freq' r HL Hh ltac:(lia) Hd Hgen) as [Hin2 _].
      split.
      * intros e He. apply Hin2, Hin1. apply elem_of_app. by left.
      * intros S1 HS1 Hne1 Hne2 Hsup.
        destruct (Hcase S1 HS1) as [Hxin|Hsub].
        { eapply Hkeep; eauto. }
        destruct (decide (S1 = take n L)) as [->|Hne3].
        -- apply Hin2, Hin1. apply elem_of_app. right.
           apply list_elem_of_singleton. done.
        -- apply Hin2. rewrite <-Hdrop. apply Hall1.
           ++ by rewrite Htk.
           ++ by rewrite Htk.
           ++ by rewrite Hdrop.
           ++ by rewrite Hdrop.
    + destruct (IH L depth freq r HL Hh ltac:(lia) Hd Hgen) as [Hin2 _].
      split; [done|]. intros S1 HS1 Hne1 Hne2 Hsup.
      destruct (Hcase S1 HS1) as [Hxin|Hsub].
      { eapply Hkeep; eauto. }
      exfalso.
      assert (or_support (S1 ++ drop (S n) L) txs ≤ or_support newList txs);
        [|lia].
      apply or_support_mono. unfold newList. intros y Hy.
      apply elem_of_app in Hy as [Hy|Hy]; apply elem_of_app; [left|by right].
      by eapply elem_of_sublist.
Qed.

(** On the tree of canonical transactions, with a duplicate-free order
    whose items all occur in the tree, [findFrequentItemsets] returns the
    itemsets that reach the threshold, all of them and nothing else. *)
Lemma findFrequentItemsets_exact :
  NoDup itemsOrder →
  Forall (λ x, is_Some (_header T !! Some x)) itemsOrder →
  ∃ r, findFrequentItemsets fuel T itemsOrder minSupp = Ok r ∧
    ∀ S v, (S, v) ∈ r ↔
           S `sublist_of` itemsOrder ∧ S ≠ [] ∧ S ≠ itemsOrder ∧
           v = or_support S txs ∧ minSupp ≤ v.
Proof.
  intros Hnd Hh.
  destruct (findFrequentItemsets_returns _ _ _ _ Hinv Htxs fuel Hfuel minSupp
              Hnd Hh) as [r Hr].
  exists r. split; [done|]. unfold findFrequentItemsets, generateItemsets in Hr.
  replace (Z.to_nat (Z.of_nat (length itemsOrder) - 1 - 0 + 1))
    with (length itemsOrder) in Hr by lia.
  pose proof (canonical_self _ Hnd) as Hcan.
  intros S v. split.
  - intros Hin.
    destruct (generateItemsets_sound _ _ _ _ _ _ _ _ _ Hr) as (new & -> & Hs).
    destruct (generateItemsets_lengths _ _ _ _ _ _ _ _ _ eq_refl Hr)
      as (new' & Heq & Hl).
    apply app_inv_head in Heq as <-. simpl in Hin.
    rewrite Forall_forall in Hs, Hl.
    destruct (Hs _ Hin) as (Hsub & Hval & Hle). specialize (Hl _ Hin).
    simpl in *.
    rewrite (findSupportByPrefixPath_spec _ _ _ _ Hinv Htxs _ _
               (canonical_sublist _ _ _ Hsub Hcan) Hfuel) in Hval.
    rewrite decide_True in Hval.
    2:{ rewrite Forall_forall in Hh |- *. intros x Hx. apply Hh.
        by eapply elem_of_sublist. }
    injection Hval as <-. split_and!; [done| | |done..].
    + intros ->. simpl in Hl. lia.
    + intros ->. lia.
  - intros (Hsub & Hne1 & Hne2 & -> & Hle).
    destruct (generateItemsets_complete (length itemsOrder) itemsOrder _ [] r
                Hcan Hh (le_n _) eq_refl Hr) as [_ Hall].
    rewrite firstn_all, drop_all in Hall. specialize (Hall S).
    rewrite app_nil_r in Hall. by apply Hall.
Qed.

End Completeness.

(** ** The pipeline from the parsed dataset on *)

Lemma StronglySorted_Forall {A : Type} (R : relation A) (P : A → Prop) l :
  StronglySorted R l → Forall P l →
  StronglySorted (λ a b, R a b ∧ P a ∧ P b) l.
Proof.
  induction 1 as [|a l Hs IH Ha]; intros Hall; constructor.
  - apply IH. by apply Forall_cons in Hall as [_ ?].
  - apply Forall_cons in Hall as [HPa Hall].
    rewrite Forall_forall in Ha, Hall |- *. intros b Hb. auto.
Qed.

Lemma StronglySorted_weaken {A : Type} (R1 R2 : relation A) l :
  (∀ x y, R1 x y → R2 x y) → StronglySorted R1 l → StronglySorted R2 l.
Proof.
  intros HR. induction 1 as [|a l Hs IH Ha]; constructor; [done|].
  eapply Forall_impl; [exact Ha|]. auto.
Qed.

(** The items of a transaction by position in the canonical order. *)
Lemma cleanTransactions_sorted (d : list (Item * Z)) (t : list Item) :
  Forall (λ v, v ∈ d.*1) t →
  ∃ t', cleanTransactions d d.*1 t = Ok t' ∧ t' ≡ₚ t ∧
        StronglySorted
          (λ a b, ∃ i j, rank d.*1 a = Some i ∧ rank d.*1 b = Some j ∧
                         (i ≤ j)%nat) t' ∧
        (NoDup t → canonical d.*1 t').
Proof.
  intros Hall. destruct (cleanTransactions_spec d t Hall) as (t' & Hc & Hp & Hn).
  exists t'. split_and!; [done..| |done].
  unfold cleanTransactions in Hc. rewrite filter_all in Hc.
  2:{ eapply Forall_impl; [exact Hall|]. intros v Hv.
      destruct (dict_get d v) eqn:Hg; [by eexists|].
      by apply dict_get_None in Hg. }
  destruct (index_keys d.*1 t) as [keyed|] eqn:Hk; [|done].
  injection Hc as <-. apply index_keys_spec in Hk as [Hk2 Hranks].
  assert (StronglySorted (λ a b : nat * Item, (b.1 <? a.1)%nat = false)
            (py_sorted Nat.ltb false keyed)) as Hs.
  { apply py_sorted_sorted.
    - intros a b. rewrite Nat.ltb_lt, Nat.ltb_ge. lia.
    - intros a b c. rewrite !Nat.ltb_ge. lia. }
  apply (StronglySorted_Forall _ (λ kv, rank d.*1 kv.2 = Some kv.1)) in Hs.
  - eapply StronglySorted_fmap; [|exact Hs]. simpl.
    intros a b (Hlt & Ha & Hb). exists a.1, b.1.
    split_and!; [done..|]. by apply Nat.ltb_ge in Hlt.
  - by rewrite py_sorted_perm.
Qed.

Lemma map_clean_sorted (d : list (Item * Z)) (txs : list (list Item)) :
  Forall (Forall (λ v, v ∈ d.*1)) txs →
  ∃ txs', map_clean d d.*1 txs = Ok txs' ∧
          Forall2 (λ t t', t' ≡ₚ t ∧
                     StronglySorted
                       (λ a b, ∃ i j, rank d.*1 a = Some i ∧
                                      rank d.*1 b = Some j ∧ (i ≤ j)%nat) t' ∧
                     (NoDup t → canonical d.*1 t')) txs txs'.
Proof.
  induction 1 as [|t txs Ht _ (txs' & IH & HF)]; simpl.
  - exists []. by split.
  - destruct (cleanTransactions_sorted d t Ht) as (t' & -> & Hp & Hs & Hc).
    rewrite IH. exists (t' :: txs'). split; [done|]. by constructor.
Qed.

Lemma filterTransactions_spec (item_lt : Item → Item → bool)
    (txs : list (list Item)) (minSupp : Z) :
  ∃ txs' itemsOrder,
    filterTransactions item_lt txs minSupp = Ok (txs', itemsOrder) ∧
    NoDup itemsOrder ∧
    (∀ x, x ∈ itemsOrder ↔ ∃ t, t ∈ txs ∧ x ∈ t) ∧
    Forall2 (λ t t', t' ≡ₚ t ∧
               StronglySorted
                 (λ a b, ∃ i j, rank itemsOrder a = Some i ∧
                                rank itemsOrder b = Some j ∧ (i ≤ j)%nat) t' ∧
               (NoDup t → canonical itemsOrder t')) txs txs'.
Proof.
  unfold filterTransactions.
  set (deco := λ kv : Item * Z, ((kv.2, kv.1), kv)).
  set (D := py_sorted (key_lt item_lt) true (map deco (count_items txs))).
  destruct (count_items_spec txs) as (Hkeys & Hin & _).
  assert (D.*2 ≡ₚ count_items txs) as HD2.
  { assert (D ≡ₚ deco <$> count_items txs) as HD
      by apply py_sorted_perm.
    rewrite HD, <-list_fmap_compose. by rewrite list_fmap_id. }
  destruct (map_clean_sorted D.*2 txs) as (txs' & -> & HF).
  { apply Forall_forall. intros t Ht. apply Forall_forall. intros v Hv.
    rewrite HD2. apply Hin. eauto. }
  exists txs', D.*2.*1. split_and!; [done| | |done].
  - by rewrite HD2.
  - intros x. by rewrite HD2.
Qed.

(** X17. [filterTransactions] drops no item, whatever the threshold: it
    returns every transaction with the items it had, each as often as
    before, sorted by their position in the canonical order. *)
Theorem X17_filterTransactions_keeps_and_sorts (item_lt : Item → Item → bool)
    (transactions : list (list Item)) (minSupp : Z) :
  ∃ transactionsNew itemsOrder,
    filterTransactions item_lt transactions minSupp
      = Ok (transactionsNew, itemsOrder) ∧
    Forall2 (λ t t', t' ≡ₚ t ∧
               StronglySorted
                 (λ a b, ∃ i j, rank itemsOrder a = Some i ∧
                                rank itemsOrder b = Some j ∧ (i ≤ j)%nat) t')
      transactions transactionsNew.
Proof.
  destruct (filterTransactions_spec item_lt transactions minSupp)
    as (txs' & itemsOrder & Hf & _ & _ & HF).
  exists txs', itemsOrder. split; [done|].
  eapply Forall2_impl; [exact HF|]. by intros t t' (? & ? & _).
Qed.

Lemma occurrences_perm (x : Item) (ts1 ts2 : list (list Item)) :
  ts1 ≡ₚ ts2 → occurrences x ts1 = occurrences x ts2.
Proof. intros Hp. unfold occurrences. by rewrite Hp. Qed.

Lemma occurrences_pos (x : Item) (ts : list (list Item)) :
  0 < occurrences x ts ↔ ∃ t, t ∈ ts ∧ x ∈ t.
Proof.
  unfold occurrences. split.
  - intros Hpos. destruct (filter (λ y, y = x) (mjoin ts)) as [|y l] eqn:Hf;
      [simpl in Hpos; lia|].
    assert (y ∈ filter (λ y, y = x) (mjoin ts)) as Hy by (rewrite Hf; left).
    apply list_elem_of_filter in Hy as [-> Hy].
    apply list_elem_of_join in Hy as (t & ? & ?). eauto.
  - intros (t & Ht & Hx).
    assert (x ∈ filter (λ y, y = x) (mjoin ts)) as Hin.
    { apply list_elem_of_filter. split; [done|].
      apply list_elem_of_join. eauto. }
    destruct (filter (λ y, y = x) (mjoin ts)); [by apply elem_of_nil in Hin|].
    simpl. lia.
Qed.

Lemma or_support_Forall2 (S : list Item) (txs txs' : list (list Item)) :
  Forall2 (λ t t', t' ≡ₚ t) txs txs' → or_support S txs' = or_support S txs.
Proof.
  unfold or_support. induction 1 as [|t t' l l' Hp _ IH]; [done|].
  assert (contains_any S t' ↔ contains_any S t) as Hiff.
  { unfold contains_any. rewrite !Exists_exists. by setoid_rewrite Hp. }
  rewrite !filter_cons.
  destruct (decide (contains_any S t')), (decide (contains_any S t));
    rewrite ?length_cons; try lia; tauto.
Qed.

Section TwoTrees.

Context (txs1 paths1 txs2 paths2 : list (list Item)) (T1 T2 : FPTree).
Context (itemsOrder : list Item).
Context (Hinv1 : tree_inv txs1 paths1 T1) (Hinv2 : tree_inv txs2 paths2 T2).
Context (Htxs1 : Forall (canonical itemsOrder) txs1).
Context (Htxs2 : Forall (canonical itemsOrder) txs2).
Context (Hsupp : ∀ S, or_support S txs1 = or_support S txs2).
Context (fuel : nat) (Hfuel1 : (_nodesCount T1 < fuel)%nat).
Context (Hfuel2 : (_nodesCount T2 < fuel)%nat) (minSupp : Z).

(** The enumeration sees a tree only through the supports. *)
Lemma generateItemsets_same : ∀ n L depth freq,
  canonical itemsOrder L →
  Forall (λ x, is_Some (_header T1 !! Some x)) L →
  Forall (λ x, is_Some (_header T2 !! Some x)) L →
  (n ≤ length L)%nat →
  generateItemsets_while fuel n L 0 depth minSupp T1 itemsOrder freq
    = generateItemsets_while fuel n L 0 depth minSupp T2 itemsOrder freq.
Proof.
  induction n as [|n IH]; intros L depth freq HL Hh1 Hh2 Hn;
    cbn [generateItemsets_while]; [done|].
  destruct (depth =? 0 + 1); [done|].
  destruct (lookup_lt_is_Some_2 L n) as [x Hx]; [lia|].
  change (0 + Z.of_nat n) with (Z.of_nat n). rewrite getitem_nat, Hx.
  rewrite (remove_first_lookup x L n (canonical_NoDup _ _ HL) Hx).
  set (newList := take n L ++ drop (S n) L).
  assert (L = take n L ++ x :: drop (S n) L) as HLeq
    by (symmetry; by apply take_drop_middle).
  assert (canonical itemsOrder newList) as HL'
    by (rewrite HLeq in HL; by apply canonical_remove in HL).
  assert (∀ (T : FPTree), Forall (λ x, is_Some (_header T !! Some x)) L →
            Forall (λ x, is_Some (_header T !! Some x)) newList) as Hsub.
  { intros T Hh. rewrite HLeq in Hh. apply Forall_app in Hh as [Hh1' Hh2'].
    apply Forall_cons in Hh2' as [_ Hh2']. by apply Forall_app. }
  assert (n ≤ length newList)%nat as Hn'
    by (unfold newList; rewrite length_app, length_take_le; lia).
  rewrite (findSupportByPrefixPath_spec _ _ _ _ Hinv1 Htxs1 _ _ HL' Hfuel1).
  rewrite (findSupportByPrefixPath_spec _ _ _ _ Hinv2 Htxs2 _ _ HL' Hfuel2).
  rewrite !decide_True by auto. rewrite Hsupp.
  destruct (minSupp <=? _).
  - rewrite (IH newList) by auto.
    destruct (generateItemsets_while fuel n newList 0 (depth - 1) minSupp T2
                itemsOrder _); [|done].
    apply IH; [done..|lia].
  - apply IH; [done..|lia].
Qed.

End TwoTrees.

(** The main block, step by step, for a dataset whose transactions repeat
    no item. *)
Lemma main_steps (item_lt : Item → Item → bool)
    (transactions : list (list Item)) (minSupp : Z) :
  Forall NoDup transactions →
  ∃ txs' itemsOrder tree paths,
    filterTransactions item_lt transactions minSupp = Ok (txs', itemsOrder) ∧
    buildFPTree txs' = Ok tree ∧ tree_inv txs' paths tree ∧
    Forall (canonical itemsOrder) txs' ∧ NoDup itemsOrder ∧
    Forall (λ x, is_Some (_header tree !! Some x)) itemsOrder ∧
    (∀ S, or_support S txs' = or_support S transactions) ∧
    ∀ fuel, main item_lt fuel transactions minSupp
            = (freqItemsets <- findFrequentItemsets fuel tree itemsOrder minSupp ;
               Ok (itemsOrder, tree, freqItemsets)).
Proof.
  intros Hnd.
  destruct (filterTransactions_spec item_lt transactions minSupp)
    as (txs' & itemsOrder & Hf & Hndo & Hin & HF).
  destruct (buildFPTree_inv txs') as (tree & paths & Hb & Hinv).
  exists txs', itemsOrder, tree, paths. split_and!; [done..| |done| | |].
  - clear -HF Hnd. induction HF as [|t t' l l' (_ & _ & Hc) _ IH];
      [constructor|].
    apply Forall_cons in Hnd as [Hn1 Hn2].
    constructor; [by apply Hc|by apply IH].
  - apply Forall_forall. intros x (t & Ht & Hxt)%Hin.
    apply (header_is_Some _ _ _ Hinv).
    apply list_elem_of_lookup in Ht as [i Hi].
    destruct (Forall2_lookup_l _ _ _ _ _ HF Hi) as (t' & Hi' & Hp & _).
    exists t'. split; [by eapply list_elem_of_lookup_2|]. by rewrite Hp.
  - intros S. apply or_support_Forall2.
    eapply Forall2_impl; [exact HF|]. by intros t t' (? & _).
  - intros fuel. unfold main. by rewrite Hf, Hb.
Qed.

(** X20. For a dataset whose transactions repeat no item, the main block
    returns, with any fuel above the number of nodes of its tree, the
    frequent disjunctive itemsets and nothing else: an itemset is recorded
    with a value exactly when it is a non-empty part of the canonical order,
    in that order and not the whole of it, the value is the number of
    transactions that contain one of its items, and this number is at least
    the threshold. *)
Theorem X20_main_mines_the_frequent_itemsets (item_lt : Item → Item → bool)
    (transactions : list (list Item)) (minSupp : Z) :
  Forall NoDup transactions →
  ∃ itemsOrder tree,
    ∀ fuel, (_nodesCount tree < fuel)%nat →
      ∃ freqItemsets,
        main item_lt fuel transactions minSupp
          = Ok (itemsOrder, tree, freqItemsets) ∧
        ∀ itemset v, (itemset, v) ∈ freqItemsets ↔
               itemset `sublist_of` itemsOrder ∧ itemset ≠ [] ∧
               itemset ≠ itemsOrder ∧
               v = or_support itemset transactions ∧ minSupp ≤ v.
Proof.
  intros Hnd.
  destruct (main_steps item_lt transactions minSupp Hnd)
    as (txs' & order & tree & paths & Hf & _ & Hinv & Hc & Hndo & Hh & Hs & Hm).
  exists order, tree. intros fuel Hfuel.
  destruct (findFrequentItemsets_exact _ _ _ _ Hinv Hc fuel Hfuel minSupp
              Hndo Hh) as (r & Hr & Hiff).
  exists r. rewrite Hm, Hr. split; [done|]. intros S v.
  rewrite Hiff, Hs. done.
Qed.

(** *** When [<] on the items is a strict total order *)

Section OrderedItems.

Context (item_lt : Item → Item → bool).

Hypothesis item_lt_irrefl : ∀ x, item_lt x x = false.
Hypothesis item_lt_trans :
  ∀ x y z, item_lt x y = true → item_lt y z = true → item_lt x z = true.
Hypothesis item_lt_total :
  ∀ x y, x ≠ y → item_lt x y = true ∨ item_lt y x = true.

Lemma itemsOrder_sorted txs minSupp txs' itemsOrder :
  filterTransactions item_lt txs minSupp = Ok (txs', itemsOrder) →
  StronglySorted
    (λ x y, occurrences y txs < occurrences x txs ∨
            (occurrences x txs = occurrences y txs ∧ item_lt y x = true))
    itemsOrder.
Proof.
  unfold filterTransactions.
  set (deco := λ kv : Item * Z, ((kv.2, kv.1), kv)).
  set (D := py_sorted (key_lt item_lt) true (map deco (count_items txs))).
  destruct (count_items_spec txs) as (Hnd & Hin & Hcnt).
  assert (D ≡ₚ deco <$> count_items txs) as HD by apply py_sorted_perm.
  destruct (map_clean D.*2 D.*2.*1 txs) as [r|]; [|done]. intros [= _ <-].
  assert (StronglySorted (λ a b, key_lt item_lt a.1 b.1 = false) D) as Hs
    by (apply py_sorted_reverse_sorted;
        [by apply key_lt_asym|by apply key_lt_neg_trans]).
  apply (StronglySorted_strengthen _
           (λ e, e.1 = (occurrences e.2.1 txs, e.2.1) ∧
                 e.2.2 = occurrences e.2.1 txs)) in Hs.
  - rewrite <-list_fmap_compose.
    eapply StronglySorted_fmap; [|exact Hs]. simpl.
    intros a b (Hlt & [Ha Ha'] & [Hb Hb'] & Hne).
    apply not_true_iff_false in Hlt.
    rewrite (key_lt_spec item_lt item_lt_irrefl), Ha, Hb in Hlt. simpl in Hlt.
    destruct (Z.lt_trichotomy (occurrences a.2.1 txs) (occurrences b.2.1 txs))
      as [?|[Heq|?]]; [tauto| |auto].
    right. split; [done|].
    destruct (decide (b.2.1 = a.2.1)) as [Heq'|Hne'].
    + destruct Hne. destruct a as [[? ?] [? ?]], b as [[? ?] [? ?]].
      simpl in *. congruence.
    + destruct (item_lt_total _ _ Hne') as [?|?]; [done|tauto].
  - rewrite HD. apply Forall_forall.
    intros e ([x c] & -> & Hxc)%list_elem_of_fmap. simpl.
    by rewrite <-(Hcnt x c Hxc).
  - rewrite HD. apply NoDup_fmap_2; [|by eapply NoDup_fmap_1].
    intros ?? [= ?]. done.
Qed.

(** The canonical order is a function of the item counts. *)
Lemma itemsOrder_unique txs1 txs2 minSupp1 minSupp2 txs1' txs2' order1 order2 :
  (∀ x, occurrences x txs1 = occurrences x txs2) →
  filterTransactions item_lt txs1 minSupp1 = Ok (txs1', order1) →
  filterTransactions item_lt txs2 minSupp2 = Ok (txs2', order2) →
  order1 = order2.
Proof.
  intros Hocc H1 H2.
  pose proof (itemsOrder_sorted _ _ _ _ H1) as Hs1.
  pose proof (itemsOrder_sorted _ _ _ _ H2) as Hs2.
  destruct (filterTransactions_spec item_lt txs1 minSupp1)
    as (? & ? & Heq1 & Hnd1 & Hin1 & _).
  destruct (filterTransactions_spec item_lt txs2 minSupp2)
    as (? & ? & Heq2 & Hnd2 & Hin2 & _).
  rewrite H1 in Heq1. rewrite H2 in Heq2.
  injection Heq1 as <- <-. injection Heq2 as <- <-.
  set (R := λ x y : Item,
              occurrences y txs1 < occurrences x txs1 ∨
              (occurrences x txs1 = occurrences y txs1 ∧ item_lt y x = true)).
  assert (AntiSymm eq R) as Hanti.
  { intros x y [?|[? Hyx]] [?|[? Hxy]]; try lia.
    pose proof (item_lt_trans _ _ _ Hxy Hyx) as Hxx.
    by rewrite item_lt_irrefl in Hxx. }
  apply (StronglySorted_unique R); [done| |].
  - eapply StronglySorted_weaken; [|exact Hs2].
    intros x y. unfold R. rewrite !Hocc. tauto.
  - apply NoDup_Permutation; [done..|]. intros x.
    rewrite Hin1, Hin2, <-!occurrences_pos, Hocc. done.
Qed.

(** X18. When [<] on the items is a strict total order, the canonical order
    that [filterTransactions] returns depends on the dataset only through
    the number of occurrences of every item: two datasets in which every
    item occurs equally often get the same order, whatever the thresholds. *)
Theorem X18_canonical_order_depends_on_counts_only
    (txs1 txs2 : list (list Item)) (minSupp1 minSupp2 : Z) :
  (∀ x, occurrences x txs1 = occurrences x txs2) →
  ∃ txs1' txs2' itemsOrder,
    filterTransactions item_lt txs1 minSupp1 = Ok (txs1', itemsOrder) ∧
    filterTransactions item_lt txs2 minSupp2 = Ok (txs2', itemsOrder).
Proof.
  intros Hocc.
  destruct (filterTransactions_spec item_lt txs1 minSupp1)
    as (txs1' & order1 & H1 & _).
  destruct (filterTransactions_spec item_lt txs2 minSupp2)
    as (txs2' & order2 & H2 & _).
  exists txs1', txs2', order1. split; [done|].
  by rewrite (itemsOrder_unique _ _ _ _ _ _ _ _ Hocc H1 H2).
Qed.

(** X21. When [<] on the items is a strict total order, the order of the
    transactions in a dataset that repeats no item within a transaction does
    not change what the main block computes: the same canonical order and
    the same list of frequent itemsets, entry by entry. *)
Theorem X21_output_ignores_transaction_order
    (txs1 txs2 : list (list Item)) (minSupp : Z) :
  Forall NoDup txs1 → txs1 ≡ₚ txs2 →
  ∃ itemsOrder tree1 tree2,
    ∀ fuel, (_nodesCount tree1 < fuel)%nat → (_nodesCount tree2 < fuel)%nat →
      ∃ freqItemsets,
        main item_lt fuel txs1 minSupp = Ok (itemsOrder, tree1, freqItemsets) ∧
        main item_lt fuel txs2 minSupp = Ok (itemsOrder, tree2, freqItemsets).
Proof.
  intros Hnd1 Hperm.
  assert (Forall NoDup txs2) as Hnd2 by by rewrite <-Hperm.
  destruct (main_steps item_lt txs1 minSupp Hnd1)
    as (txs1' & order1 & tree1 & paths1 & Hf1 & _ & Hinv1 & Hc1 & Hndo1 & Hh1
        & Hs1 & Hm1).
  destruct (main_steps item_lt txs2 minSupp Hnd2)
    as (txs2' & order2 & tree2 & paths2 & Hf2 & _ & Hinv2 & Hc2 & Hndo2 & Hh2
        & Hs2 & Hm2).
  assert (order2 = order1) as ->.
  { symmetry.
    eapply itemsOrder_unique; [|exact Hf1|exact Hf2].
    intros x. by apply occurrences_perm. }
  exists order1, tree1, tree2. intros fuel Hfuel1 Hfuel2.
  destruct (findFrequentItemsets_returns _ _ _ _ Hinv1 Hc1 fuel Hfuel1 minSupp
              Hndo1 Hh1) as [r Hr].
  exists r. rewrite Hm1, Hm2, Hr. split; [done|].
  unfold findFrequentItemsets, generateItemsets in Hr |- *.
  rewrite <-(generateItemsets_same _ _ _ _ _ _ _ Hinv1 Hinv2 Hc1 Hc2);
    [by rewrite Hr|..|done|done|lia]; try done.
  - intros S. by rewrite Hs1, Hs2, (or_support_perm _ _ _ Hperm).
  - by apply canonical_self.
Qed.

End OrderedItems.

(** ** Reading the dataset *)

Lemma append_assoc (a b c : string) : (a +:+ b) +:+ c = a +:+ (b +:+ c).
Proof.
  induction a as [|x a IH]; [done|].
  change (String x ((a +:+ b) +:+ c) = String x (a +:+ (b +:+ c))).
  by f_equal.
Qed.

Lemma append_nil_r (a : string) : a +:+ "" = a.
Proof.
  induction a as [|x a IH]; [done|].
  change (String x (a +:+ "") = String x a). by f_equal.
Qed.

Lemma all_chars_app P (a b : string) :
  all_chars P (a +:+ b) = all_chars P a && all_chars P b.
Proof.
  induction a as [|x a IH]; [done|].
  change (P x && all_chars P (a +:+ b) = P x && all_chars P a && all_chars P b).
  rewrite IH. by destruct (P x).
Qed.

Lemma append_snoc_ne (a : string) c : a +:+ String c "" ≠ "".
Proof. by destruct a. Qed.

Lemma split_from_spec line : ∀ tok,
  all_chars not_space tok = true →
  Forall is_item (split_from tok line) ∧
  foldr String.append "" (split_from tok line)
    = tok +:+ filter_chars not_space line.
Proof.
  induction line as [|c rest IH]; intros tok Htok; simpl.
  - case_decide as Hd; simpl.
    + subst. by split.
    + rewrite !append_nil_r. split; [|done]. by repeat constructor.
  - assert (not_space c = negb (py_isspace c)) as Hns by done.
    destruct (py_isspace c) eqn:Hc; rewrite Hns; cbn [negb].
    + destruct (IH "" eq_refl) as [Hall Hcat]. case_decide as Hd.
      * subst. by split.
      * split; [by repeat constructor|]. simpl. by rewrite Hcat.
    + destruct (IH (tok +:+ String c "")) as [Hall Hcat].
      { rewrite all_chars_app, Htok. simpl. unfold not_space. by rewrite Hc. }
      split; [done|]. by rewrite Hcat, append_assoc.
Qed.

Lemma split_from_nil line : ∀ tok,
  split_from tok line = [] ↔ tok = "" ∧ all_chars py_isspace line = true.
Proof.
  induction line as [|c rest IH]; intros tok; simpl.
  - case_decide; naive_solver.
  - destruct (py_isspace c); simpl.
    + case_decide as Hd; [|naive_solver]. subst. rewrite IH. naive_solver.
    + rewrite IH. split; [|naive_solver]. intros [Hne _].
      by apply append_snoc_ne in Hne.
Qed.

Lemma split_from_item it : ∀ tok rest,
  all_chars not_space it = true →
  split_from tok (it +:+ rest) = split_from (tok +:+ it) rest.
Proof.
  induction it as [|c it IH]; intros tok rest Hit; simpl.
  - by rewrite append_nil_r.
  - simpl in Hit. apply andb_prop in Hit as [Hc Hit].
    unfold not_space in Hc. apply negb_true_iff in Hc. rewrite Hc.
    rewrite IH by done. by rewrite append_assoc.
Qed.

Lemma py_split_line_of (transaction : list string) :
  Forall is_item transaction → py_split (line_of transaction) = transaction.
Proof.
  unfold py_split, line_of.
  induction 1 as [|it l [Hne Hit] Hl IH]; [done|].
  destruct l as [|it' l].
  - simpl. rewrite split_from_item by done. simpl. by rewrite decide_False.
  - change (String.concat " " (it :: it' :: l))
      with (it +:+ " " +:+ String.concat " " (it' :: l)).
    rewrite !append_assoc, split_from_item by done. simpl.
    rewrite decide_False by done. f_equal. exact IH.
Qed.

Lemma processDataset_lines_map (dataset : list string) :
  processDataset_lines dataset = py_split <$> dataset.
Proof.
  unfold processDataset_lines.
  assert (∀ acc, foldl (λ transactions line, transactions ++ [py_split line])
                   acc dataset = acc ++ (py_split <$> dataset)) as Hgen.
  { induction dataset as [|line ds IH]; intros acc; simpl.
    - by rewrite app_nil_r.
    - by rewrite IH, <-app_assoc. }
  apply Hgen.
Qed.

(** X22. For text items ([numeric = False]) [processDataset] reads one
    transaction from every line. Its items are not empty and hold no
    whitespace, and together they are the characters of the line that are
    not whitespace, in the order of the line: nothing else is dropped and
    nothing is added. *)
Theorem X22_processDataset_reads_the_items (dataset : list string) :
  Forall2 (λ line transaction,
             Forall is_item transaction ∧
             foldr String.append "" transaction
               = filter_chars not_space line)
    dataset (processDataset_lines dataset).
Proof.
  rewrite processDataset_lines_map. apply Forall2_fmap_r, Forall_Forall2_diag.
  apply Forall_forall. intros line _.
  by destruct (split_from_spec line "" eq_refl).
Qed.

(** X23. A line of the dataset is read as the empty transaction exactly when
    it holds nothing but whitespace. *)
Theorem X23_blank_line_is_empty_transaction (dataset : list string) :
  Forall2 (λ line transaction,
             transaction = [] ↔ all_chars py_isspace line = true)
    dataset (processDataset_lines dataset).
Proof.
  rewrite processDataset_lines_map. apply Forall2_fmap_r, Forall_Forall2_diag.
  apply Forall_forall. intros line _. unfold py_split.
  destruct (split_from_nil line "") as [H1 H2]. split.
  - by intros [_ ?]%H1.
  - intros ?. by apply H2.
Qed.

(** X24. Reading is the inverse of writing: a dataset whose items are not
    empty and hold no whitespace, written with one transaction on a line and
    one blank between the items, is read back as it was. *)
Theorem X24_processDataset_reads_back (transactions : list (list string)) :
  Forall (Forall is_item) transactions →
  processDataset_lines (line_of <$> transactions) = transactions.
Proof.
  intros Hall. rewrite processDataset_lines_map, <-list_fmap_compose.
  rewrite <-(list_fmap_id transactions) at 2.
  apply list_fmap_ext. intros i t Ht. simpl. apply py_split_line_of.
  rewrite Forall_forall in Hall. apply Hall. by eapply list_elem_of_lookup_2.
Qed.

(** ** The prefix-path calculator on the tree of any dataset *)

Lemma sumZ_le_in {A : Type} (f g : A → Z) l :
  (∀ x, x ∈ l → f x ≤ g x) → sumZ (f <$> l) ≤ sumZ (g <$> l).
Proof.
  induction l as [|x l IH]; intros Hfg; [done|].
  rewrite !fmap_cons. cbn [sumZ].
  pose proof (Hfg x ltac:(left)).
  assert (sumZ (f <$> l) ≤ sumZ (g <$> l))
    by (apply IH; intros; apply Hfg; by right).
  lia.
Qed.

Section LowerBound.

Context (txs paths : list (list Item)) (T : FPTree) (itemsOrder : list Item).
Context (Hinv : tree_inv txs paths T).
Context (Hitems : Forall (Forall (λ x, x ∈ itemsOrder)) txs).

Lemma path_in_order i p :
  paths !! i = Some p → Forall (λ x, x ∈ itemsOrder) p.
Proof.
  intros Hp.
  assert (p ∈ paths) as Hin by by eapply list_elem_of_lookup_2.
  apply (paths_elem _ _ _ Hinv) in Hin as [->|(t & Ht & Hpt)]; [constructor|].
  rewrite Forall_forall in Hitems. specialize (Hitems t Ht).
  rewrite Forall_forall in Hitems |- *. intros x Hx. apply Hitems.
  destruct Hpt as [k ->]. apply elem_of_app. by left.
Qed.

(** When the loop of [checkPath] reports an item, it is on the path. *)
Lemma checkPath_while_sound itemList i x :
  itemList !! i = Some x → x ∈ itemsOrder →
  ∀ fuel y q, paths !! y = Some q → (y < fuel)%nat →
  ∃ b, checkPath_while fuel itemList (Z.of_nat i) (Some y) T itemsOrder = Ok b ∧
       (b = true → x ∈ q).
Proof.
  intros Hx Hxo. induction fuel as [|fuel IH]; intros y q Hq Hy; [lia|].
  simpl. rewrite (inv_root _ _ _ Hinv).
  destruct (decide (Some y = Some 0%nat)) as [[= ->]|Hy0]; [by exists false|].
  assert (0 < y)%nat as Hpos by (destruct y; [done|lia]).
  destruct (path_node _ _ _ Hinv y q Hq) as [n Hn].
  destruct (inv_node _ _ _ Hinv y n q Hpos Hn Hq)
    as (z & j & q0 & -> & Hitem & _ & Hpar & Hlt & Hj & _).
  unfold deref. rewrite Hn, getitem_nat, Hx, Hitem.
  destruct (decide (Some z = Some x)) as [[= ->]|Hzx].
  - exists true. split; [done|]. intros _. apply elem_of_app. right. left.
  - assert (z ∈ itemsOrder) as Hzo.
    { pose proof (path_in_order _ _ Hq) as Hall.
      rewrite Forall_forall in Hall. apply Hall, elem_of_app. right. left. }
    rewrite !index_rank.
    destruct (rank_is_Some _ _ Hzo) as [a Ha].
    destruct (rank_is_Some _ _ Hxo) as [b Hb]. rewrite Ha, Hb.
    destruct (a <? b)%nat; [by exists false|].
    rewrite Hpar. destruct (IH j q0 Hj) as (b' & -> & Hb'); [lia|].
    exists b'. split; [done|]. intros ?. apply elem_of_app. left. auto.
Qed.

Lemma checkPath_rec_sound itemList X xn j q fuel :
  _nodes T !! X = Some xn → _parent xn = Some j → paths !! j = Some q →
  (_nodesCount T < fuel)%nat →
  ∀ m, (m ≤ length itemList)%nat →
       Forall (λ x, x ∈ itemsOrder) (take m itemList) →
       ∃ b, checkPath_rec fuel m itemList X T itemsOrder = Ok b ∧
            (b = true → contains_any (take m itemList) q).
Proof.
  intros HX Hpar Hq Hfuel. induction m as [|m IH]; intros Hm Hall.
  - by exists false.
  - cbn [checkPath_rec].
    destruct (lookup_lt_is_Some_2 itemList m) as [x Hx]; [lia|].
    rewrite (take_S_r _ _ _ Hx) in Hall |- *.
    apply Forall_app in Hall as [Hall Hxo].
    apply (proj1 (Forall_singleton _ _)) in Hxo.
    unfold deref. rewrite HX, Hpar.
    destruct (checkPath_while_sound itemList m x Hx Hxo fuel j q Hq)
      as (b & -> & Hb).
    { apply lookup_lt_Some in Hq. rewrite (inv_plen _ _ _ Hinv) in Hq. lia. }
    destruct b.
    + exists true. split; [done|]. intros _. apply Exists_app. right.
      constructor. by apply Hb.
    + destruct IH as (b' & -> & Hb'); [lia|done|].
      exists b'. split; [done|]. intros ?. apply Exists_app. left.
      by apply Hb'.
Qed.

(** Every node of the chain adds its weight or more. *)
Lemma findSupport_while_lower S k x fuel :
  S !! k = Some x → Forall (λ y, y ∈ itemsOrder) S →
  (_nodesCount T < fuel)%nat →
  ∀ L a n support,
    linked T a L → (∀ i, i ∈ a :: L → i ∈ occ paths x) →
    (length L + 1 < n)%nat →
    ∃ v, findSupport_while n fuel S k (Some a) T itemsOrder support = Ok v ∧
         support + sumZ (weight paths txs (take k S) <$> (a :: L)) ≤ v.
Proof.
  intros Hx HS Hfuel.
  assert (Forall (λ y, y ∈ itemsOrder) (take k S)) as Hall.
  { rewrite Forall_forall in HS |- *. intros y (i & Hi & _)%elem_of_take.
    apply HS. by eapply list_elem_of_lookup_2. }
  assert (k ≤ length S)%nat as Hk by (apply lookup_lt_Some in Hx; lia).
  assert (∀ a, a ∈ occ paths x →
            ∃ xn c b, _nodes T !! a = Some xn ∧ _count xn = Some c ∧
                      checkPath fuel S (Z.of_nat k - 1) a T itemsOrder = Ok b ∧
                      weight paths txs (take k S) a
                        ≤ (if b then 0 else c)) as Hstep.
  { intros a (p & Hp & Hl)%elem_of_occ.
    assert (0 < a)%nat as Hpos
      by (apply (path_pos _ _ _ Hinv a p Hp); by intros ->).
    destruct (path_node _ _ _ Hinv a p Hp) as [xn Hxn].
    destruct (inv_node _ _ _ Hinv a xn p Hpos Hxn Hp)
      as (x' & j & q & -> & _ & Hcnt & Hpar & _ & Hj & _).
    destruct (checkPath_rec_sound S a xn j q fuel Hxn Hpar Hj Hfuel k Hk Hall)
      as (b & Hb & Hbt).
    exists xn, (Z.of_nat (cnt_prefix (q ++ [x']) txs)), b.
    split_and!; [done..| |].
    - unfold checkPath. by replace (Z.to_nat (Z.of_nat k - 1 + 1)) with k by lia.
    - unfold weight. rewrite Hp. destruct b.
      + rewrite decide_True; [done|].
        apply (contains_any_mono _ q); [by apply prefix_app_r|by apply Hbt].
      + case_decide; lia. }
  induction L as [|b L IH]; intros a n support HL Hocc Hn;
    (destruct n as [|n]; [lia|]); cbn [findSupport_while];
    destruct (Hstep a) as (xn & c & fb & Hxn & Hc & -> & Hw);
    try (apply Hocc; left); unfold deref; rewrite Hxn, Hc;
    rewrite fmap_cons; cbn [sumZ].
  - simpl in HL. unfold nb in HL. rewrite Hxn in HL. injection HL as ->.
    destruct n as [|n]; [lia|].
    destruct fb; cbn [findSupport_while sumZ fmap list_fmap];
      eexists; (split; [done|]); lia.
  - destruct HL as [Hnb HL]. unfold nb in Hnb. rewrite Hxn in Hnb.
    injection Hnb as ->.
    assert (∀ i, i ∈ b :: L → i ∈ occ paths x) as Hocc'
      by (intros; apply Hocc; by right).
    simpl in Hn.
    destruct fb.
    + destruct (IH b n support HL Hocc') as (v & -> & Hv); [lia|].
      exists v. split; [done|]. lia.
    + destruct (IH b n (support + c) HL Hocc') as (v & -> & Hv); [lia|].
      exists v. split; [done|]. lia.
Qed.

(** The weights of the nodes of an item cover the transactions that hold
    the item and none of the items [S']. *)
Lemma chain_sum_lower S' x :
  Z.of_nat (length (filter (λ t, x ∈ t ∧ ¬ contains_any S' t) txs))
    ≤ sumZ (weight paths txs S' <$> occ paths x).
Proof.
  set (P := filter (λ p, ¬ contains_any S' p)
              (filter (λ p, last p = Some x) paths)).
  assert (sumZ (weight paths txs S' <$> occ paths x)
          = sumZ ((λ p, Z.of_nat (cnt_prefix p txs)) <$> P)) as ->.
  { unfold P. rewrite <-sumZ_filter, <-occ_paths, <-list_fmap_compose.
    apply sumZ_ext_in. intros i (p & Hp & _)%elem_of_occ. simpl.
    unfold weight. rewrite Hp. simpl.
    destruct (decide (contains_any S' p)).
    - by rewrite decide_False by tauto.
    - by rewrite decide_True by tauto. }
  rewrite sum_cnt_prefix, <-sumZ_indicator.
  apply sumZ_le_in. intros t Ht.
  destruct (decide (x ∈ t ∧ ¬ contains_any S' t)) as [[Hxt Hno]|_]; [|lia].
  apply list_elem_of_split in Hxt as (l1 & l2 & ->).
  assert (l1 ++ [x] `prefix_of` l1 ++ x :: l2) as Hpre
    by (exists l2; by rewrite <-app_assoc).
  assert (l1 ++ [x] ∈ filter (λ p, p `prefix_of` l1 ++ x :: l2) P) as Hin.
  { apply list_elem_of_filter. split; [done|]. unfold P.
    apply list_elem_of_filter. split.
    - intros Hc. apply Hno. by eapply contains_any_mono.
    - apply list_elem_of_filter. split; [apply last_snoc|].
      apply (paths_elem _ _ _ Hinv). right. eauto. }
  destruct (filter _ P); [by apply elem_of_nil in Hin|]. simpl. lia.
Qed.

Lemma findSupport_for_lower Is fuel :
  Forall (λ y, y ∈ itemsOrder) Is →
  Forall (λ y, is_Some (_header T !! Some y)) Is →
  (_nodesCount T < fuel)%nat →
  ∀ m k support, (k + m ≤ length Is)%nat →
  ∃ v, findSupport_for fuel Is (seq k m) T itemsOrder support = Ok v ∧
       support + or_support (take (k + m) Is) txs - or_support (take k Is) txs
         ≤ v.
Proof.
  intros HS Hh Hfuel. induction m as [|m IH]; intros k support Hkm.
  - simpl. rewrite Nat.add_0_r. eexists. split; [done|]. lia.
  - cbn [seq findSupport_for].
    destruct (lookup_lt_is_Some_2 Is k) as [x Hx]; [lia|].
    rewrite getitem_nat, Hx.
    assert (is_Some (_header T !! Some x)) as [ht Hht].
    { rewrite Forall_forall in Hh. apply Hh. by eapply list_elem_of_lookup_2. }
    rewrite Hht.
    destruct (header_chain _ _ _ Hinv x ht Hht) as (L & Hocc & HL).
    pose proof (occ_length _ _ _ Hinv x) as Hlen. rewrite Hocc in Hlen.
    simpl in Hlen.
    destruct (findSupport_while_lower Is k x fuel Hx HS Hfuel L ht.1 fuel
                support HL) as (v1 & -> & Hv1);
      [intros i Hi; by rewrite Hocc|lia|].
    destruct (IH (S k) v1) as (v & -> & Hv); [lia|].
    exists v. split; [done|].
    rewrite <-Hocc in Hv1. pose proof (chain_sum_lower (take k Is) x) as Hc.
    pose proof (or_support_snoc (take k Is) x txs) as Hsnoc.
    rewrite <-(take_S_r _ _ _ Hx) in Hsnoc.
    replace (k + S m)%nat with (S k + m)%nat by lia. lia.
Qed.

Lemma findSupportByPrefixPath_lower Is fuel :
  Forall (λ y, y ∈ itemsOrder) Is →
  Forall (λ y, is_Some (_header T !! Some y)) Is →
  (_nodesCount T < fuel)%nat →
  ∃ v, findSupportByPrefixPath fuel Is T itemsOrder = Ok v ∧
       or_support Is txs ≤ v.
Proof.
  intros HS Hh Hfuel. unfold findSupportByPrefixPath.
  destruct (findSupport_for_lower Is fuel HS Hh Hfuel (length Is) 0 0)
    as (v & -> & Hv); [simpl; lia|].
  exists v. split; [done|]. rewrite Nat.add_0_l, firstn_all, take_0 in Hv.
  rewrite or_support_nil in Hv. lia.
Qed.

End LowerBound.

(** X25.  [findSupportByPrefixPath] never counts too little.  On the tree of
    any dataset whose items are all in the canonical order, with the
    transactions in any order and with or without repeated items, it
    returns for an itemset of items of the dataset a value that is at
    least the number of transactions with an item of the itemset, which is
    the value that [findSupportByBFS] returns. *)
Theorem X25_prefix_path_support_never_undercounts
    (itemsOrder : list Item) (transactions : list (list Item))
    (itemset : list Item) :
  Forall (Forall (λ x, x ∈ itemsOrder)) transactions →
  Forall (λ x, x ∈ mjoin transactions) itemset →
  ∃ tree, buildFPTree transactions = Ok tree ∧
    ∀ fuel, (_nodesCount tree + 1 < fuel)%nat →
      ∃ v, findSupportByPrefixPath fuel itemset tree itemsOrder = Ok v ∧
           findSupportByBFS fuel itemset tree
             = Ok (or_support itemset transactions) ∧
           or_support itemset transactions ≤ v.
Proof.
  intros Hitems Hset.
  destruct (buildFPTree_inv transactions) as (tree & paths & Hb & Hinv).
  exists tree. split; [done|]. intros fuel Hfuel.
  destruct (findSupportByPrefixPath_lower _ _ _ itemsOrder Hinv Hitems
              itemset fuel) as (v & Hv & Hle); [..|lia|].
  - apply Forall_forall. intros x Hx.
    pose proof (proj1 (Forall_forall _ _) Hset x Hx) as Hin.
    apply list_elem_of_join in Hin as (t & Hxt & Ht).
    pose proof (proj1 (Forall_forall _ _) Hitems t Ht) as Hall.
    by apply (proj1 (Forall_forall _ _) Hall).
  - apply Forall_forall. intros x Hx.
    pose proof (proj1 (Forall_forall _ _) Hset x Hx) as Hin.
    apply list_elem_of_join in Hin as (t & Hxt & Ht).
    apply (header_is_Some _ _ _ Hinv). eauto.
  - exists v. split_and!; [done| |done].
    by apply (findSupportByBFS_spec _ _ _ itemset Hinv).
Qed.

(** ** The enumeration on the tree of any dataset *)

Section AnyDataset.

Context (fuel : nat) (minSupp : Z) (T : FPTree) (itemsOrder : list Item).
Context (txs : list (list Item)) (L0 : list Item).

Hypothesis Hsup : ∀ N, N `sublist_of` L0 →
  ∃ v, findSupportByPrefixPath fuel N T itemsOrder = Ok v ∧
       or_support N txs ≤ v.

(** As long as the calculator returns, for every part of the candidate, a
    value that is not below the disjunctive support, the enumeration
    returns and passes over no itemset whose disjunctive support reaches
    the threshold. *)
Lemma generateItemsets_covers : ∀ n L depth freq,
  L `sublist_of` L0 → NoDup L → (n ≤ length L)%nat →
  depth = Z.of_nat (length L) →
  ∃ r, generateItemsets_while fuel n L 0 depth minSupp T itemsOrder freq = Ok r ∧
       (∀ e, e ∈ freq → e ∈ r) ∧
       ∀ S1, S1 `sublist_of` take n L → S1 ≠ take n L →
             S1 ++ drop n L ≠ [] →
             minSupp ≤ or_support (S1 ++ drop n L) txs →
             ∃ v, (S1 ++ drop n L, v) ∈ r.
Proof.
  induction n as [|n IH]; intros L depth freq HL0 Hnd Hn Hd;
    cbn [generateItemsets_while].
  - exists freq. split_and!; [done..|]. intros S1 HS1 Hne.
    rewrite take_0 in HS1, Hne. by apply sublist_nil_r in HS1.
  - destruct (Z.eqb_spec depth (0 + 1)) as [Heq|Hne].
    { exists freq. split_and!; [done..|]. intros S1 HS1 Hne1 Hne2.
      assert (length L = 1%nat) as Hlen by lia.
      destruct L as [|a [|? ?]]; try done. destruct n; [|simpl in Hn; lia].
      simpl in *. apply sublist_cons_r in HS1 as [HS1|(l' & -> & HS1)].
      - by apply sublist_nil_r in HS1 as ->.
      - by apply sublist_nil_r in HS1 as ->. }
    destruct (lookup_lt_is_Some_2 L n) as [x Hx]; [lia|].
    change (0 + Z.of_nat n) with (Z.of_nat n). rewrite getitem_nat, Hx.
    rewrite (remove_first_lookup x L n Hnd Hx).
    set (newList := take n L ++ drop (S n) L).
    assert (L = take n L ++ x :: drop (S n) L) as HLeq
      by (symmetry; by apply take_drop_middle).
    assert (length (take n L) = n) as Htake by (apply length_take_le; lia).
    assert (newList `sublist_of` L) as Hsub.
    { unfold newList. rewrite <-(take_drop_middle _ _ _ Hx) at 3.
      apply sublist_app; [done|]. by apply sublist_cons. }
    assert (NoDup newList) as Hnd'
      by (eapply sublist_NoDup; [exact Hnd|exact Hsub]).
    assert (length L = S (length newList)) as HlenL.
    { rewrite HLeq at 1. unfold newList. rewrite !length_app. simpl. lia. }
    assert (take n newList = take n L) as Htk
      by (unfold newList; by rewrite take_app_length').
    assert (drop n newList = drop (S n) L) as Hdrop
      by (unfold newList; by rewrite drop_app_length').
    assert (drop n L = x :: drop (S n) L) as HdropL by by apply drop_S.
    assert (take (S n) L = take n L ++ [x]) as HtakeL by by apply take_S_r.
    assert (x ∉ take n L) as Hxnot.
    { pose proof Hnd as Hnd2. rewrite HLeq in Hnd2.
      apply NoDup_app in Hnd2 as (_ & Hdis & _). intros Hin.
      apply (Hdis x Hin). left. }
    destruct (Hsup newList) as (val & -> & Hval); [by etrans|].
    assert (∀ S1, S1 `sublist_of` take (S n) L →
              x ∈ S1 ∨ S1 `sublist_of` take n L) as Hcase.
    { intros S1 HS1. rewrite HtakeL in HS1.
      apply sublist_app_r in HS1 as (l1 & l2 & -> & Hl1 & Hl2).
      apply sublist_cons_r in Hl2 as [Hl2|(l' & -> & Hl2)].
      - apply sublist_nil_r in Hl2 as ->. rewrite app_nil_r. by right.
      - left. set_solver. }
    assert (∀ r' : list entry,
              (∀ S1, S1 `sublist_of` take n L → S1 ≠ take n L →
                     S1 ++ drop n L ≠ [] →
                     minSupp ≤ or_support (S1 ++ drop n L) txs →
                     ∃ v : Z, (S1 ++ drop n L, v) ∈ r') →
              ∀ S1, S1 `sublist_of` take (S n) L → S1 ≠ take (S n) L →
                    minSupp ≤ or_support (S1 ++ drop (S n) L) txs →
                    x ∈ S1 → ∃ v : Z, (S1 ++ drop (S n) L, v) ∈ r') as Hkeep.
    { intros r' Hall S1 HS1 Hne1 Hle Hxin.
      rewrite HtakeL in HS1, Hne1.
      apply sublist_app_r in HS1 as (l1 & l2 & -> & Hl1 & Hl2).
      apply sublist_cons_r in Hl2 as [Hl2|(l' & -> & Hl2)].
      - apply sublist_nil_r in Hl2 as ->. rewrite app_nil_r in Hxin.
        destruct Hxnot. by eapply elem_of_sublist.
      - apply sublist_nil_r in Hl2 as ->.
        rewrite <-app_assoc in Hle |- *. simpl in Hle |- *.
        rewrite <-HdropL in Hle |- *. apply Hall;
          [done| |rewrite HdropL; by destruct l1|done].
        intros ->. done. }
    destruct (Z.leb_spec minSupp val) as [Hle|Hlt].
    + destruct (IH newList (depth - 1) (freq ++ [(newList, val)]))
        as (freq' & -> & Hin1 & Hall1); [by etrans|done|lia|lia|].
      destruct (IH L depth freq') as (r & -> & Hin2 & Hall2);
        [done|done|lia|done|].
      exists r. split_and!; [done| |].
      * intros e He. apply Hin2, Hin1. apply elem_of_app. by left.
      * intros S1 HS1 Hne1 Hne2 Hsupp.
        destruct (Hcase S1 HS1) as [Hxin|HsubS].
        { by eapply Hkeep. }
        destruct (decide (S1 = take n L)) as [->|Hne3].
        -- exists val. apply Hin2, Hin1. apply elem_of_app. right.
           by apply list_elem_of_singleton.
        -- destruct (Hall1 S1) as [v Hv];
             [by rewrite Htk|by rewrite Htk|by rewrite Hdrop
             |by rewrite Hdrop|].
           exists v. apply Hin2. by rewrite <-Hdrop.
    + destruct (IH L depth freq) as (r & -> & Hin2 & Hall2);
        [done|done|lia|done|].
      exists r. split_and!; [done..|].
      intros S1 HS1 Hne1 Hne2 Hsupp.
      destruct (Hcase S1 HS1) as [Hxin|HsubS].
      { by eapply Hkeep. }
      exfalso.
      assert (or_support (S1 ++ drop (S n) L) txs ≤ or_support newList txs);
        [|lia].
      apply or_support_mono. unfold newList. intros y Hy.
      apply elem_of_app in Hy as [Hy|Hy]; apply elem_of_app; [left|by right].
      by eapply elem_of_sublist.
Qed.

End AnyDataset.

(** X26.  Whatever the dataset, also with transactions that repeat items,
    the main block returns with any fuel above the number of nodes of its
    tree.  It passes over no frequent itemset: every non-empty part of the
    canonical order, in that order and not the whole of it, with an item in
    at least [minSupp] transactions is recorded.  A recorded value is never
    below the number of transactions with an item of the itemset. *)
Theorem X26_main_returns_and_misses_nothing (item_lt : Item → Item → bool)
    (transactions : list (list Item)) (minSupp : Z) :
  ∃ itemsOrder tree,
    ∀ fuel, (_nodesCount tree < fuel)%nat →
      ∃ freqItemsets,
        main item_lt fuel transactions minSupp
          = Ok (itemsOrder, tree, freqItemsets) ∧
        (∀ itemset, itemset `sublist_of` itemsOrder → itemset ≠ [] →
           itemset ≠ itemsOrder →
           minSupp ≤ or_support itemset transactions →
           ∃ v, (itemset, v) ∈ freqItemsets) ∧
        (∀ itemset v, (itemset, v) ∈ freqItemsets →
           or_support itemset transactions ≤ v).
Proof.
  destruct (filterTransactions_spec item_lt transactions minSupp)
    as (txs' & order & Hf & Hndo & Hin & HF).
  destruct (buildFPTree_inv txs') as (tree & paths & Hb & Hinv).
  exists order, tree. intros fuel Hfuel.
  assert (∀ S, or_support S txs' = or_support S transactions) as Hs.
  { intros S. apply or_support_Forall2.
    eapply Forall2_impl; [exact HF|]. by intros t t' (? & _). }
  assert (Forall (Forall (λ x, x ∈ order)) txs') as Hitems.
  { apply Forall_forall. intros t' [i Hi]%list_elem_of_lookup.
    destruct (Forall2_lookup_r _ _ _ _ _ HF Hi) as (t & Ht & Hp & _).
    apply Forall_forall. intros x Hx. apply Hin. exists t.
    split; [by eapply list_elem_of_lookup_2|]. by rewrite <-Hp. }
  assert (Forall (λ x, is_Some (_header tree !! Some x)) order) as Hh.
  { apply Forall_forall. intros x (t & Ht & Hxt)%Hin.
    apply (header_is_Some _ _ _ Hinv).
    apply list_elem_of_lookup in Ht as [i Hi].
    destruct (Forall2_lookup_l _ _ _ _ _ HF Hi) as (t' & Hi' & Hp & _).
    exists t'. split; [by eapply list_elem_of_lookup_2|]. by rewrite Hp. }
  assert (∀ N, N `sublist_of` order →
            ∃ v, findSupportByPrefixPath fuel N tree order = Ok v ∧
                 or_support N txs' ≤ v) as Hsup.
  { intros N HN.
    apply (findSupportByPrefixPath_lower _ _ _ order Hinv Hitems); [..|done].
    - apply Forall_forall. intros x Hx. by eapply elem_of_sublist.
    - rewrite Forall_forall in Hh |- *. intros x Hx. apply Hh.
      by eapply elem_of_sublist. }
  destruct (generateItemsets_covers fuel minSupp tree order txs' order Hsup
              (length order) order (Z.of_nat (length order)) [])
    as (r & Hr & _ & Hall); [done..|].
  assert (findFrequentItemsets fuel tree order minSupp = Ok r) as Hffi.
  { unfold findFrequentItemsets, generateItemsets.
    by replace (Z.to_nat (Z.of_nat (length order) - 1 - 0 + 1))
      with (length order) by lia. }
  exists r. split_and!.
  - unfold main. by rewrite Hf, Hb, Hffi.
  - intros itemset Hsub Hne1 Hne2 Hle.
    rewrite firstn_all, drop_all in Hall. specialize (Hall itemset).
    rewrite app_nil_r in Hall. apply Hall; [done..|]. by rewrite Hs.
  - intros itemset v Hv.
    destruct (generateItemsets_sound _ _ _ _ _ _ _ _ _ Hr) as (new & -> & Hnew).
    rewrite Forall_forall in Hnew.
    destruct (Hnew _ Hv) as (Hsub & Hval & _). simpl in *.
    destruct (Hsup itemset Hsub) as (v' & Hv' & Hle).
    rewrite Hval in Hv'. injection Hv' as <-. by rewrite <-Hs.
Qed.

(** ** The prefix-path calculator and the order of insertion *)

Lemma sumZ_perm l1 l2 : l1 ≡ₚ l2 → sumZ l1 = sumZ l2.
Proof. induction 1; simpl; lia. Qed.

Section AnyOrder.

Context (txs paths : list (list Item)) (T : FPTree) (itemsOrder : list Item).
Context (Hinv : tree_inv txs paths T).
Context (Hitems : Forall (Forall (λ x, x ∈ itemsOrder)) txs).

(** The loop of [checkPath] from a node with the path [q] up to the root. *)
Lemma checkPath_while_any itemList i x :
  itemList !! i = Some x → x ∈ itemsOrder →
  ∀ fuel y q, paths !! y = Some q → (y < fuel)%nat →
  checkPath_while fuel itemList (Z.of_nat i) (Some y) T itemsOrder
    = Ok (seen_above itemsOrder x (reverse q)).
Proof.
  intros Hx Hxo. induction fuel as [|fuel IH]; intros y q Hq Hy; [lia|].
  simpl. rewrite (inv_root _ _ _ Hinv).
  destruct (decide (Some y = Some 0%nat)) as [[= ->]|Hy0].
  { rewrite (inv_p0 _ _ _ Hinv) in Hq. by injection Hq as <-. }
  assert (0 < y)%nat as Hpos by (destruct y; [done|lia]).
  destruct (path_node _ _ _ Hinv y q Hq) as [n Hn].
  destruct (inv_node _ _ _ Hinv y n q Hpos Hn Hq)
    as (z & j & q0 & -> & Hitem & _ & Hpar & Hlt & Hj & _).
  unfold deref. rewrite Hn, getitem_nat, Hx, Hitem, reverse_snoc.
  cbn [seen_above].
  destruct (decide (Some z = Some x)) as [[= ->]|Hzx].
  - by rewrite decide_True.
  - rewrite decide_False by congruence.
    assert (z ∈ itemsOrder) as Hzo.
    { pose proof (path_in_order _ _ _ _ Hinv Hitems _ _ Hq) as Hall.
      rewrite Forall_forall in Hall. apply Hall, elem_of_app. right. left. }
    rewrite !index_rank.
    destruct (rank_is_Some _ _ Hzo) as [a Ha].
    destruct (rank_is_Some _ _ Hxo) as [b Hb]. rewrite Ha, Hb. simpl.
    destruct (a <? b)%nat; [done|].
    rewrite Hpar. apply IH; [done|lia].
Qed.

Lemma checkPath_rec_any itemList X xn j q fuel :
  _nodes T !! X = Some xn → _parent xn = Some j → paths !! j = Some q →
  (_nodesCount T < fuel)%nat →
  ∀ m, (m ≤ length itemList)%nat →
       Forall (λ x, x ∈ itemsOrder) (take m itemList) →
       checkPath_rec fuel m itemList X T itemsOrder
         = Ok (found_above itemsOrder itemList m q).
Proof.
  intros HX Hpar Hq Hfuel. induction m as [|m IH]; intros Hm Hall; [done|].
  cbn [checkPath_rec found_above].
  destruct (lookup_lt_is_Some_2 itemList m) as [x Hx]; [lia|].
  rewrite (take_S_r _ _ _ Hx) in Hall.
  apply Forall_app in Hall as [Hall Hxo].
  apply (proj1 (Forall_singleton _ _)) in Hxo.
  unfold deref. rewrite HX, Hpar, Hx.
  rewrite (checkPath_while_any itemList m x Hx Hxo fuel j q Hq).
  2:{ apply lookup_lt_Some in Hq. rewrite (inv_plen _ _ _ Hinv) in Hq. lia. }
  simpl. destruct (seen_above itemsOrder x (reverse q)); [done|].
  simpl. apply IH; [lia|done].
Qed.

(** Every node of the chain adds its share. *)
Lemma findSupport_while_any S k x fuel :
  S !! k = Some x → Forall (λ y, y ∈ itemsOrder) S →
  (_nodesCount T < fuel)%nat →
  ∀ L a n support,
    linked T a L → (∀ i, i ∈ a :: L → i ∈ occ paths x) →
    (length L + 1 < n)%nat →
    findSupport_while n fuel S k (Some a) T itemsOrder support
      = Ok (support
            + sumZ ((λ i, share itemsOrder txs S k (default [] (paths !! i)))
                      <$> (a :: L))).
Proof.
  intros Hx HS Hfuel.
  assert (Forall (λ y, y ∈ itemsOrder) (take k S)) as Hall.
  { rewrite Forall_forall in HS |- *. intros y (i & Hi & _)%elem_of_take.
    apply HS. by eapply list_elem_of_lookup_2. }
  assert (k ≤ length S)%nat as Hk by (apply lookup_lt_Some in Hx; lia).
  assert (∀ a, a ∈ occ paths x →
            ∃ xn c b, _nodes T !! a = Some xn ∧ _count xn = Some c ∧
                      checkPath fuel S (Z.of_nat k - 1) a T itemsOrder = Ok b ∧
                      share itemsOrder txs S k (default [] (paths !! a))
                        = (if b then 0 else c)) as Hstep.
  { intros a (p & Hp & Hl)%elem_of_occ.
    assert (0 < a)%nat as Hpos
      by (apply (path_pos _ _ _ Hinv a p Hp); by intros ->).
    destruct (path_node _ _ _ Hinv a p Hp) as [xn Hxn].
    destruct (inv_node _ _ _ Hinv a xn p Hpos Hxn Hp)
      as (x' & j & q & -> & _ & Hcnt & Hpar & _ & Hj & _).
    exists xn, (Z.of_nat (cnt_prefix (q ++ [x']) txs)),
      (found_above itemsOrder S k q).
    split_and!; [done..| |].
    - unfold checkPath.
      replace (Z.to_nat (Z.of_nat k - 1 + 1)) with k by lia.
      by apply (checkPath_rec_any S a xn j q fuel).
    - rewrite Hp. unfold share. simpl. by rewrite removelast_last. }
  induction L as [|b L IH]; intros a n support HL Hocc Hn;
    (destruct n as [|n]; [lia|]); cbn [findSupport_while];
    destruct (Hstep a) as (xn & c & fb & Hxn & Hc & -> & Hw);
    try (apply Hocc; left); unfold deref; rewrite Hxn, Hc;
    rewrite fmap_cons; cbn [sumZ]; rewrite Hw.
  - simpl in HL. unfold nb in HL. rewrite Hxn in HL. injection HL as ->.
    destruct n as [|n]; [lia|].
    destruct fb; cbn [findSupport_while sumZ fmap list_fmap];
      f_equal; lia.
  - destruct HL as [Hnb HL]. unfold nb in Hnb. rewrite Hxn in Hnb.
    injection Hnb as ->.
    assert (∀ i, i ∈ b :: L → i ∈ occ paths x) as Hocc'
      by (intros; apply Hocc; by right).
    simpl in Hn.
    destruct fb.
    + rewrite (IH b n support HL Hocc') by lia. f_equal.
    + rewrite (IH b n (support + c) HL Hocc') by lia. f_equal. lia.
Qed.

(** One round of [findSupportByPrefixPath]: the shares of the nodes of the
    item. *)
Lemma findSupport_round Is k x ht fuel support :
  Is !! k = Some x → Forall (λ y, y ∈ itemsOrder) Is →
  (_nodesCount T < fuel)%nat →
  _header T !! Some x = Some ht →
  findSupport_while fuel fuel Is k (Some ht.1) T itemsOrder support
    = Ok (support
          + sumZ (share itemsOrder txs Is k
                    <$> filter (λ p, last p = Some x) paths)).
Proof.
  intros Hx HS Hfuel Hht.
  destruct (header_chain _ _ _ Hinv x ht Hht) as (L & Hocc & HL).
  pose proof (occ_length _ _ _ Hinv x) as Hlen. rewrite Hocc in Hlen.
  simpl in Hlen.
  rewrite (findSupport_while_any Is k x fuel Hx HS Hfuel L ht.1 fuel
             support HL); [|intros i Hi; by rewrite Hocc|lia].
  by rewrite <-Hocc, <-occ_paths, <-list_fmap_compose.
Qed.

(** The loop over the itemset returns a support when every item has a
    header entry, and raises [KeyError] at the first item without one. *)
Lemma findSupport_for_result Is fuel :
  Forall (λ y, y ∈ itemsOrder) Is → (_nodesCount T < fuel)%nat →
  ∀ m k support, (k + m ≤ length Is)%nat →
  if decide (Forall (λ y, is_Some (_header T !! Some y)) (take m (drop k Is)))
  then ∃ v, findSupport_for fuel Is (seq k m) T itemsOrder support = Ok v
  else findSupport_for fuel Is (seq k m) T itemsOrder support = Raise KeyError.
Proof.
  intros HS Hfuel. induction m as [|m IH]; intros k support Hkm.
  - rewrite take_0, decide_True by constructor. by eexists.
  - cbn [seq findSupport_for].
    destruct (lookup_lt_is_Some_2 Is k) as [x Hx]; [lia|].
    rewrite getitem_nat, Hx, (drop_S _ _ _ Hx), firstn_cons.
    destruct (_header T !! Some x) as [ht|] eqn:Hht.
    + rewrite (findSupport_round Is k x ht fuel support Hx HS Hfuel Hht).
      simpl. specialize (IH (S k) (support
          + sumZ (share itemsOrder txs Is k
                    <$> filter (λ p, last p = Some x) paths))
          ltac:(lia)).
      destruct (decide (Forall _ (take m (drop (S k) Is)))) as [Hall|Hno].
      * rewrite decide_True; [done|]. constructor; [by rewrite Hht|done].
      * rewrite decide_False; [done|]. by intros [_ ?]%Forall_cons.
    + rewrite decide_False; [done|]. intros [Hs _]%Forall_cons.
      rewrite Hht in Hs. by destruct Hs.
Qed.

End AnyOrder.

(** The same transactions in another order: the same paths, counts and header
    entries, and so the same rounds. *)
Section TwoOrders.

Context (txs1 txs2 paths1 paths2 : list (list Item)) (T1 T2 : FPTree).
Context (itemsOrder : list Item).
Context (Hinv1 : tree_inv txs1 paths1 T1) (Hinv2 : tree_inv txs2 paths2 T2).
Context (Hperm : txs1 ≡ₚ txs2).
Context (Hitems : Forall (Forall (λ x, x ∈ itemsOrder)) txs1).

Lemma paths_perm x :
  filter (λ p, last p = Some x) paths1 ≡ₚ filter (λ p, last p = Some x) paths2.
Proof.
  apply NoDup_Permutation.
  - apply NoDup_filter, (inv_nodup _ _ _ Hinv1).
  - apply NoDup_filter, (inv_nodup _ _ _ Hinv2).
  - intros p. rewrite !list_elem_of_filter.
    rewrite (paths_elem _ _ _ Hinv1), (paths_elem _ _ _ Hinv2).
    by setoid_rewrite Hperm.
Qed.

Lemma share_perm Is k p :
  share itemsOrder txs1 Is k p = share itemsOrder txs2 Is k p.
Proof. unfold share, cnt_prefix. by rewrite Hperm. Qed.

Lemma header_perm x :
  is_Some (_header T1 !! Some x) ↔ is_Some (_header T2 !! Some x).
Proof.
  rewrite (header_is_Some _ _ _ Hinv1), (header_is_Some _ _ _ Hinv2).
  by setoid_rewrite Hperm.
Qed.

Lemma findSupport_for_perm Is fuel1 fuel2 :
  Forall (λ y, y ∈ itemsOrder) Is →
  (_nodesCount T1 < fuel1)%nat → (_nodesCount T2 < fuel2)%nat →
  ∀ m k support, (k + m ≤ length Is)%nat →
  findSupport_for fuel1 Is (seq k m) T1 itemsOrder support
    = findSupport_for fuel2 Is (seq k m) T2 itemsOrder support.
Proof.
  intros HS Hf1 Hf2.
  assert (Forall (Forall (λ x, x ∈ itemsOrder)) txs2) as Hitems2
    by by rewrite <-Hperm.
  induction m as [|m IH]; intros k support Hkm; [done|].
  cbn [seq findSupport_for].
  destruct (lookup_lt_is_Some_2 Is k) as [x Hx]; [lia|].
  rewrite getitem_nat, Hx. simpl.
  pose proof (header_perm x) as Hh.
  destruct (_header T1 !! Some x) as [h1|] eqn:Hh1;
    destruct (_header T2 !! Some x) as [h2|] eqn:Hh2.
  - rewrite (findSupport_round _ _ _ _ Hinv1 Hitems Is k x h1 fuel1 support
               Hx HS Hf1 Hh1).
    rewrite (findSupport_round _ _ _ _ Hinv2 Hitems2 Is k x h2 fuel2 support
               Hx HS Hf2 Hh2).
    simpl.
    rewrite (sumZ_perm _ _ (fmap_Permutation _ _ _ (paths_perm x))).
    rewrite (list_fmap_ext (share itemsOrder txs1 Is k)
               (share itemsOrder txs2 Is k))
      by (intros; apply share_perm).
    apply IH. lia.
  - destruct (proj1 Hh) as [? [=]]; by eexists.
  - destruct (proj2 Hh) as [? [=]]; by eexists.
  - done.
Qed.

End TwoOrders.


End Mining.

(** ** The claims on concrete datasets *)

Ltac solve_canonical :=
  repeat first [apply Forall_nil_2 | apply Forall_cons_2];
  try (split;
       [ repeat first [apply SSorted_nil | apply SSorted_cons
                      | apply Forall_nil_2 | apply Forall_cons_2];
         try (eexists _, _; split_and!; [reflexivity|reflexivity|lia])
       | repeat first [apply Forall_nil_2 | apply Forall_cons_2];
         try (by repeat constructor) ]).

(** A property of the value of a computation that returns is read off the
    computation itself. *)
Lemma result_elim {A : Type} (r : result A) (P : A → Prop) (a : A) :
  r = Ok a → match r with Ok t => P t | Raise _ => True end → P a.
Proof. by intros ->. Qed.

(** Side conditions about the tree [tree] of [Hb : buildFPTree _ = Ok tree],
    settled by evaluating the construction. *)
Ltac on_tree tree Hb :=
  clear -Hb;
  repeat first [apply Forall_nil_2 | apply Forall_cons_2];
  pattern tree; apply (result_elim _ _ _ Hb);
  vm_compute; first [lia | by eexists | reflexivity].

Lemma C1_witness :
  ∃ tree, buildFPTree [["b"; "a"]; ["c"; "a"]; ["c"; "b"]] = Ok tree ∧
          findSupportByPrefixPath 6 ["c"; "a"] tree ["c"; "b"; "a"] = Ok 3.
Proof.
  assert (Forall (canonical ["c"; "b"; "a"])
            [["b"; "a"]; ["c"; "a"]; ["c"; "b"]]) as Htxs by solve_canonical.
  assert (canonical ["c"; "b"; "a"] ["c"; "a"]) as Hset by solve_canonical.
  destruct (C1_prefix_path_support_is_or_support _ _ _ Htxs Hset)
    as (tree & Hb & Hs).
  exists tree. split; [exact Hb|].
  etrans; [apply Hs|vm_compute; reflexivity]; on_tree tree Hb.
Defined.

(** C2 fails as stated: with the counts a:3, b:5, c:3 the order is
    [b, c, a], not [b, a, c]. *)
Lemma C2_counterexample :
  ∃ txs' itemsOrder,
    filterTransactions String.ltb
      [["a"; "b"; "c"]; ["a"; "b"; "c"]; ["a"; "b"; "c"]; ["b"]; ["b"]] 2
      = Ok (txs', itemsOrder) ∧
    occurrences "a"
      [["a"; "b"; "c"]; ["a"; "b"; "c"]; ["a"; "b"; "c"]; ["b"]; ["b"]] = 3 ∧
    occurrences "b"
      [["a"; "b"; "c"]; ["a"; "b"; "c"]; ["a"; "b"; "c"]; ["b"]; ["b"]] = 5 ∧
    occurrences "c"
      [["a"; "b"; "c"]; ["a"; "b"; "c"]; ["a"; "b"; "c"]; ["b"]; ["b"]] = 3 ∧
    itemsOrder = ["b"; "c"; "a"] ∧ itemsOrder ≠ ["b"; "a"; "c"].
Proof. eexists _, _. split_and!; [vm_compute; reflexivity..|done]. Qed.

Lemma C2_witness :
  ∃ txs' itemsOrder,
    filterTransactions Z.ltb [[1; 2]; [2; 3]; [2]] 2 = Ok (txs', itemsOrder) ∧
    NoDup itemsOrder ∧
    (∀ x, x ∈ itemsOrder ↔ ∃ t, t ∈ [[1; 2]; [2; 3]; [2]] ∧ x ∈ t) ∧
    StronglySorted
      (λ x y, occurrences y [[1; 2]; [2; 3]; [2]]
                < occurrences x [[1; 2]; [2; 3]; [2]] ∨
              (occurrences x [[1; 2]; [2; 3]; [2]]
                 = occurrences y [[1; 2]; [2; 3]; [2]] ∧ (y <? x) = true))
      itemsOrder.
Proof.
  apply (C2_canonical_order_descending Z.ltb).
  - intros x. apply Z.ltb_irrefl.
  - intros x y z. rewrite !Z.ltb_lt. lia.
  - intros x y. rewrite !Z.ltb_lt. lia.
Defined.

(** C3 fails as stated: the dataset with the transactions [c, b, b] and
    [c, a, a] passes [filterTransactions] unchanged, and on its tree the
    itemset [b, a] has support 4 and the larger itemset [c, b, a] support 2:
    every node of a repeated item is counted. *)
Lemma C3_counterexample :
  ∃ tree,
    filterTransactions String.ltb [["c"; "b"; "b"]; ["c"; "a"; "a"]] 2
      = Ok ([["c"; "b"; "b"]; ["c"; "a"; "a"]], ["c"; "b"; "a"]) ∧
    buildFPTree [["c"; "b"; "b"]; ["c"; "a"; "a"]] = Ok tree ∧
    canonical ["c"; "b"; "a"] ["b"; "a"] ∧
    canonical ["c"; "b"; "a"] ["c"; "b"; "a"] ∧
    ["b"; "a"] ⊆ ["c"; "b"; "a"] ∧
    findSupportByPrefixPath 6 ["b"; "a"] tree ["c"; "b"; "a"] = Ok 4 ∧
    findSupportByPrefixPath 6 ["c"; "b"; "a"] tree ["c"; "b"; "a"] = Ok 2.
Proof.
  eexists. split; [vm_compute; reflexivity|]. split; [vm_compute; reflexivity|].
  split; [solve_canonical|]. split; [solve_canonical|]. split; [set_solver|].
  split; vm_compute; reflexivity.
Qed.

Lemma C3_witness :
  ∃ tree, buildFPTree [["b"; "a"]; ["c"; "a"]; ["c"; "b"]] = Ok tree ∧
    ∃ a b, findSupportByPrefixPath 6 ["c"] tree ["c"; "b"; "a"] = Ok a ∧
           findSupportByPrefixPath 6 ["c"; "a"] tree ["c"; "b"; "a"] = Ok b ∧
           a ≤ b.
Proof.
  assert (Forall (canonical ["c"; "b"; "a"])
            [["b"; "a"]; ["c"; "a"]; ["c"; "b"]]) as Htxs by solve_canonical.
  assert (canonical ["c"; "b"; "a"] ["c"]) as HA by solve_canonical.
  assert (canonical ["c"; "b"; "a"] ["c"; "a"]) as HB by solve_canonical.
  assert (["c"] ⊆ ["c"; "a"]) as HAB by set_solver.
  destruct (C3_support_monotone _ _ _ _ Htxs HA HB HAB) as (tree & Hb & Hs).
  exists tree. split; [exact Hb|]. apply Hs; on_tree tree Hb.
Defined.

(** C4 fails as stated: on the tree of the single transaction [a], the
    itemset [a, b] makes the calculator raise [KeyError] instead of
    returning the support of a. *)
Lemma C4_counterexample :
  ∃ tree, buildFPTree [["a"]] = Ok tree ∧
          _header tree !! Some "b" = None ∧
          findSupportByPrefixPath 5 ["a"; "b"] tree ["a"; "b"] = Raise KeyError.
Proof. eexists. split_and!; vm_compute; reflexivity. Qed.

Lemma C4_witness :
  ∃ tree, buildFPTree [["a"]] = Ok tree ∧
    (∀ fuel, ∃ e,
       findSupportByPrefixPath fuel ["a"; "b"] tree ["a"; "b"] = Raise e) ∧
    findSupportByPrefixPath 5 ["a"; "b"] tree ["a"; "b"] = Raise KeyError.
Proof.
  destruct (buildFPTree_inv [["a"]]) as (tree & _ & Hb & _).
  exists tree. split; [exact Hb|].
  assert (∃ x, x ∈ ["a"; "b"] ∧ _header tree !! Some x = None) as Hmiss.
  { exists "b". split; [by repeat constructor|]. on_tree tree Hb. }
  destruct (C4_missing_item_raises tree ["a"; "b"] ["a"; "b"] Hmiss)
    as [Hraise Hkey].
  split; [exact Hraise|]. apply (Hkey [["a"]]).
  - exact Hb.
  - solve_canonical.
  - solve_canonical.
  - on_tree tree Hb.
Defined.

(** C5 fails as stated.  The breadth-first calculator never returns anything
    but the number of transactions that contain an item of the itemset, so
    its value is never a double count; and on the tree of duplicate-free
    canonical transactions the two calculators never differ. *)
Lemma C5_counterexample :
  (¬ ∃ (transactions : list (list string)) itemset tree fuel v,
       buildFPTree transactions = Ok tree ∧
       (_nodesCount tree + 1 < fuel)%nat ∧
       findSupportByBFS fuel itemset tree = Ok v ∧
       v ≠ or_support itemset transactions) ∧
  (¬ ∃ (itemsOrder : list string) transactions itemset tree fuel,
       Forall (canonical itemsOrder) transactions ∧
       canonical itemsOrder itemset ∧
       buildFPTree transactions = Ok tree ∧
       Forall (λ x, is_Some (_header tree !! Some x)) itemset ∧
       (_nodesCount tree + 1 < fuel)%nat ∧
       findSupportByBFS fuel itemset tree
         ≠ findSupportByPrefixPath fuel itemset tree itemsOrder).
Proof.
  split.
  - intros (transactions & itemset & tree & fuel & v & Hb & Hfuel & Hbfs & Hv).
    destruct (buildFPTree_tree_inv _ _ Hb) as [paths Hinv].
    rewrite (findSupportByBFS_spec _ _ _ itemset Hinv fuel Hfuel) in Hbfs.
    by injection Hbfs.
  - intros (itemsOrder & transactions & itemset & tree & fuel
            & Htxs & Hset & Hb & Hall & Hfuel & Hne).
    destruct (buildFPTree_tree_inv _ _ Hb) as [paths Hinv]. apply Hne.
    rewrite (findSupportByBFS_spec _ _ _ itemset Hinv fuel Hfuel).
    rewrite (findSupportByPrefixPath_spec _ _ _ _ Hinv Htxs _ fuel Hset) by lia.
    by rewrite decide_True.
Qed.

(** C5, as the code has it.  The two calculators are not equivalent on
    every tree the code builds: for the dataset with the single transaction
    [a, a], which [filterTransactions] passes on as it is, and the itemset
    [a], [findSupportByBFS] returns 1, the number of transactions with a,
    and [findSupportByPrefixPath] returns 2.  The breadth-first calculator
    always returns the disjunctive support, and the two agree on the tree of
    duplicate-free canonical transactions. *)
Theorem C5_calculators_differ_on_repeated_items :
  (∃ tree,
     filterTransactions String.ltb [["a"; "a"]] 2 = Ok ([["a"; "a"]], ["a"]) ∧
     buildFPTree [["a"; "a"]] = Ok tree ∧
     findSupportByBFS 5 ["a"] tree = Ok 1 ∧
     findSupportByPrefixPath 5 ["a"] tree ["a"] = Ok 2 ∧
     or_support ["a"] [["a"; "a"]] = 1) ∧
  (∀ (Item : Type) `{Countable Item} (transactions : list (list Item))
     (itemset : list Item) (tree : FPTree) (fuel : nat),
     buildFPTree transactions = Ok tree →
     (_nodesCount tree + 1 < fuel)%nat →
     findSupportByBFS fuel itemset tree = Ok (or_support itemset transactions)) ∧
  (∀ (Item : Type) `{Countable Item} (itemsOrder : list Item)
     (transactions : list (list Item)) (itemset : list Item) (tree : FPTree)
     (fuel : nat),
     buildFPTree transactions = Ok tree →
     Forall (canonical itemsOrder) transactions →
     canonical itemsOrder itemset →
     Forall (λ x, is_Some (_header tree !! Some x)) itemset →
     (_nodesCount tree + 1 < fuel)%nat →
     findSupportByBFS fuel itemset tree
       = findSupportByPrefixPath fuel itemset tree itemsOrder).
Proof.
  split_and!.
  - eexists. split_and!; vm_compute; reflexivity.
  - intros Item ? ? transactions itemset tree fuel Hb Hfuel.
    destruct (buildFPTree_tree_inv _ _ Hb) as [paths Hinv].
    by apply (findSupportByBFS_spec _ _ _ itemset Hinv).
  - intros Item ? ? itemsOrder transactions itemset tree fuel Hb Htxs Hset
      Hall Hfuel.
    destruct (buildFPTree_tree_inv _ _ Hb) as [paths Hinv].
    rewrite (findSupportByBFS_spec _ _ _ itemset Hinv fuel Hfuel).
    rewrite (findSupportByPrefixPath_spec _ _ _ _ Hinv Htxs _ fuel Hset) by lia.
    by rewrite decide_True.
Qed.

Lemma C5_witness :
  ∃ tree, buildFPTree [["b"; "a"]; ["c"; "a"]; ["c"; "b"]] = Ok tree ∧
    findSupportByBFS 7 ["c"; "a"] tree = Ok 3 ∧
    findSupportByBFS 7 ["c"; "a"] tree
      = findSupportByPrefixPath 7 ["c"; "a"] tree ["c"; "b"; "a"].
Proof.
  destruct (buildFPTree_inv [["b"; "a"]; ["c"; "a"]; ["c"; "b"]])
    as (tree & _ & Hb & _).
  exists tree. split; [exact Hb|].
  destruct C5_calculators_differ_on_repeated_items as (_ & Hbfs & Hagree).
  split.
  - etrans; [apply (Hbfs _ _ _ _ ["c"; "a"] tree 7%nat Hb)
            |vm_compute; reflexivity].
    on_tree tree Hb.
  - apply (Hagree _ _ _ _ _ _ _ _ Hb); [solve_canonical|solve_canonical|..];
      on_tree tree Hb.
Defined.



(** C7 fails as stated: one empty transaction is inserted, and the root has
    no child. *)
Lemma C7_counterexample :
  ∃ tree, buildFPTree [@nil string] = Ok tree ∧
          root_children_count_sum tree = Ok 0 ∧
          root_children_count_sum tree ≠ Ok (Z.of_nat (length [@nil string])).
Proof. eexists. split_and!; [vm_compute; reflexivity..|discriminate]. Qed.

Lemma C8_witness :
  ∃ fpt, buildFPTree [["b"; "a"]; ["c"; "a"]; ["c"; "b"]] = Ok fpt ∧
    findFrequentItemsets 6 fpt ["c"; "b"; "a"] 2
      = Ok [(["c"; "b"], 3); (["c"], 2); (["b"], 2); (["c"; "a"], 3);
            (["a"], 2); (["b"; "a"], 3)] ∧
    NoDup [(["c"; "b"], 3); (["c"], 2); (["b"], 2); (["c"; "a"], 3);
           (["a"], 2); (["b"; "a"], 3)].*1.
Proof.
  destruct (buildFPTree_inv [["b"; "a"]; ["c"; "a"]; ["c"; "b"]])
    as (fpt & _ & Hb & _).
  exists fpt. split; [exact Hb|].
  assert (findFrequentItemsets 6 fpt ["c"; "b"; "a"] 2
            = Ok [(["c"; "b"], 3); (["c"], 2); (["b"], 2); (["c"; "a"], 3);
                  (["a"], 2); (["b"; "a"], 3)]) as Hf
    by on_tree fpt Hb.
  split; [exact Hf|].
  apply (C8_no_itemset_recorded_twice 6 fpt ["c"; "b"; "a"] 2 _); [|exact Hf].
  apply (bool_decide_unpack _). vm_compute. exact I.
Defined.

Lemma C10_witness :
  ∃ fpt, buildFPTree [["b"; "a"]; ["c"; "a"]; ["c"; "b"]] = Ok fpt ∧
    findFrequentItemsets 6 fpt ["c"; "b"; "a"] 2
      = Ok [(["c"; "b"], 3); (["c"], 2); (["b"], 2); (["c"; "a"], 3);
            (["a"], 2); (["b"; "a"], 3)] ∧
    Forall (λ e : list string * Z, (1 ≤ length e.1 ≤ 3 - 1)%nat)
      [(["c"; "b"], 3); (["c"], 2); (["b"], 2); (["c"; "a"], 3);
       (["a"], 2); (["b"; "a"], 3)].
Proof.
  destruct (buildFPTree_inv [["b"; "a"]; ["c"; "a"]; ["c"; "b"]])
    as (fpt & _ & Hb & _).
  exists fpt. split; [exact Hb|].
  assert (findFrequentItemsets 6 fpt ["c"; "b"; "a"] 2
            = Ok [(["c"; "b"], 3); (["c"], 2); (["b"], 2); (["c"; "a"], 3);
                  (["a"], 2); (["b"; "a"], 3)]) as Hf
    by on_tree fpt Hb.
  split; [exact Hf|].
  apply (C10_recorded_itemsets_are_proper 6 fpt ["c"; "b"; "a"] 2 _ Hf).
Defined.

(** ** Further properties on concrete datasets *)

Lemma X14_witness :
  ∃ tree, buildFPTree [["b"; "a"]; ["c"; "a"]; ["c"; "b"]] = Ok tree ∧
    ∀ fuel X xn, (_nodesCount tree < fuel)%nat →
      _nodes tree !! X = Some xn → X ≠ _root tree →
      ∃ path q x, collectPath fuel tree X = Ok path ∧
                  path_items tree path = Some (q ++ [x]) ∧
                  checkPath fuel ["c"; "a"] (Z.of_nat 1 - 1) X tree
                    ["c"; "b"; "a"]
                    = Ok (bool_decide (contains_any (take 1 ["c"; "a"]) q)).
Proof.
  apply (X14_checkPath_finds_ancestor_items ["c"; "b"; "a"]
           [["b"; "a"]; ["c"; "a"]; ["c"; "b"]] ["c"; "a"] 1).
  - solve_canonical.
  - repeat constructor.
  - simpl. lia.
Defined.

Lemma X18_witness :
  ∃ txs1' txs2' itemsOrder,
    filterTransactions Z.ltb [[1; 2]; [2]] 2 = Ok (txs1', itemsOrder) ∧
    filterTransactions Z.ltb [[2]; [1; 2]] 5 = Ok (txs2', itemsOrder).
Proof.
  apply (X18_canonical_order_depends_on_counts_only Z.ltb).
  - intros x. apply Z.ltb_irrefl.
  - intros x y z. rewrite !Z.ltb_lt. lia.
  - intros x y. rewrite !Z.ltb_lt. lia.
  - intros x. apply occurrences_perm, Permutation_swap.
Defined.

Lemma X19_witness :
  ∃ fpt, buildFPTree [["b"; "a"]; ["c"; "a"]; ["c"; "b"]] = Ok fpt ∧
    findFrequentItemsets 6 fpt ["c"; "b"; "a"] 3
      = Ok [(["c"; "b"], 3); (["c"; "a"], 3); (["b"; "a"], 3)] ∧
    Forall (λ e : list string * Z,
              e.1 `sublist_of` ["c"; "b"; "a"] ∧
              findSupportByPrefixPath 6 e.1 fpt ["c"; "b"; "a"] = Ok e.2 ∧
              3 ≤ e.2)
      [(["c"; "b"], 3); (["c"; "a"], 3); (["b"; "a"], 3)].
Proof.
  destruct (buildFPTree_inv [["b"; "a"]; ["c"; "a"]; ["c"; "b"]])
    as (fpt & _ & Hb & _).
  exists fpt. split; [exact Hb|].
  assert (findFrequentItemsets 6 fpt ["c"; "b"; "a"] 3
            = Ok [(["c"; "b"], 3); (["c"; "a"], 3); (["b"; "a"], 3)]) as Hf
    by on_tree fpt Hb.
  split; [exact Hf|].
  apply (X19_recorded_itemsets_reach_the_threshold 6 fpt ["c"; "b"; "a"] 3 _ Hf).
Defined.

Lemma X20_witness :
  ∃ itemsOrder tree,
    ∀ fuel, (_nodesCount tree < fuel)%nat →
      ∃ freqItemsets,
        main String.ltb fuel [["a"; "b"]; ["a"; "c"]; ["b"; "c"]] 3
          = Ok (itemsOrder, tree, freqItemsets) ∧
        ∀ itemset v, (itemset, v) ∈ freqItemsets ↔
               itemset `sublist_of` itemsOrder ∧ itemset ≠ [] ∧
               itemset ≠ itemsOrder ∧
               v = or_support itemset [["a"; "b"]; ["a"; "c"]; ["b"; "c"]] ∧
               3 ≤ v.
Proof.
  apply (X20_main_mines_the_frequent_itemsets String.ltb
           [["a"; "b"]; ["a"; "c"]; ["b"; "c"]] 3).
  apply (bool_decide_unpack _). vm_compute. exact I.
Defined.

Lemma X21_witness :
  ∃ itemsOrder tree1 tree2,
    ∀ fuel, (_nodesCount tree1 < fuel)%nat → (_nodesCount tree2 < fuel)%nat →
      ∃ freqItemsets,
        main Z.ltb fuel [[1; 2]; [2; 3]] 2
          = Ok (itemsOrder, tree1, freqItemsets) ∧
        main Z.ltb fuel [[2; 3]; [1; 2]] 2
          = Ok (itemsOrder, tree2, freqItemsets).
Proof.
  apply (X21_output_ignores_transaction_order Z.ltb).
  - intros x. apply Z.ltb_irrefl.
  - intros x y z. rewrite !Z.ltb_lt. lia.
  - intros x y. rewrite !Z.ltb_lt. lia.
  - apply (bool_decide_unpack _). vm_compute. exact I.
  - apply Permutation_swap.
Defined.

Lemma X24_witness :
  processDataset_lines (line_of <$> [["a"; "bc"]; []; ["d"]])
    = [["a"; "bc"]; []; ["d"]].
Proof.
  apply (X24_processDataset_reads_back [["a"; "bc"]; []; ["d"]]).
  repeat first [apply Forall_nil_2 | apply Forall_cons_2 | by split].
Defined.

Lemma X25_witness :
  ∃ tree, buildFPTree [["c"; "b"; "b"]; ["c"; "a"; "a"]] = Ok tree ∧
    ∀ fuel, (_nodesCount tree + 1 < fuel)%nat →
      ∃ v, findSupportByPrefixPath fuel ["b"; "a"] tree ["c"; "b"; "a"] = Ok v ∧
           findSupportByBFS fuel ["b"; "a"] tree
             = Ok (or_support ["b"; "a"] [["c"; "b"; "b"]; ["c"; "a"; "a"]]) ∧
           or_support ["b"; "a"] [["c"; "b"; "b"]; ["c"; "a"; "a"]] ≤ v.
Proof.
  apply (X25_prefix_path_support_never_undercounts ["c"; "b"; "a"]
           [["c"; "b"; "b"]; ["c"; "a"; "a"]] ["b"; "a"]).
  - repeat first [apply Forall_nil_2 | apply Forall_cons_2];
      by repeat constructor.
  - repeat first [apply Forall_nil_2 | apply Forall_cons_2];
      simpl; by repeat constructor.
Defined.

